(** * Traplace: grid transforms, area painter, placement validation,
      URL state codec and undo/redo history

    A shallow embedding of the algorithmic core of the map editor
    (app/static/js: state.js, transform.js, painter.js, blocks.js,
    urlState.js, history.js) together with the properties its
    specification states about it.

    Modelling conventions
    - A JavaScript number that the code obtains from [parseInt] is a [num]:
      [NaN], an infinity, a safe integer (magnitude below 2^53, where
      doubles and their arithmetic are exact), or the double that stands
      for a written integer beyond that range, which it only approximates.
      Where the code inspects such an approximated number the model does
      not say what happens: the call is [Undetermined].  Pixel coordinates, which come out of a matrix
      product, are exact rationals ([Q]); [Math.round], [Math.floor] and
      [Math.ceil] are the exact roundings.
    - A JavaScript string is a [string] of 8-bit characters: the UTF-8 bytes
      of the text, which is what [encodeURIComponent] escapes one by one.  A
      string without lone surrogates is [isWellFormed] UTF-8; a string with a
      lone surrogate has no counterpart.  White space, for [trim] and
      [parseInt], is the white space and line terminators of ECMA-262, the
      ones outside ASCII recognised by their UTF-8 bytes.
    - [Set<string>] is a duplicate-free list in insertion order and [Map] an
      association list in insertion order, which is the iteration order
      JavaScript guarantees.  An array holds at most 2^32 - 1 elements.
    - Code that can throw returns a [result]. *)

From Stdlib Require Import ZArith QArith Qround List String Ascii Bool Lia.
From Stdlib Require Import Sorting.Sorted Sorting.Permutation Lists.Finite.
Import ListNotations.

Local Open Scope string_scope.
Local Open Scope Z_scope.

(* ================================================================== *)
(** * JavaScript runtime: numbers, strings, sets                       *)
(* ================================================================== *)

Module JS.

(** ** Numbers *)

(** [Int z] is the finite number whose value is the integer [z].
    [Inf neg] is [Infinity], or [-Infinity] when [neg].
    [Huge m] is what [parseInt] makes of digits that write the integer [m]
    when [m] is not a safe integer: a double near [m] (the nearest one, or,
    for long numerals and in radix 36, an approximation that ECMA-262
    leaves to the implementation), or an infinity near the top of the
    range.  The model knows the written integer only. *)
Inductive num : Type :=
| NaN
| Inf (neg : bool)
| Int (z : Z)
| Huge (m : Z).

Definition MAX_SAFE_INTEGER : Z := 2 ^ 53 - 1.

(** The integers that doubles and their arithmetic represent exactly. *)
Definition safe (z : Z) : bool := Z.abs z <=? MAX_SAFE_INTEGER.

(** The number that stands for the written integer [m].  From 2^1025 on,
    twice the largest double, the result is an infinity. *)
Definition number_of (m : Z) : num :=
  if safe m then Int m
  else if Z.abs m <? 2 ^ 1025 then Huge m
  else Inf (m <? 0).

(** [a || d] on numbers: NaN and 0 are falsy, every other number,
    infinite ones included, is kept. *)
Definition orElse (a : num) (d : Z) : num :=
  match a with
  | NaN => Int d
  | Int z => if z =? 0 then Int d else Int z
  | Inf neg => Inf neg
  | Huge m => Huge m
  end.

(** [Math.max]: NaN if an argument is; an approximated number is beyond
    every safe integer on its side, and the larger of two of them is near
    the larger of the two written integers. *)
Definition max (a b : num) : num :=
  match a, b with
  | NaN, _ | _, NaN => NaN
  | Inf false, _ | _, Inf false => Inf false
  | Inf true, x | x, Inf true => x
  | Int x, Int y => Int (Z.max x y)
  | Int x, Huge m | Huge m, Int x => if 0 <? m then Huge m else Int x
  | Huge m, Huge m' => Huge (Z.max m m')
  end.

(** [Math.round] rounds to the nearest integer, ties towards +infinity. *)
Definition round (q : Q) : Z := Qfloor (q + (1 # 2))%Q.
Definition floor (q : Q) : Z := Qfloor q.
Definition ceil (q : Q) : Z := Qceiling q.

(** ** Characters and digits *)

Definition code (ch : ascii) : Z := Z.of_nat (nat_of_ascii ch).

Definition digit_char (d : Z) : ascii :=
  if d <? 10 then ascii_of_nat (Z.to_nat (48 + d))
  else ascii_of_nat (Z.to_nat (87 + d)).

(** Value of a digit in radix up to 36, letters in either case. *)
Definition digit_value (ch : ascii) : option Z :=
  let n := code ch in
  if (48 <=? n) && (n <=? 57) then Some (n - 48)
  else if (97 <=? n) && (n <=? 122) then Some (n - 87)
  else if (65 <=? n) && (n <=? 90) then Some (n - 55)
  else None.

(** ** White space

    The white space and line terminators of ECMA-262: TAB, LF, VT, FF, CR
    and SP, which are one byte each; U+00A0, of two bytes; and U+1680,
    U+2000 to U+200A, U+2028, U+2029, U+202F, U+205F, U+3000 and U+FEFF, of
    three bytes each. *)
Definition is_ws (ch : ascii) : bool :=
  let n := code ch in
  ((9 <=? n) && (n <=? 13)) || (n =? 32).

Definition is_ws2 (c0 c1 : ascii) : bool :=
  (code c0 =? 194) && (code c1 =? 160).

Definition is_ws3 (c0 c1 c2 : ascii) : bool :=
  let n0 := code c0 in
  let n1 := code c1 in
  let n2 := code c2 in
  ((n0 =? 225) && (n1 =? 154) && (n2 =? 128))
  || ((n0 =? 226) && (n1 =? 128)
      && (((128 <=? n2) && (n2 <=? 138)) || (n2 =? 168) || (n2 =? 169)
          || (n2 =? 175)))
  || ((n0 =? 226) && (n1 =? 129) && (n2 =? 159))
  || ((n0 =? 227) && (n1 =? 128) && (n2 =? 128))
  || ((n0 =? 239) && (n1 =? 187) && (n2 =? 191)).

(** ** Well-formed text

    The UTF-8 form of a code point: no overlong form, no surrogate, nothing
    above U+10FFFF. *)
Definition cont (b : Z) : bool := (128 <=? b) && (b <=? 191).

Definition utf8_2 (b0 b1 : Z) : bool :=
  (194 <=? b0) && (b0 <=? 223) && cont b1.

Definition utf8_3 (b0 b1 b2 : Z) : bool :=
  cont b2
  && (((b0 =? 224) && (160 <=? b1) && (b1 <=? 191))
      || ((225 <=? b0) && (b0 <=? 236) && cont b1)
      || ((b0 =? 237) && (128 <=? b1) && (b1 <=? 159))
      || ((238 <=? b0) && (b0 <=? 239) && cont b1)).

Definition utf8_4 (b0 b1 b2 b3 : Z) : bool :=
  cont b2 && cont b3
  && (((b0 =? 240) && (144 <=? b1) && (b1 <=? 191))
      || ((241 <=? b0) && (b0 <=? 243) && cont b1)
      || ((b0 =? 244) && (128 <=? b1) && (b1 <=? 143))).

(** The string is the UTF-8 form of a sequence of code points, that is, of
    a JavaScript string without lone surrogates. *)
Fixpoint isWellFormed (s : string) : bool :=
  match s with
  | EmptyString => true
  | String c0 r0 =>
      if code c0 <? 128 then isWellFormed r0
      else
        match r0 with
        | String c1 r1 =>
            if utf8_2 (code c0) (code c1) then isWellFormed r1
            else
              match r1 with
              | String c2 r2 =>
                  if utf8_3 (code c0) (code c1) (code c2) then isWellFormed r2
                  else
                    match r2 with
                    | String c3 r3 =>
                        utf8_4 (code c0) (code c1) (code c2) (code c3)
                        && isWellFormed r3
                    | EmptyString => false
                    end
              | EmptyString => false
              end
        | EmptyString => false
        end
  end.

(** ** [Number.prototype.toString(radix)] on integers *)

Fixpoint digits (fuel : nat) (radix n : Z) (acc : string) : string :=
  if n <? radix then String (digit_char n) acc
  else
    match fuel with
    | O => String (digit_char (n mod radix)) acc
    | S f => digits f radix (n / radix) (String (digit_char (n mod radix)) acc)
    end.

Definition toStringZ (radix n : Z) : string :=
  if n <? 0
  then String "-"%char (digits (Z.to_nat (Z.log2 (- n))) radix (- n) "")
  else digits (Z.to_nat (Z.log2 n)) radix n "".

(** An implementation prints an approximated number with the digits of
    its own approximation; the model has the written integer only.  No
    function below prints such a number. *)
Definition toString (radix : Z) (n : num) : string :=
  match n with
  | NaN => "NaN"
  | Inf false => "Infinity"
  | Inf true => "-Infinity"
  | Int z => toStringZ radix z
  | Huge m => toStringZ radix m
  end.

(** [String(n)] and template interpolation of a number. *)
Definition String_ (n : num) : string := toString 10 n.

(** ** [parseInt(v, radix)] for radix 10 and 36 *)

Fixpoint trimStart (s : string) : string :=
  match s with
  | EmptyString => s
  | String c0 r0 =>
      if is_ws c0 then trimStart r0
      else
        match r0 with
        | String c1 r1 =>
            if is_ws2 c0 c1 then trimStart r1
            else
              match r1 with
              | String c2 r2 => if is_ws3 c0 c1 c2 then trimStart r2 else s
              | EmptyString => s
              end
        | EmptyString => s
        end
  end.

(** Longest prefix of digits below [radix]; [None] when there is none. *)
Fixpoint parse_digits (radix : Z) (acc : option Z) (s : string) : option Z :=
  match s with
  | String ch r =>
      match digit_value ch with
      | Some d =>
          if d <? radix
          then parse_digits radix
                 (Some (match acc with Some a => a | None => 0 end * radix + d)) r
          else acc
      | None => acc
      end
  | EmptyString => acc
  end.

(** The argument is a string or [undefined]; [undefined] is first turned
    into the string ["undefined"]. *)
Definition parseInt (v : option string) (radix : Z) : num :=
  let s := trimStart (match v with Some s => s | None => "undefined" end) in
  let '(neg, body) :=
    match s with
    | String "-"%char r => (true, r)
    | String "+"%char r => (false, r)
    | _ => (false, s)
    end in
  match parse_digits radix None body with
  | Some m => number_of (if neg then - m else m)
  | None => NaN
  end.

(** ** String operations *)

Fixpoint includes (c : ascii) (s : string) : bool :=
  match s with
  | String ch r => if Ascii.eqb ch c then true else includes c r
  | EmptyString => false
  end.

(** [s.indexOf(c)]; [None] stands for -1. *)
Fixpoint indexOf (c : ascii) (s : string) : option nat :=
  match s with
  | String ch r =>
      if Ascii.eqb ch c then Some O
      else match indexOf c r with
           | Some i => Some (S i)
           | None => None
           end
  | EmptyString => None
  end.

(** [s.slice(n)] *)
Fixpoint sliceFrom (n : nat) (s : string) : string :=
  match n, s with
  | O, _ => s
  | S k, String _ r => sliceFrom k r
  | S _, EmptyString => EmptyString
  end.

(** [s.slice(1)]: the string without its first UTF-16 code unit.  A
    character of one, two or three bytes is one code unit.  A character of
    four bytes is two code units, of which the second stays: a lone
    surrogate, for which the three bytes after the first stand (like it,
    they are no digit, no separator and no white space). *)
Definition dropUnit (s : string) : string :=
  match s with
  | EmptyString => EmptyString
  | String c0 r0 =>
      match r0 with
      | String c1 r1 =>
          if utf8_2 (code c0) (code c1) then r1
          else
            match r1 with
            | String c2 r2 =>
                if utf8_3 (code c0) (code c1) (code c2) then r2 else r0
            | EmptyString => r0
            end
      | EmptyString => r0
      end
  end.

(** [s.slice(0, n)] *)
Fixpoint sliceTo (n : nat) (s : string) : string :=
  match n, s with
  | O, _ => EmptyString
  | S k, String ch r => String ch (sliceTo k r)
  | S _, EmptyString => EmptyString
  end.

(** [s.split(c)] for a one-character separator: never the empty list.
    (It returns at most 2^32 - 1 pieces, a limit that no string an
    implementation can hold reaches.) *)
Fixpoint split (c : ascii) (s : string) : list string :=
  match s with
  | EmptyString => [EmptyString]
  | String ch r =>
      if Ascii.eqb ch c then EmptyString :: split c r
      else match split c r with
           | piece :: rest => String ch piece :: rest
           | [] => [String ch EmptyString]
           end
  end.

(** [l.join(c)] *)
Fixpoint join (c : ascii) (l : list string) : string :=
  match l with
  | [] => EmptyString
  | [s] => s
  | s :: rest => (s ++ String c (join c rest))%string
  end.

(** [s.trim()] *)

(** Nothing but white space. *)
Definition blank (s : string) : bool :=
  match trimStart s with
  | EmptyString => true
  | String _ _ => false
  end.

(** The string up to its last character that is not white space.  In
    well-formed text a byte inside a character begins no white space, so
    that the test is made at the characters. *)
Fixpoint trimEnd (s : string) : string :=
  match s with
  | EmptyString => EmptyString
  | String ch r => if blank s then EmptyString else String ch (trimEnd r)
  end.

Definition trim (s : string) : string := trimEnd (trimStart s).

(** Array destructuring [[a, b] = arr]: a missing element is [undefined]. *)
Definition at_ (i : nat) (l : list string) : option string := nth_error l i.

(** ** [Set<string>] in insertion order *)

Definition set := list string.

Definition has (s : set) (k : string) : bool :=
  existsb (String.eqb k) s.

Definition add (s : set) (k : string) : set :=
  if has s k then s else (s ++ [k])%list.

Definition delete (s : set) (k : string) : set :=
  filter (fun k' => negb (String.eqb k k')) s.

(** [new Set(array)] *)
Definition newSet (l : list string) : set :=
  fold_left add l [].

(** ** Exceptions *)

Inductive exn : Type :=
| URIError
| RangeError.

(** What a call comes to: it returns, it throws, or, where it inspects a
    number that the implementation approximates, the model does not
    determine it. *)
Inductive result (A : Type) : Type :=
| Ok (a : A)
| Throw (e : exn)
| Undetermined.
Arguments Ok {A} a.
Arguments Throw {A} e.
Arguments Undetermined {A}.

Definition bind {A B} (m : result A) (k : A -> result B) : result B :=
  match m with
  | Ok a => k a
  | Throw e => Throw e
  | Undetermined => Undetermined
  end.

(** ** Arrays of strings *)

Definition MAX_ARRAY_LENGTH : Z := 2 ^ 32 - 1.

Definition lengthOf (l : list string) : Z := Z.of_nat (List.length l).

(** [out.push(k)]: a [RangeError] once the array is full (an
    implementation may run out of memory before). *)
Definition push (out : list string) (k : string) : result (list string) :=
  if lengthOf out <? MAX_ARRAY_LENGTH then Ok (out ++ [k])%list
  else Throw RangeError.

End JS.

Notation "x <- m ;; k" := (JS.bind m (fun x => k))
(at level 61, m at next level, right associativity).

(* ================================================================== *)
(** * state.js: cell size, world, blocks                               *)
(* ================================================================== *)

Module State.
Import JS.

(** What the code reads from the document: the computed value of the CSS
    variable [--cell] and the pixel size of the [#world] element. *)
Record Dom : Type := {
  cellVar : string;
  clientWidth : Z;
  clientHeight : Z
}.

Definition BASE_CELLS_X : Z := 1200.
Definition BASE_CELLS_Y : Z := 1200.

(** A cell size written with more digits than a safe integer has is
    taken at the integer written. *)
Definition cellPx (d : Dom) : Z :=
  match parseInt (Some (cellVar d)) 10 with
  | Int v | Huge v => if 0 <? v then v else 48
  | NaN | Inf _ => 48
  end.

Inductive Kind : Type :=
| block | flag | hq | city | resource | trap | custom
| castle | turret | fortress | sanctuary.

Definition Kind_eqb (a b : Kind) : bool :=
  match a, b with
  | block, block | flag, flag | hq, hq | city, city | resource, resource
  | trap, trap | custom, custom | castle, castle | turret, turret
  | fortress, fortress | sanctuary, sanctuary => true
  | _, _ => false
  end.

(** A live block.  [width] and [height] exist on custom blocks only;
    [labelText] is the text content of the block's label element. *)
Record Block : Type := {
  kind : Kind;
  size : Z;
  left : Q;
  top : Q;
  width : option Z;
  height : option Z;
  labelText : string;
  customLabel : bool;
  immutable : bool
}.

(** [b.width || b.size] *)
Definition orSize (o : option Z) (sz : Z) : Z :=
  match o with
  | Some w => if w =? 0 then sz else w
  | None => sz
  end.

Record state : Type := {
  blocks : list Block;
  paintedSet : set;
  userPaint : set
}.

(** render.js [setWorldSizeCells]: the world is sized to whole cells. *)
Definition setWorldSizeCells (d : Dom) (cols rows : Z) : Dom :=
  let c := cellPx d in
  {| cellVar := cellVar d;
     clientWidth := cols * c;
     clientHeight := rows * c |}.

End State.

(* ================================================================== *)
(** * transform.js                                                     *)
(* ================================================================== *)

Module Transform.
Import JS State.

Definition snapLocal (d : Dom) (left top : Q) (size : Z) : Z * Z :=
  let c := cellPx d in
  let gx := round (left / inject_Z c) * c in
  let gy := round (top / inject_Z c) * c in
  let maxLeft := clientWidth d - size * c in
  let maxTop := clientHeight d - size * c in
  let gx := Z.max 0 (Z.min gx maxLeft) in
  let gy := Z.max 0 (Z.min gy maxTop) in
  (gx, gy).

Definition posToCell (d : Dom) (left top : Q) : Z * Z :=
  let c := cellPx d in
  (round (left / inject_Z c), round (top / inject_Z c)).

Definition pointToCell (d : Dom) (px py : Q) : Z * Z :=
  let c := cellPx d in
  let cx := floor (px / inject_Z c) in
  let cy := floor (py / inject_Z c) in
  let maxCx := ceil (inject_Z (clientWidth d) / inject_Z c) - 1 in
  let maxCy := ceil (inject_Z (clientHeight d) / inject_Z c) - 1 in
  (Z.max 0 (Z.min cx maxCx), Z.max 0 (Z.min cy maxCy)).

Definition keyOf (x y : num) : string :=
  (String_ x ++ "," ++ String_ y)%string.

Definition clamp (v a b : Z) : Z := Z.max a (Z.min b v).

End Transform.

(* ================================================================== *)
(** * painter.js                                                       *)
(* ================================================================== *)

Module Painter.
Import JS State.

Definition KIND_PAINT_RADIUS (k : Kind) : option Z :=
  match k with
  | flag => Some 3
  | hq => Some 7
  | _ => None
  end.

Definition PAINTER_KINDS (k : Kind) : bool :=
  match k with
  | flag | hq => true
  | _ => false
  end.

(** The values [lo, lo+1, ..., hi] a counting [for] loop goes through. *)
Definition range (lo hi : Z) : list Z :=
  map (fun i => lo + Z.of_nat i) (seq 0 (Z.to_nat (hi - lo + 1))).

(** [KIND_PAINT_RADIUS[kind] ?? 0] *)
Definition radiusOf (k : Kind) : Z :=
  match KIND_PAINT_RADIUS k with
  | Some r => r
  | None => 0
  end.

Definition cellsForKindAt (d : Dom) (k : Kind) (centerCx centerCy : Z)
  : list (Z * Z) :=
  let r := radiusOf k in
  let c := cellPx d in
  let maxX := ceil (inject_Z (clientWidth d) / inject_Z c) in
  let maxY := ceil (inject_Z (clientHeight d) / inject_Z c) in
  let minx := Z.max 0 (centerCx - r) in
  let maxx := Z.min (maxX - 1) (centerCx + r) in
  let miny := Z.max 0 (centerCy - r) in
  let maxy := Z.min (maxY - 1) (centerCy + r) in
  flat_map (fun y => map (fun x => (x, y)) (range minx maxx)) (range miny maxy).

Record Box : Type := { minx : Z; miny : Z; maxx : Z; maxy : Z }.

Definition areaBoundingBox (d : Dom) (k : Kind) (centerCx centerCy : Z) : Box :=
  let r := radiusOf k in
  let c := cellPx d in
  let maxX := ceil (inject_Z (clientWidth d) / inject_Z c) in
  let maxY := ceil (inject_Z (clientHeight d) / inject_Z c) in
  {| minx := Z.max 0 (centerCx - r);
     miny := Z.max 0 (centerCy - r);
     maxx := Z.min (maxX - 1) (centerCx + r);
     maxy := Z.min (maxY - 1) (centerCy + r) |}.

End Painter.

(* ================================================================== *)
(** * blocks.js: placement validation                                  *)
(* ================================================================== *)

Module Blocks.
Import JS State Transform.

(** Inner loop [for (x = cx; x < cx + width; x++)] with its [break]:
    [n] iterations remain, the answer is whether a cell was missing. *)
Fixpoint scanRow (painted : set) (y x : Z) (n : nat) : bool :=
  match n with
  | O => false
  | S n' =>
      if negb (has painted (keyOf (Int x) (Int y))) then true
      else scanRow painted y (x + 1) n'
  end.

(** Outer loop [for (y = cy; y < cy + height && !invalid; y++)]. *)
Fixpoint scanRows (painted : set) (cx : Z) (w : nat) (y : Z) (n : nat) : bool :=
  match n with
  | O => false
  | S n' =>
      if scanRow painted y cx w then true
      else scanRows painted cx w (y + 1) n'
  end.

Definition needsValidation (b : Block) : bool :=
  match kind b with
  | city | trap => true
  | _ => false
  end.

(** [b.kind === 'custom' ? b.width || b.size : b.size], and the same
    for the height. *)
Definition widthOf (b : Block) : Z :=
  if Kind_eqb (kind b) custom then orSize (width b) (size b) else size b.
Definition heightOf (b : Block) : Z :=
  if Kind_eqb (kind b) custom then orSize (height b) (size b) else size b.

(** The [invalid] flag the loop body computes for one block. *)
Definition isInvalid (d : Dom) (painted : set) (b : Block) : bool :=
  if needsValidation b then
    let '(cx, cy) := posToCell d (left b) (top b) in
    scanRows painted cx (Z.to_nat (widthOf b)) cy (Z.to_nat (heightOf b))
  else false.

(** [validateAllObjects]: every block is styled with its flag. *)
Definition validateAllObjects (d : Dom) (st : state) : list (Block * bool) :=
  map (fun b => (b, isInvalid d (paintedSet st) b)) (blocks st).

End Blocks.

(* ================================================================== *)
(** * history.js                                                       *)
(* ================================================================== *)

Module History.

Definition HISTORY_LIMIT : Z := 100.

Record HistoryState : Type := {
  stack : list string;
  index : Z
}.

Definition historyState0 : HistoryState := {| stack := []; index := -1 |}.

(** [arr[i]]: [undefined] outside the array. *)
Definition nthZ (l : list string) (i : Z) : option string :=
  if i <? 0 then None else nth_error l (Z.to_nat i).

Definition len (l : list string) : Z := Z.of_nat (List.length l).

(** [arr.slice(0, e)]; a negative [e] counts from the end. *)
Definition slice0 (l : list string) (e : Z) : list string :=
  if e <? 0 then firstn (Z.to_nat (Z.max 0 (len l + e))) l
  else firstn (Z.to_nat e) l.

(** What a call did to the live board. *)
Inductive effect : Type :=
| NoOp
| ApplySerialized (qs : option string).

(** [qs] is what [serializeState()] returns at the time of the call. *)
Definition initHistoryWithCurrent (qs : string) : HistoryState :=
  {| stack := [qs]; index := 0 |}.

(** [qs === cur], where [cur] may be [undefined]. *)
Definition sameAs (qs : string) (cur : option string) : bool :=
  match cur with
  | Some c => String.eqb qs c
  | None => false
  end.

Definition saveCheckpoint (qs : string) (h : HistoryState) : HistoryState :=
  let cur := nthZ (stack h) (index h) in
  if sameAs qs cur then h
  else
    (* drop future states, push *)
    let h1 := {| stack := (slice0 (stack h) (index h + 1) ++ [qs])%list;
                 index := index h |} in
    (* enforce the limit, dropping from the head *)
    let h2 :=
      if HISTORY_LIMIT <? len (stack h1) then
        let drop := len (stack h1) - HISTORY_LIMIT in
        {| stack := skipn (Z.to_nat drop) (stack h1);
           index := Z.max 0 (index h1 - drop) |}
      else h1 in
    {| stack := stack h2; index := len (stack h2) - 1 |}.

Definition canUndo (h : HistoryState) : bool := 0 <? index h.

Definition canRedo (h : HistoryState) : bool := index h <? len (stack h) - 1.

Definition undo (h : HistoryState) : HistoryState * effect :=
  if negb (canUndo h) then (h, NoOp)
  else
    let h' := {| stack := stack h; index := index h - 1 |} in
    (h', ApplySerialized (nthZ (stack h') (index h'))).

Definition redo (h : HistoryState) : HistoryState * effect :=
  if negb (canRedo h) then (h, NoOp)
  else
    let h' := {| stack := stack h; index := index h + 1 |} in
    (h', ApplySerialized (nthZ (stack h') (index h'))).

End History.

(* ================================================================== *)
(** * Browser built-ins used by the codec                              *)
(* ================================================================== *)

Module Url.
Import JS.

Definition hex_char (n : Z) : ascii :=
  if n <? 10 then ascii_of_nat (Z.to_nat (48 + n))
  else ascii_of_nat (Z.to_nat (55 + n)).

Definition hex_value (ch : ascii) : option Z :=
  match digit_value ch with
  | Some d => if d <? 16 then Some d else None
  | None => None
  end.

Definition is_alnum (ch : ascii) : bool :=
  let n := code ch in
  ((48 <=? n) && (n <=? 57)) || ((65 <=? n) && (n <=? 90))
  || ((97 <=? n) && (n <=? 122)).

(** [%XX], upper-case hexadecimal. *)
Definition escape (ch : ascii) (r : string) : string :=
  String "%"%char
    (String (hex_char (code ch / 16)) (String (hex_char (code ch mod 16)) r)).

(** Characters [encodeURIComponent] leaves alone: A-Z a-z 0-9 - _ . ! ~ * ' ( ) *)
Definition uri_unreserved (ch : ascii) : bool :=
  is_alnum ch
  || existsb (Ascii.eqb ch)
       ["-"; "_"; "."; "!"; "~"; "*"; "'"; "("; ")"]%char.

Fixpoint encodeURIComponent (s : string) : string :=
  match s with
  | EmptyString => EmptyString
  | String ch r =>
      if uri_unreserved ch then String ch (encodeURIComponent r)
      else escape ch (encodeURIComponent r)
  end.

(** [decodeURIComponent].  A [%] that does not start an escape is a
    [URIError].  An escaped byte from 0x80 on has to be the first byte of
    a character of two to four bytes, of which the others follow as
    escapes (bytes 10xxxxxx), and the bytes have to be the UTF-8 form of a
    code point; if not, a [URIError]. *)

(** The bytes still to come after a first byte: 110xxxxx, 1110xxxx or
    11110xxx. *)
Definition followers (b : Z) : option nat :=
  if (192 <=? b) && (b <=? 223) then Some 1%nat
  else if (224 <=? b) && (b <=? 239) then Some 2%nat
  else if (240 <=? b) && (b <=? 247) then Some 3%nat
  else None.

Definition utf8_ok (bytes : list Z) : bool :=
  match bytes with
  | [b0; b1] => utf8_2 b0 b1
  | [b0; b1; b2] => utf8_3 b0 b1 b2
  | [b0; b1; b2; b3] => utf8_4 b0 b1 b2 b3
  | _ => false
  end.

Definition byte (b : Z) : ascii := ascii_of_nat (Z.to_nat b).

Fixpoint bytes (l : list Z) (r : string) : string :=
  match l with
  | [] => r
  | b :: l' => String (byte b) (bytes l' r)
  end.

(** [pend] holds the bytes of the character being read, of which [need]
    are still to come. *)
Fixpoint decodeFrom (pend : list Z) (need : nat) (s : string) : result string :=
  match s with
  | EmptyString =>
      match need with
      | O => Ok EmptyString
      | S _ => Throw URIError
      end
  | String ch t =>
      if Ascii.eqb ch "%" then
        match t with
        | String h (String l r) =>
            match hex_value h, hex_value l with
            | Some a, Some b =>
                let B := a * 16 + b in
                match need with
                | O =>
                    if B <? 128 then
                      r' <- decodeFrom [] 0 r ;;
                      Ok (String (byte B) r')
                    else
                      match followers B with
                      | Some n => decodeFrom [B] n r
                      | None => Throw URIError
                      end
                | S k =>
                    if cont B then
                      match k with
                      | O =>
                          if utf8_ok (pend ++ [B]) then
                            r' <- decodeFrom [] 0 r ;;
                            Ok (bytes (pend ++ [B]) r')
                          else Throw URIError
                      | S _ => decodeFrom (pend ++ [B]) k r
                      end
                    else Throw URIError
                end
            | _, _ => Throw URIError
            end
        | _ => Throw URIError
        end
      else
        match need with
        | O =>
            r' <- decodeFrom [] 0 t ;;
            Ok (String ch r')
        | S _ => Throw URIError
        end
  end.

Definition decodeURIComponent (s : string) : result string :=
  decodeFrom [] 0 s.

(** The application/x-www-form-urlencoded byte serializer. *)
Definition form_safe (ch : ascii) : bool :=
  is_alnum ch || existsb (Ascii.eqb ch) ["*"; "-"; "."; "_"]%char.

Fixpoint formEncode (s : string) : string :=
  match s with
  | EmptyString => EmptyString
  | String ch r =>
      if form_safe ch then String ch (formEncode r)
      else if Ascii.eqb ch " " then String "+"%char (formEncode r)
      else escape ch (formEncode r)
  end.

(** Its parser: [+] is a space, a [%] that does not start an escape is
    kept as it is.  (Escaped bytes that are not UTF-8 are kept too, where
    the parser of a browser puts U+FFFD; [formEncode] writes none.) *)
Fixpoint formDecode (s : string) : string :=
  match s with
  | EmptyString => EmptyString
  | String ch t =>
      if Ascii.eqb ch "%" then
        match t with
        | String h (String l r) =>
            match hex_value h, hex_value l with
            | Some a, Some b =>
                String (ascii_of_nat (Z.to_nat (a * 16 + b))) (formDecode r)
            | _, _ => String ch (formDecode t)
            end
        | _ => String ch (formDecode t)
        end
      else if Ascii.eqb ch "+" then String " "%char (formDecode t)
      else String ch (formDecode t)
  end.

(** ** [URLSearchParams] *)

Definition URLSearchParams := list (string * string).

(** [params.set(name, value)] *)
Fixpoint set_ (p : URLSearchParams) (name value : string) : URLSearchParams :=
  match p with
  | [] => [(name, value)]
  | (n, v) :: rest =>
      if String.eqb n name
      then (name, value) :: filter (fun nv => negb (String.eqb (fst nv) name)) rest
      else (n, v) :: set_ rest name value
  end.

(** [params.toString()] *)
Definition paramsToString (p : URLSearchParams) : string :=
  join "&" (map (fun nv => (formEncode (fst nv) ++ "=" ++ formEncode (snd nv))%string) p).

(** One [name=value] piece, cut at its first [=]. *)
Definition parsePair (piece : string) : string * string :=
  match indexOf "=" piece with
  | Some i => (formDecode (sliceTo i piece), formDecode (sliceFrom (S i) piece))
  | None => (formDecode piece, EmptyString)
  end.

(** [new URLSearchParams(qs)] *)
Definition parse (qs : string) : URLSearchParams :=
  let qs := match qs with String "?"%char r => r | _ => qs end in
  map parsePair
    (filter (fun piece => negb (String.eqb piece EmptyString)) (split "&" qs)).

(** [params.get(name)]; [None] is [null]. *)
Fixpoint get (p : URLSearchParams) (name : string) : option string :=
  match p with
  | [] => None
  | (n, v) :: rest => if String.eqb n name then Some v else get rest name
  end.

(** [params.get(name) || dflt] *)
Definition getOr (p : URLSearchParams) (name dflt : string) : string :=
  match get p name with
  | Some EmptyString | None => dflt
  | Some v => v
  end.

End Url.

(* ================================================================== *)
(** * urlState.js                                                      *)
(* ================================================================== *)

Module UrlState.
Import JS State Transform Url.

Definition KIND_TO_CODE (k : Kind) : option ascii :=
  match k with
  | block => Some "B"
  | flag => Some "F"
  | hq => Some "H"
  | city => Some "C"
  | resource => Some "R"
  | trap => Some "T"
  | custom => Some "X"
  | _ => None
  end%char.

(** [CODE_TO_KIND[code]], where [code] is [head[0]], possibly [undefined]. *)
Definition CODE_TO_KIND (c : option ascii) : option Kind :=
  match c with
  | Some "B" => Some block
  | Some "F" => Some flag
  | Some "H" => Some hq
  | Some "C" => Some city
  | Some "R" => Some resource
  | Some "T" => Some trap
  | Some "X" => Some custom
  | _ => None
  end%char.

Definition toB36 (n : num) : string := toString 36 n.
Definition fromB36 (s : option string) : num := parseInt s 36.

(** ** Red paint RLE *)

(** [if (!byY.has(y)) byY.set(y, []); byY.get(y).push(x)] *)
Fixpoint pushAt (byY : list (Z * list Z)) (y x : Z) : list (Z * list Z) :=
  match byY with
  | [] => [(y, [x])]
  | (y', xs) :: rest =>
      if y' =? y then (y', (xs ++ [x])%list) :: rest
      else (y', xs) :: pushAt rest y x
  end.

Fixpoint getRow (byY : list (Z * list Z)) (y : Z) : list Z :=
  match byY with
  | [] => []
  | (y', xs) :: rest => if y' =? y then xs else getRow rest y
  end.

(** A number written with more digits than a safe integer has is taken at
    the integer written; a paint set built by toggling cells and by
    decoding holds none. *)
Definition groupStep (byY : list (Z * list Z)) (k : string) : list (Z * list Z) :=
  let parts := split "," k in
  let x := parseInt (at_ 0 parts) 10 in
  let y := parseInt (at_ 1 parts) 10 in
  match x, y with
  | Int x, Int y | Int x, Huge y | Huge x, Int y | Huge x, Huge y =>
      pushAt byY y x
  | _, _ => byY
  end.

(** [arr.sort((a, b) => a - b)] *)
Fixpoint insertSorted (a : Z) (l : list Z) : list Z :=
  match l with
  | [] => [a]
  | b :: r => if a <=? b then a :: l else b :: insertSorted a r
  end.

Definition sortNum (l : list Z) : list Z := fold_right insertSorted [] l.

(** State of the run loop: the runs pushed so far and [start], [prev]. *)
Definition runStep (st : list (Z * Z) * option (Z * Z)) (x : Z)
  : list (Z * Z) * option (Z * Z) :=
  match st with
  | (runs, None) => (runs, Some (x, x))
  | (runs, Some (start, prev)) =>
      if x =? prev + 1 then (runs, Some (start, x))
      else ((runs ++ [(start, prev)])%list, Some (x, x))
  end.

Definition runsOf (xs : list Z) : list (Z * Z) :=
  match fold_left runStep xs ([], None) with
  | (runs, Some sp) => (runs ++ [sp])%list
  | (runs, None) => runs
  end.

Definition numStr (useBase36 : bool) (n : Z) : string :=
  if useBase36 then toB36 (Int n) else String_ (Int n).

Definition runStr (useBase36 : bool) (ab : Z * Z) : string :=
  let '(a, b) := ab in
  let A := numStr useBase36 a in
  let B := numStr useBase36 b in
  if a =? b then A else (A ++ "-" ++ B)%string.

Definition rowStr (useBase36 : bool) (byY : list (Z * list Z)) (y : Z) : string :=
  let xs := sortNum (getRow byY y) in
  let runs := runsOf xs in
  (numStr useBase36 y ++ ":" ++ join "," (map (runStr useBase36) runs))%string.

Definition encodeRedRLE (userPaintSet : set) (useBase36 : bool) : string :=
  match userPaintSet with
  | [] => EmptyString
  | _ =>
      let byY := fold_left groupStep userPaintSet [] in
      let ys := sortNum (map fst byY) in
      join ";" (map (rowStr useBase36 byY) ys)
  end.

Definition parseNum (useBase36 : bool) (s : option string) : num :=
  if useBase36 then fromB36 s else parseInt s 10.

Definition nonEmpty (s : option string) : bool :=
  match s with
  | Some (String _ _) => true
  | _ => false
  end.

(** A loop over the rows, the runs of a row or the legacy pairs, each
    pushing to [out]. *)
Fixpoint each (f : list string -> string -> result (list string))
    (out : list string) (pieces : list string) : result (list string) :=
  match pieces with
  | [] => Ok out
  | p :: rest =>
      out' <- f out p ;;
      each f out' rest
  end.

(** The loop [for (x = start; x <= end; x++) out.push(...)] of a run
    between two safe integers, where [x++] is exact. *)
Fixpoint pushAll (out : list string) (keys : list string) : result (list string) :=
  match keys with
  | [] => Ok out
  | k :: rest =>
      out' <- push out k ;;
      pushAll out' rest
  end.

Definition runKeys (start end_ y : Z) : list string :=
  map (fun x => keyOf (Int x) (Int y)) (Painter.range start end_).

(** One run of a row: [out] with what it pushes.  [Number.isFinite] holds
    of a safe integer and fails on NaN and the infinities; on an
    approximated number it is not determined, unless the test fails on the
    other end of the run anyway. *)
Definition decodeRun (useBase36 : bool) (y : Z) (out : list string) (r : string)
  : result (list string) :=
  if negb (nonEmpty (Some r)) then Ok out
  else if includes "-" r then
    let parts := split "-" r in
    let a := parseNum useBase36 (at_ 0 parts) in
    let b := parseNum useBase36 (at_ 1 parts) in
    match a, b with
    | Int a, Int b =>
        let start := Z.min a b in
        let end_ := Z.max a b in
        pushAll out (runKeys start end_ y)
    | NaN, _ | Inf _, _ | _, NaN | _, Inf _ => Ok out
    | _, _ => Undetermined
    end
  else
    match parseNum useBase36 (Some r) with
    | Int x => push out (keyOf (Int x) (Int y))
    | NaN | Inf _ => Ok out
    | Huge _ => Undetermined
    end.

Definition decodeRow (useBase36 : bool) (out : list string) (row : string)
  : result (list string) :=
  if negb (nonEmpty (Some row)) then Ok out
  else
    let parts := split ":" row in
    let yStr := at_ 0 parts in
    let runsStr := at_ 1 parts in
    if negb (nonEmpty runsStr) then Ok out
    else
      match parseNum useBase36 yStr with
      | Int y =>
          each (decodeRun useBase36 y) out
            (split "," (match runsStr with Some s => s | None => EmptyString end))
      | NaN | Inf _ => Ok out
      | Huge _ => Undetermined
      end.

(** Legacy ["x,y;..."] entry. *)
Definition decodePair (useBase36 : bool) (out : list string) (p : string)
  : result (list string) :=
  if negb (nonEmpty (Some p)) then Ok out
  else
    let parts := split "," p in
    let x := parseNum useBase36 (at_ 0 parts) in
    let y := parseNum useBase36 (at_ 1 parts) in
    match x, y with
    | Int x, Int y => push out (keyOf (Int x) (Int y))
    | NaN, _ | Inf _, _ | _, NaN | _, Inf _ => Ok out
    | _, _ => Undetermined
    end.

Definition decodeRed (str : string) (useBase36 : bool) : result (list string) :=
  match str with
  | EmptyString => Ok []
  | _ =>
      let isRLE := includes ":" str in
      if isRLE then each (decodeRow useBase36) [] (split ";" str)
      else each (decodePair useBase36) [] (split ";" str)
  end.

(** ** serializeState *)

(** [(labelEl?.textContent || '').trim()] *)
Definition labelOf (b : Block) : string := trim (labelText b).

Definition notEmpty (s : string) : bool := negb (String.eqb s EmptyString).

(** The [~label] suffix, persisted for city and custom blocks only. *)
Definition labelSuffix (b : Block) : string :=
  match kind b with
  | city =>
      let label := labelOf b in
      if notEmpty label
         && negb (String.eqb label "도시") && negb (String.eqb label "City")
      then ("~" ++ encodeURIComponent label)%string
      else EmptyString
  | custom =>
      let label := labelOf b in
      let defaultLabel :=
        (String_ (Int (orSize (width b) (size b))) ++ "×"
           ++ String_ (Int (orSize (height b) (size b))))%string in
      if notEmpty label && negb (String.eqb label defaultLabel)
      then ("~" ++ encodeURIComponent label)%string
      else EmptyString
  | _ => EmptyString
  end.

Definition codeOf (k : Kind) : ascii :=
  match KIND_TO_CODE k with
  | Some c => c
  | None => "B"%char
  end.

Definition tokenOf (d : Dom) (b : Block) : string :=
  let c := cellPx d in
  let cx := round (left b / inject_Z c) in
  let cy := round (top b / inject_Z c) in
  let code := codeOf (kind b) in
  let cx36 := toB36 (Int cx) in
  let cy36 := toB36 (Int cy) in
  let token :=
    if Kind_eqb (kind b) custom then
      let w36 := toB36 (Int (orSize (width b) (size b))) in
      let h36 := toB36 (Int (orSize (height b) (size b))) in
      String code (w36 ++ "x" ++ h36 ++ "@" ++ cx36 ++ "," ++ cy36)
    else
      let size36 := toB36 (Int (size b)) in
      String code (size36 ++ "@" ++ cx36 ++ "," ++ cy36) in
  (token ++ labelSuffix b)%string.

Definition serializeState (d : Dom) (st : state) : string :=
  let bItems :=
    map (tokenOf d) (filter (fun b => negb (immutable b)) (blocks st)) in
  let rRLE := encodeRedRLE (userPaint st) true in
  let params := set_ [] "v" "2" in
  let params := set_ params "b" (join ";" bItems) in
  let params := if notEmpty rRLE then set_ params "r" rRLE else params in
  paramsToString params.

(** ** deserializeState *)

(** A decoded block: [width] and [height] exist on custom blocks only,
    [label] is [undefined] when the token has no [~] part. *)
Record Item : Type := {
  ikind : Kind;
  iwidth : option num;
  iheight : option num;
  isize : num;
  cx : num;
  cy : num;
  label : option string
}.

Record Parsed : Type := {
  pblocks : list Item;
  red : list string;
  ver : string
}.

(** [head[0]] *)
Definition firstChar (s : string) : option ascii :=
  match s with
  | String ch _ => Some ch
  | EmptyString => None
  end.

(** [isV2 ? parseInt(s, 36) : parseInt(s, 10) || dflt] *)
Definition parseField (isV2 : bool) (s : option string) (dflt : Z) : num :=
  if isV2 then parseInt s 36 else orElse (parseInt s 10) dflt.

(** The body of the token loop: [blocks] with what the token pushes.
    [blocks.push] never finds the array full, there being at most
    2^32 - 1 tokens. *)
Definition decodeToken (isV2 : bool) (blocks : list Item) (token : string)
  : result (list Item) :=
  if negb (notEmpty token) then Ok blocks
  else
    match indexOf "@" token with
    | None => Ok blocks
    | Some atIdx =>
        let head := sliceTo atIdx token in
        let tail := sliceFrom (S atIdx) token in
        lt <- match indexOf "~" tail with
              | Some tildeIdx =>
                  l <- decodeURIComponent (sliceFrom (S tildeIdx) tail) ;;
                  Ok (Some l, sliceTo tildeIdx tail)
              | None => Ok (None, tail)
              end ;;
        let '(label, tail) := lt in
        let code := firstChar head in
        let sizeRaw := dropUnit head in
        let parts := split "," tail in
        let cx := parseField isV2 (at_ 0 parts) 0 in
        let cy := parseField isV2 (at_ 1 parts) 0 in
        let kind := match CODE_TO_KIND code with Some k => k | None => block end in
        let kind := if Kind_eqb kind block then custom else kind in
        if Kind_eqb kind custom && includes "x" sizeRaw then
          let wh := split "x" sizeRaw in
          let width := parseField isV2 (at_ 0 wh) 1 in
          let height := parseField isV2 (at_ 1 wh) 1 in
          Ok (blocks ++ [{| ikind := kind; iwidth := Some width;
                            iheight := Some height;
                            isize := JS.max width height;
                            cx := cx; cy := cy; label := label |}])%list
        else
          let size :=
            if isV2 then parseInt (Some sizeRaw) 36
            else orElse (parseInt (Some (if notEmpty sizeRaw then sizeRaw else "1")) 10) 1 in
          if Kind_eqb kind custom then
            Ok (blocks ++ [{| ikind := kind; iwidth := Some size;
                              iheight := Some size; isize := size;
                              cx := cx; cy := cy; label := label |}])%list
          else
            Ok (blocks ++ [{| ikind := kind; iwidth := None; iheight := None;
                              isize := size;
                              cx := cx; cy := cy; label := label |}])%list
    end.

Fixpoint decodeTokens (isV2 : bool) (blocks : list Item) (tokens : list string)
  : result (list Item) :=
  match tokens with
  | [] => Ok blocks
  | token :: rest =>
      blocks' <- decodeToken isV2 blocks token ;;
      decodeTokens isV2 blocks' rest
  end.

Definition deserializeState (qs : string) : result Parsed :=
  let params := parse qs in
  let ver := getOr params "v" "1" in
  let isV2 := String.eqb ver "2" in
  let bstr := getOr params "b" EmptyString in
  blocks <- decodeTokens isV2 [] (split ";" bstr) ;;
  let redParam := getOr params "r" EmptyString in
  red <- decodeRed redParam isV2 ;;
  Ok {| pblocks := blocks; red := red; ver := ver |}.

End UrlState.

(* ================================================================== *)
(** * Vocabulary of the specification                                  *)
(* ================================================================== *)

Module Spec.
Import JS State.

(** Number of cell columns and rows of the world, as the painter and
    [pointToCell] compute them. *)
Definition worldCols (d : Dom) : Z :=
  ceil (inject_Z (clientWidth d) / inject_Z (cellPx d)).
Definition worldRows (d : Dom) : Z :=
  ceil (inject_Z (clientHeight d) / inject_Z (cellPx d)).

(** A 1200 x 1200 world of 48-pixel cells, as [initialLayout] sets it up. *)
Definition sampleDom : Dom :=
  setWorldSizeCells
    {| cellVar := "48px"; clientWidth := 0; clientHeight := 0 |}
    BASE_CELLS_X BASE_CELLS_Y.

(** A square block of the given kind and size whose top-left corner is
    on cell (cx, cy) of [sampleDom]; its label is the given text. *)
Definition blockAt (k : Kind) (sz cx cy : Z) (text : string) (custom_ : bool)
  : Block :=
  {| kind := k; size := sz;
     left := inject_Z (cx * 48); top := inject_Z (cy * 48);
     width := None; height := None;
     labelText := text; customLabel := custom_; immutable := false |}.

(** *** History *)

Import History.

(** The calls a user of history.js can make after initialisation;
    [Save qs] is [saveCheckpoint()] at a moment when the board
    serializes to [qs]. *)
Inductive op : Type :=
| Save (qs : string)
| Undo
| Redo.

Definition step (h : HistoryState) (o : op) : HistoryState * effect :=
  match o with
  | Save qs => (saveCheckpoint qs h, NoOp)
  | Undo => undo h
  | Redo => redo h
  end.

Definition run (ops : list op) (h : HistoryState) : HistoryState :=
  fold_left (fun h o => fst (step h o)) ops h.

Definition checkpoints (l : list string) (h : HistoryState) : HistoryState :=
  fold_left (fun h qs => saveCheckpoint qs h) l h.

(** [n] calls of [undo()]: the final history and what the last call did. *)
Fixpoint undoN (n : nat) (h : HistoryState) : HistoryState * effect :=
  match n with
  | O => (h, NoOp)
  | S O => undo h
  | S n' => undoN n' (fst (undo h))
  end.

(** The history invariant. *)
Definition wellFormed (h : HistoryState) : Prop :=
  stack h <> [] /\ len (stack h) <= HISTORY_LIMIT
  /\ 0 <= index h <= len (stack h) - 1.

(** A call either did nothing or re-applied the snapshot the index now
    points to, which is in the stack. *)
Definition appliesExisting (r : HistoryState * effect) : Prop :=
  match snd r with
  | NoOp => True
  | ApplySerialized (Some qs) =>
      In qs (stack (fst r)) /\ nthZ (stack (fst r)) (index (fst r)) = Some qs
  | ApplySerialized None => False
  end.

(** The last [n] elements. *)
Definition lastn (n : nat) (l : list string) : list string :=
  skipn (List.length l - n) l.

Fixpoint nodupb (l : list string) : bool :=
  match l with
  | [] => true
  | x :: r => negb (JS.has r x) && nodupb r
  end.

(** 105 distinct snapshots, "s1" to "s105". *)
Definition snapshots105 : list string :=
  map (fun n => ("s" ++ String_ (Int n))%string) (Painter.range 1 105).

(** *** Strings *)

(** Every character of the string satisfies [P]. *)
Fixpoint allb (P : ascii -> bool) (s : string) : bool :=
match s with
| EmptyString => true
| String ch r => P ch && allb P r
end.

Definition is_digit36 (ch : ascii) : bool :=
match digit_value ch with
| Some _ => true
| None => false
end.

(** Characters that can occur in the output of [formEncode], resp.
    [encodeURIComponent]. *)
Definition form_out (ch : ascii) : bool :=
Url.form_safe ch || Ascii.eqb ch "+" || Ascii.eqb ch "%".

Definition uri_out (ch : ascii) : bool :=
Url.uri_unreserved ch || Ascii.eqb ch "%".

(** *** Paint *)

(** The key under which a cell is stored in a paint set. *)
Definition cellKey (p : Z * Z) : string :=
Transform.keyOf (Int (fst p)) (Int (snd p)).

(** A cell with non-negative coordinates that are safe integers. *)
Definition safeCell (p : Z * Z) : Prop :=
0 <= fst p <= MAX_SAFE_INTEGER /\ 0 <= snd p <= MAX_SAFE_INTEGER.

(** A paint set as click-toggling builds it: keys of cells with
    non-negative coordinates ([pointToCell] clamps at 0), which are safe
    integers. *)
Definition canonicalPaint (s : JS.set) : Prop :=
Forall (fun k => exists p, safeCell p /\ k = cellKey p) s.

(** [x] lies in one of the runs. *)
Definition covered (runs : list (Z * Z)) (x : Z) : Prop :=
exists a b, In (a, b) runs /\ a <= x <= b.

(** The runs once the pending [start, prev] has been pushed. *)
Definition finish (st : list (Z * Z) * option (Z * Z)) : list (Z * Z) :=
match st with
| (runs, Some sp) => (runs ++ [sp])%list
| (runs, None) => runs
end.

(** The grouping loop on cells instead of keys. *)
Definition groupCells (cells : list (Z * Z)) (byY : list (Z * list Z))
  : list (Z * list Z) :=
fold_left (fun b p => UrlState.pushAt b (snd p) (fst p)) cells byY.

(** Every run is written low end first. *)
Definition runsOk (runs : list (Z * Z)) : Prop :=
Forall (fun ab => fst ab <= snd ab) runs.

(** The keys of the cells of the runs of row [y]. *)
Definition keysOfRuns (y : Z) (runs : list (Z * Z)) : list string :=
flat_map (fun ab => UrlState.runKeys (fst ab) (snd ab) y) runs.

(** The number of cells of the runs. *)
Definition cellsOfRuns (runs : list (Z * Z)) : nat :=
list_sum (map (fun ab => Z.to_nat (snd ab - fst ab + 1)) runs).

(** The text of row [y] with the given runs. *)
Definition rowText (y : Z) (runs : list (Z * Z)) : string :=
(UrlState.numStr true y ++ ":"
   ++ join "," (map (UrlState.runStr true) runs))%string.

(** *** Round trip of the board *)

(** The kinds a user can place; the structural kinds are immutable and
    the legacy kind [block] only comes out of old URLs. *)
Definition paletteKind (k : Kind) : bool :=
match k with
| flag | hq | city | resource | trap | custom => true
| _ => false
end.

(** A block as creation and resizing leave it: a palette kind, and for a
    custom block a width and a height between 1 and 30. *)
Definition validBlock (b : Block) : Prop :=
paletteKind (kind b) = true
/\ (kind b = custom ->
    1 <= orSize (width b) (size b) <= 30
    /\ 1 <= orSize (height b) (size b) <= 30).

(** The numbers that are written for the block, its size and its cell
    position, are safe integers, and its label text is well-formed. *)
Definition safeBlock (d : Dom) (b : Block) : Prop :=
safe (size b) = true
/\ safe (fst (Transform.posToCell d (left b) (top b))) = true
/\ safe (snd (Transform.posToCell d (left b) (top b))) = true
/\ isWellFormed (labelText b) = true.

(** The label that [serializeState] persists: the trimmed label text of a
    city unless it is empty or one of the two stock defaults, of a custom
    block unless it is empty or its "WxH" default, and none for any other
    kind. *)
Definition persistedLabel (b : Block) : option string :=
match kind b with
| city =>
    let l := UrlState.labelOf b in
    if UrlState.notEmpty l
       && negb (String.eqb l "도시") && negb (String.eqb l "City")
    then Some l else None
| custom =>
    let l := UrlState.labelOf b in
    let dflt :=
      (String_ (Int (orSize (width b) (size b))) ++ "×"
         ++ String_ (Int (orSize (height b) (size b))))%string in
    if UrlState.notEmpty l && negb (String.eqb l dflt) then Some l else None
| _ => None
end.

(** What a block is expected to decode to: its kind, its cell position,
    its size (width and height for a custom block) and its persisted
    label. *)
Definition itemOf (d : Dom) (b : Block) : UrlState.Item :=
let cxy := Transform.posToCell d (left b) (top b) in
if Kind_eqb (kind b) custom then
  let w := orSize (width b) (size b) in
  let h := orSize (height b) (size b) in
  {| UrlState.ikind := custom;
     UrlState.iwidth := Some (Int w);
     UrlState.iheight := Some (Int h);
     UrlState.isize := Int (Z.max w h);
     UrlState.cx := Int (fst cxy);
     UrlState.cy := Int (snd cxy);
     UrlState.label := persistedLabel b |}
else
  {| UrlState.ikind := kind b;
     UrlState.iwidth := None;
     UrlState.iheight := None;
     UrlState.isize := Int (size b);
     UrlState.cx := Int (fst cxy);
     UrlState.cy := Int (snd cxy);
     UrlState.label := persistedLabel b |}.

(** The blocks that are serialized. *)
Definition mutableBlocks (st : state) : list Block :=
filter (fun b => negb (immutable b)) (blocks st).

(** The size field and the position field of a block's token. *)
Definition sizeText (b : Block) : string :=
if Kind_eqb (kind b) custom then
  (UrlState.toB36 (Int (orSize (width b) (size b))) ++ "x"
     ++ UrlState.toB36 (Int (orSize (height b) (size b))))%string
else UrlState.toB36 (Int (size b)).

Definition posText (d : Dom) (b : Block) : string :=
(UrlState.toB36 (Int (fst (Transform.posToCell d (left b) (top b)))) ++ ","
   ++ UrlState.toB36 (Int (snd (Transform.posToCell d (left b) (top b)))))%string.

(** A custom block of the given width and height on cell (cx, cy) of
    [sampleDom], with a label the user typed. *)
Definition customAt (w h cx cy : Z) (text : string) : Block :=
{| kind := custom; size := Z.max w h;
   left := inject_Z (cx * 48); top := inject_Z (cy * 48);
   width := Some w; height := Some h;
   labelText := text; customLabel := true; immutable := false |}.

(** *** Tolerant decoding *)






(** [n] digits 9. *)
Fixpoint nines (n : nat) : string :=
match n with
| O => EmptyString
| S k => String "9"%char (nines k)
end.

(** U+00A0, the no-break space. *)
Definition nbsp : string :=
String (ascii_of_nat 194) (String (ascii_of_nat 160) EmptyString).


End Spec.

(* ================================================================== *)
(** * Further vocabulary                                               *)
(* ================================================================== *)

Module Vocab.
Import JS State.

(** A digit of [toString(36)]: 0-9 or a-z. *)
Definition is_lower36 (ch : ascii) : bool :=
((48 <=? code ch) && (code ch <=? 57)) || ((97 <=? code ch) && (code ch <=? 122)).

End Vocab.


(* ================================================================== *)
(** * render.js: the painted set                                       *)
(* ================================================================== *)

Module Render.
Import JS State Transform Painter.

(** The centre cell of a block: its cell origin plus
    [Math.floor(b.size / 2)] on each axis. *)
Definition centerOf (d : Dom) (b : Block) : Z * Z :=
let '(cx, cy) := posToCell d (left b) (top b) in
let centerCx := cx + floor (inject_Z (size b) / (2 # 1)) in
let centerCy := cy + floor (inject_Z (size b) / (2 # 1)) in
(centerCx, centerCy).

(** One round of the block loop of [recomputePaint]. *)
Definition paintBlock (d : Dom) (s : set) (b : Block) : set :=
if negb (PAINTER_KINDS (kind b)) then s
else
  let '(centerCx, centerCy) := centerOf d b in
  fold_left (fun s c => add s (keyOf (Int (fst c)) (Int (snd c))))
    (cellsForKindAt d (kind b) centerCx centerCy) s.

(** [recomputePaint]: the painted set is rebuilt from the blocks. *)
Definition recomputePaint (d : Dom) (st : state) : state :=
{| blocks := blocks st;
   paintedSet := fold_left (paintBlock d) (blocks st) [];
   userPaint := userPaint st |}.

(** The rectangle [renderOutlines] draws for a painter block, in pixels. *)
Record Rect : Type := { rleft : Z; rtop : Z; rwidth : Z; rheight : Z }.

Definition outlineOf (d : Dom) (b : Block) : Rect :=
let '(centerCx, centerCy) := centerOf d b in
let box := areaBoundingBox d (kind b) centerCx centerCy in
let cpx := cellPx d in
{| rleft := minx box * cpx;
   rtop := miny box * cpx;
   rwidth := (maxx box - minx box + 1) * cpx;
   rheight := (maxy box - miny box + 1) * cpx |}.

Definition renderOutlines (d : Dom) (st : state) : list Rect :=
map (outlineOf d) (filter (fun b => PAINTER_KINDS (kind b)) (blocks st)).

End Render.

(* ================================================================== *)
(** * interactions/tileToggle.js                                       *)
(* ================================================================== *)

Module TileToggle.
Import JS State Transform.

(** The click handler of [setupTileToggle] once its guards have let the
    click through; [x], [y] are the local coordinates of the click, as
    [clientToLocalRot] returns them. *)
Definition toggle (d : Dom) (st : state) (x y : Q) : state :=
let '(cx, cy) := pointToCell d x y in
let k := keyOf (Int cx) (Int cy) in
{| blocks := blocks st;
   paintedSet := paintedSet st;
   userPaint := if has (userPaint st) k then delete (userPaint st) k
                else add (userPaint st) k |}.

End TileToggle.

(* ================================================================== *)
(** * interactions/expand.js                                           *)
(* ================================================================== *)

Module Expand.
Import JS State Render.

Definition EXPAND_CELLS : Z := 300.
Definition EXPAND_MARGIN : Z := 300.

(** What [expand] reads from the [#viewport] element. *)
Record Viewport : Type := {
  scrollLeft : Q;
  scrollTop : Q;
  viewWidth : Z;
  viewHeight : Z;
  scrollWidth : Z;
  scrollHeight : Z
}.

(** [expand()]: the document and the state it leaves behind; the first
    argument is [state.AUTO_EXPAND]. *)
Definition expand (AUTO_EXPAND : bool) (v : Viewport) (d : Dom) (st : state)
  : Dom * state :=
if negb AUTO_EXPAND then (d, st)
else
  let nearRight :=
    negb (Qle_bool (scrollLeft v + inject_Z (viewWidth v))
            (inject_Z (scrollWidth v - EXPAND_MARGIN))) in
  let nearBottom :=
    negb (Qle_bool (scrollTop v + inject_Z (viewHeight v))
            (inject_Z (scrollHeight v - EXPAND_MARGIN))) in
  if negb nearRight && negb nearBottom then (d, st)
  else
    let c := cellPx d in
    let curCols := ceil (inject_Z (clientWidth d) / inject_Z c) in
    let curRows := ceil (inject_Z (clientHeight d) / inject_Z c) in
    let newCols := curCols + (if nearRight then EXPAND_CELLS else 0) in
    let newRows := curRows + (if nearBottom then EXPAND_CELLS else 0) in
    if (newCols =? curCols) && (newRows =? curRows) then (d, st)
    else
      let d' := setWorldSizeCells d newCols newRows in
      (d', recomputePaint d' st).

End Expand.

(* ================================================================== *)
(** * counters.js                                                      *)
(* ================================================================== *)

Module Counters.
Import JS State.

(** The kind of a block as the string the code holds. *)
Definition kindName (k : Kind) : string :=
match k with
| block => "block"
| flag => "flag"
| hq => "hq"
| city => "city"
| resource => "resource"
| trap => "trap"
| custom => "custom"
| castle => "castle"
| turret => "turret"
| fortress => "fortress"
| sanctuary => "sanctuary"
end.

Definition keyFor (kind : Kind) (size : Z) : string :=
(kindName kind ++ ":"
   ++ String_ (Int (if Kind_eqb kind block then size else 0)))%string.

(** [Map<string, number>] in insertion order. *)
Definition Counts := list (string * Z).

Fixpoint mget (m : Counts) (key : string) : option Z :=
match m with
| [] => None
| (k, v) :: rest => if String.eqb k key then Some v else mget rest key
end.

Fixpoint mset (m : Counts) (key : string) (v : Z) : Counts :=
match m with
| [] => [(key, v)]
| (k, v0) :: rest =>
    if String.eqb k key then (k, v) :: rest else (k, v0) :: mset rest key v
end.

(** [m.get(key) || 0] *)
Definition getOr0 (m : Counts) (key : string) : Z :=
match mget m key with
| Some n => if n =? 0 then 0 else n
| None => 0
end.

Definition computeCountsFromState (st : state) : Counts :=
fold_left
  (fun m b =>
     let key := keyFor (kind b) (size b) in
     mset m key (getOr0 m key + 1))
  (blocks st) [].

Definition onCreateBlock (b : Block) (counts : Counts) : Counts :=
let key := keyFor (kind b) (size b) in
mset counts key (getOr0 counts key + 1).

Definition onDeleteBlock (b : Block) (counts : Counts) : Counts :=
let key := keyFor (kind b) (size b) in
let next := getOr0 counts key - 1 in
mset counts key (Z.max 0 next).

(** The number [renderPaletteCounts] writes on the palette item of the
    given kind and size: [counts.get(key) ?? 0]. *)
Definition badgeOf (counts : Counts) (kind : Kind) (size : Z) : Z :=
match mget counts (keyFor kind size) with
| Some n => n
| None => 0
end.

End Counters.

Module Vocab2.
Import JS State Painter Render.

(** The cell a key of a paint set stands for in [encodeRedRLE], if both of
    its numbers parse. *)
Definition cellOf (k : string) : option (Z * Z) :=
match parseInt (at_ 0 (split "," k)) 10, parseInt (at_ 1 (split "," k)) 10 with
| Int x, Int y | Int x, Huge y | Huge x, Int y | Huge x, Huge y => Some (x, y)
| _, _ => None
end.

Definition cellsOf (s : JS.set) : list (Z * Z) :=
flat_map (fun k => match cellOf k with Some c => [c] | None => [] end) s.

(** The cells of a list that lie in row [y], as their x coordinates. *)
Definition rowOf (y : Z) (cells : list (Z * Z)) : list Z :=
flat_map (fun p => if snd p =? y then [fst p] else []) cells.

(** Runs written low end first, in ascending order, with a gap of at least
    one cell between a run and the next. *)
Fixpoint separated (runs : list (Z * Z)) : Prop :=
match runs with
| [] => True
| (a, b) :: rest =>
    a <= b
    /\ match rest with [] => True | (a', _) :: _ => b + 1 < a' end
    /\ separated rest
end.

(** The shape of a decoded object: a palette kind, never the legacy kind
    [block]; width and height on custom objects and on no other, the size
    of a custom object being the larger of the two. *)
Definition itemShape (it : UrlState.Item) : Prop :=
Spec.paletteKind (UrlState.ikind it) = true
/\ match UrlState.iwidth it, UrlState.iheight it with
   | Some w, Some h =>
       UrlState.ikind it = custom /\ UrlState.isize it = JS.max w h
   | None, None => UrlState.ikind it <> custom
   | _, _ => False
   end.

(** The two edge tests of [expand]. *)
Definition nearRight (v : Expand.Viewport) : bool :=
negb (Qle_bool (Expand.scrollLeft v + inject_Z (Expand.viewWidth v))
        (inject_Z (Expand.scrollWidth v - Expand.EXPAND_MARGIN))).

Definition nearBottom (v : Expand.Viewport) : bool :=
negb (Qle_bool (Expand.scrollTop v + inject_Z (Expand.viewHeight v))
        (inject_Z (Expand.scrollHeight v - Expand.EXPAND_MARGIN))).

(** A world whose cells have coordinates that are safe integers. *)
Definition safeWorld (d : Dom) : Prop :=
Spec.worldCols d - 1 <= MAX_SAFE_INTEGER
/\ Spec.worldRows d - 1 <= MAX_SAFE_INTEGER.

(** The runs the loop of [encodeRedRLE] ends with when it starts with
    [start], [prev]. *)
Definition runsFrom (start prev : Z) (xs : list Z) : list (Z * Z) :=
Spec.finish (fold_left UrlState.runStep xs ([], Some (start, prev))).

(** The cells a block paints: none unless it is a flag or an HQ. *)
Definition paints (d : Dom) (b : Block) (x y : Z) : Prop :=
PAINTER_KINDS (kind b) = true
/\ In (x, y) (cellsForKindAt d (kind b) (fst (centerOf d b)) (snd (centerOf d b))).

(** [n] calls of [redo()]: the final history and what the last call did. *)
Fixpoint redoN (n : nat) (h : History.HistoryState)
  : History.HistoryState * History.effect :=
match n with
| O => (h, History.NoOp)
| S O => History.redo h
| S n' => redoN n' (fst (History.redo h))
end.

(** The snapshot the index points to. *)
Definition current (h : History.HistoryState) : option string :=
History.nthZ (History.stack h) (History.index h).

End Vocab2.

(* ================================================================== *)
(** * Properties                                                       *)
(* ================================================================== *)

Import Spec.

(** ** Rounding and the cell size *)

Section CellSize.
Import JS State.

Lemma cellPx_pos (d : Dom) : 0 < cellPx d.
Proof.
  unfold cellPx.
  destruct (parseInt (Some (cellVar d)) 10) as [| neg | v | v]; try lia;
    (destruct (0 <? v) eqn:E; [apply Z.ltb_lt in E; lia | lia]).
Qed.

Lemma cellPx_setWorldSizeCells (d : Dom) (cols rows : Z) :
  cellPx (setWorldSizeCells d cols rows) = cellPx d.
Proof. reflexivity. Qed.

Lemma Qfloor_half (k : Z) : Qfloor (inject_Z k + (1 # 2))%Q = k.
Proof.
  unfold Qfloor, inject_Z, Qplus; simpl.
  replace (k * 2 + 1) with (1 + k * 2) by lia.
  rewrite Z.div_add by lia. reflexivity.
Qed.

(** A pixel position on the grid rounds to its own cell. *)
Lemma round_on_grid (k c : Z) :
  0 < c -> round (inject_Z (k * c) / inject_Z c) = k.
Proof.
  intros Hc. unfold round.
  assert (E : (inject_Z (k * c) / inject_Z c == inject_Z k)%Q).
  { rewrite inject_Z_mult. field.
    intros H. unfold Qeq in H; simpl in H. lia. }
  rewrite E. apply Qfloor_half.
Qed.

(** [Math.ceil] of a whole number of cells. *)
Lemma ceil_on_grid (k c : Z) :
  0 < c -> ceil (inject_Z (k * c) / inject_Z c) = k.
Proof.
  intros Hc. unfold ceil.
  assert (E : (inject_Z (k * c) / inject_Z c == inject_Z k)%Q).
  { rewrite inject_Z_mult. field.
    intros H. unfold Qeq in H; simpl in H. lia. }
  rewrite E. apply Qceiling_Z.
Qed.

End CellSize.

(** ** Area painter *)

Section PainterFacts.
Import JS State Painter.

Lemma range_In (lo hi x : Z) : In x (range lo hi) <-> lo <= x <= hi.
Proof.
  unfold range. rewrite in_map_iff. split.
  - intros [i [<- Hi]]. apply in_seq in Hi. lia.
  - intros H. exists (Z.to_nat (x - lo)). split; [lia|].
    apply in_seq. lia.
Qed.

Lemma range_NoDup (lo hi : Z) : NoDup (range lo hi).
Proof.
  unfold range. generalize (Z.to_nat (hi - lo + 1)) as n. intros n.
  generalize 0%nat as s. induction n as [|n IH]; intros s; simpl.
  - constructor.
  - constructor; [|apply IH].
    rewrite in_map_iff. intros [i [E Hi]]. apply in_seq in Hi. lia.
Qed.

Lemma grid_In (x0 x1 y0 y1 x y : Z) :
  In (x, y) (flat_map (fun y => map (fun x => (x, y)) (range x0 x1)) (range y0 y1))
  <-> x0 <= x <= x1 /\ y0 <= y <= y1.
Proof.
  rewrite in_flat_map. split.
  - intros [y' [Hy Hx]]. apply in_map_iff in Hx. destruct Hx as [x' [E Hx]].
    inversion E; subst. apply range_In in Hy. apply range_In in Hx. lia.
  - intros [Hx Hy]. exists y. split; [apply range_In; lia|].
    apply in_map_iff. exists x. split; [reflexivity | apply range_In; lia].
Qed.

Lemma flat_map_NoDup {A B : Type} (f : A -> list B) (l : list A) :
  NoDup l ->
  (forall a, In a l -> NoDup (f a)) ->
  (forall a a' b, In a l -> In a' l -> In b (f a) -> In b (f a') -> a = a') ->
  NoDup (flat_map f l).
Proof.
  induction l as [|a l IH]; intros Hnd Hf Hinj; simpl; [constructor|].
  inversion Hnd as [|? ? Hnin Hnd']; subst.
  apply NoDup_app.
  - apply Hf. now left.
  - apply IH; auto.
    + intros a' Ha'. apply Hf. now right.
    + intros a1 a2 b H1 H2. apply Hinj; now right.
  - intros b Hb Hb'. apply in_flat_map in Hb'. destruct Hb' as [a' [Ha' Hb']].
    assert (a = a') by (apply (Hinj a a' b); auto; [now left | now right]).
    subst. contradiction.
Qed.

Lemma grid_NoDup (x0 x1 y0 y1 : Z) :
  NoDup (flat_map (fun y => map (fun x => (x, y)) (range x0 x1)) (range y0 y1)).
Proof.
  apply flat_map_NoDup.
  - apply range_NoDup.
  - intros y _. apply Injective_map_NoDup; [|apply range_NoDup].
    intros a b E. now inversion E.
  - intros y y' [bx by_] _ _ H1 H2.
    apply in_map_iff in H1. destruct H1 as [? [E1 _]].
    apply in_map_iff in H2. destruct H2 as [? [E2 _]].
    inversion E1; inversion E2; congruence.
Qed.

Lemma range_singleton (lo : Z) : range lo lo = [lo].
Proof.
  unfold range. replace (lo - lo + 1) with 1 by lia. simpl.
  now rewrite Z.add_0_r.
Qed.

Lemma range_empty (lo hi : Z) : hi < lo -> range lo hi = [].
Proof.
  intros H. unfold range. replace (Z.to_nat (hi - lo + 1)) with 0%nat by lia.
  reflexivity.
Qed.

Lemma cellsForKindAt_In (d : Dom) (k : Kind) (cx cy x y : Z) :
  In (x, y) (cellsForKindAt d k cx cy) <->
  (cx - radiusOf k <= x <= cx + radiusOf k
   /\ cy - radiusOf k <= y <= cy + radiusOf k)
  /\ (0 <= x < worldCols d /\ 0 <= y < worldRows d).
Proof.
  unfold cellsForKindAt, worldCols, worldRows. rewrite grid_In. lia.
Qed.

(** C3 (as stated it fails): a kind without a registered radius, such as
    [trap], is painted with radius 0, so its coverage is the centre
    cell and not the empty set. *)
Lemma cellsForKindAt_unregistered_not_empty :
  KIND_PAINT_RADIUS trap = None
  /\ cellsForKindAt sampleDom trap 5 5 = [(5, 5)]
  /\ cellsForKindAt sampleDom trap 5 5 <> [].
Proof.
  split; [reflexivity|]. split; [vm_compute; reflexivity|].
  vm_compute. discriminate.
Qed.

(** C3 (amended): the coverage of a kind at a centre cell is, without
    repetition, exactly the cells of the axis-aligned square of half-width
    R around the centre that lie inside the world's cell bounds, where R is
    the registered radius of the kind and 0 for a kind without one; so a
    kind without a registered radius covers exactly its centre cell when
    that cell is inside the world. *)
Theorem cellsForKindAt_coverage (d : Dom) (k : Kind) (cx cy : Z) :
  let r := match KIND_PAINT_RADIUS k with Some R => R | None => 0 end in
  NoDup (cellsForKindAt d k cx cy)
  /\ (forall x y,
        In (x, y) (cellsForKindAt d k cx cy) <->
        (cx - r <= x <= cx + r /\ cy - r <= y <= cy + r)
        /\ (0 <= x < worldCols d /\ 0 <= y < worldRows d))
  /\ (KIND_PAINT_RADIUS k = None ->
      0 <= cx < worldCols d -> 0 <= cy < worldRows d ->
      cellsForKindAt d k cx cy = [(cx, cy)]).
Proof.
  intros r. split; [apply grid_NoDup|]. split.
  - intros x y. apply cellsForKindAt_In.
  - intros Hk Hx Hy. unfold cellsForKindAt, radiusOf. rewrite Hk.
    unfold worldCols, worldRows in Hx, Hy.
    replace (Z.max 0 (cx - 0)) with cx by lia.
    replace (Z.max 0 (cy - 0)) with cy by lia.
    match goal with |- context [range cx ?m] => replace m with cx by lia end.
    match goal with |- context [range cy ?m] => replace m with cy by lia end.
    rewrite !range_singleton. reflexivity.
Qed.

Lemma cellsForKindAt_coverage_witness :
  cellsForKindAt sampleDom resource 7 9 = [(7, 9)].
Proof.
  apply (cellsForKindAt_coverage sampleDom resource 7 9).
  - reflexivity.
  - vm_compute. split; [discriminate | reflexivity].
  - vm_compute. split; [discriminate | reflexivity].
Defined.

(** C4 (as stated it fails): for a flag centred on cell (0, 0) the box
    starts at (0, 0), not at (0 - 3, 0 - 3). *)
Lemma areaBoundingBox_is_clipped :
  KIND_PAINT_RADIUS flag = Some 3
  /\ areaBoundingBox sampleDom flag 0 0
     = {| minx := 0; miny := 0; maxx := 3; maxy := 3 |}
  /\ areaBoundingBox sampleDom flag 0 0
     <> {| minx := 0 - 3; miny := 0 - 3; maxx := 0 + 3; maxy := 0 + 3 |}.
Proof.
  split; [reflexivity|]. split; [vm_compute; reflexivity|].
  vm_compute. discriminate.
Qed.

(** C4 (amended): the bounding box is the radius-R square clamped to the
    world's cell bounds, min = (max(0, cx - R), max(0, cy - R)) and
    max = (min(cols - 1, cx + R), min(rows - 1, cy + R)); it bounds the
    coverage exactly, and it is the full square (cx - R, cy - R),
    (cx + R, cy + R) whenever that square lies inside the world. *)
Theorem areaBoundingBox_bounds_coverage (d : Dom) (k : Kind) (cx cy : Z) :
  let r := match KIND_PAINT_RADIUS k with Some R => R | None => 0 end in
  let b := areaBoundingBox d k cx cy in
  (minx b = Z.max 0 (cx - r) /\ miny b = Z.max 0 (cy - r)
   /\ maxx b = Z.min (worldCols d - 1) (cx + r)
   /\ maxy b = Z.min (worldRows d - 1) (cy + r))
  /\ (forall x y,
        In (x, y) (cellsForKindAt d k cx cy) <->
        minx b <= x <= maxx b /\ miny b <= y <= maxy b)
  /\ (0 <= cx - r -> cx + r < worldCols d ->
      0 <= cy - r -> cy + r < worldRows d ->
      b = {| minx := cx - r; miny := cy - r; maxx := cx + r; maxy := cy + r |}).
Proof.
  intros r b. split; [|split].
  - repeat split.
  - intros x y. unfold cellsForKindAt. rewrite grid_In. reflexivity.
  - intros H1 H2 H3 H4. unfold b, areaBoundingBox.
    fold (radiusOf k). fold (worldCols d). fold (worldRows d).
    change (radiusOf k) with r.
    f_equal; lia.
Qed.

Lemma areaBoundingBox_bounds_coverage_witness :
  areaBoundingBox sampleDom hq 600 600
  = {| minx := 600 - 7; miny := 600 - 7; maxx := 600 + 7; maxy := 600 + 7 |}.
Proof.
  apply (areaBoundingBox_bounds_coverage sampleDom hq 600 600);
    vm_compute; congruence.
Defined.

End PainterFacts.

(** ** Placement validation *)

Section ValidatorFacts.
Import JS State Transform Blocks.

Lemma scanRow_true (painted : set) (y x : Z) (n : nat) :
  scanRow painted y x n = true <->
  exists x', x <= x' < x + Z.of_nat n
             /\ has painted (keyOf (Int x') (Int y)) = false.
Proof.
  revert x. induction n as [|n IH]; intros x; simpl.
  - split; [discriminate | intros [x' [H _]]; lia].
  - destruct (has painted (keyOf (Int x) (Int y))) eqn:E; simpl.
    + rewrite IH. split.
      * intros [x' [H1 H2]]. exists x'. split; [lia | assumption].
      * intros [x' [H1 H2]]. exists x'. split; [|assumption].
        destruct (Z.eq_dec x' x) as [->|]; [congruence | lia].
    + split; [|reflexivity]. intros _. exists x. split; [lia | assumption].
Qed.

Lemma scanRows_true (painted : set) (cx : Z) (w : nat) (y : Z) (n : nat) :
  scanRows painted cx w y n = true <->
  exists x' y', cx <= x' < cx + Z.of_nat w /\ y <= y' < y + Z.of_nat n
                /\ has painted (keyOf (Int x') (Int y')) = false.
Proof.
  revert y. induction n as [|n IH]; intros y; simpl.
  - split; [discriminate | intros [x' [y' [_ [H _]]]]; lia].
  - destruct (scanRow painted y cx w) eqn:E.
    + split; [|reflexivity]. intros _.
      apply scanRow_true in E. destruct E as [x' [H1 H2]].
      exists x', y. repeat split; try lia; assumption.
    + rewrite IH. split.
      * intros [x' [y' [H1 [H2 H3]]]]. exists x', y'.
        repeat split; try lia; assumption.
      * intros [x' [y' [H1 [H2 H3]]]]. exists x', y'.
        repeat split; try lia; try assumption.
        destruct (Z.eq_dec y' y) as [->|]; [|lia].
        assert (scanRow painted y cx w = true)
          by (apply scanRow_true; exists x'; split; [lia | assumption]).
        congruence.
Qed.

Lemma isInvalid_true (d : Dom) (painted : set) (b : Block) :
  isInvalid d painted b = true <->
  needsValidation b = true
  /\ exists x y,
       fst (posToCell d (left b) (top b)) <= x
         < fst (posToCell d (left b) (top b)) + widthOf b
       /\ snd (posToCell d (left b) (top b)) <= y
         < snd (posToCell d (left b) (top b)) + heightOf b
       /\ has painted (keyOf (Int x) (Int y)) = false.
Proof.
  unfold isInvalid. destruct (needsValidation b).
  - destruct (posToCell d (left b) (top b)) as [cx cy]; simpl.
    rewrite scanRows_true.
    split.
    + intros [x [y [H1 [H2 H3]]]]. split; [reflexivity|].
      exists x, y. repeat split; try lia; assumption.
    + intros [_ [x [y [H1 [H2 H3]]]]].
      exists x, y. repeat split; try lia; assumption.
  - split; [discriminate | intros [H _]; discriminate].
Qed.

Lemma has_true (s : set) (k : string) : has s k = true <-> In k s.
Proof.
  unfold has. rewrite existsb_exists. split.
  - intros [k' [Hin E]]. apply String.eqb_eq in E. now subst.
  - intros H. exists k. split; [assumption | apply String.eqb_refl].
Qed.

Lemma has_add (s : set) (k k' : string) :
  has (add s k) k' = true <-> has s k' = true \/ k' = k.
Proof.
  rewrite !has_true. unfold add. destruct (has s k) eqn:E.
  - apply has_true in E. split; [auto | intros [H | ->]; auto].
  - rewrite in_app_iff. simpl. intuition congruence.
Qed.

Lemma has_delete (s : set) (k k' : string) :
  has (delete s k) k' = true <-> has s k' = true /\ k' <> k.
Proof.
  rewrite !has_true. unfold delete. rewrite filter_In.
  rewrite negb_true_iff, String.eqb_neq. intuition congruence.
Qed.

(** Validity only grows with the painted set. *)
Lemma isInvalid_antitone (d : Dom) (s s' : set) (b : Block) :
  (forall k, has s k = true -> has s' k = true) ->
  isInvalid d s' b = true -> isInvalid d s b = true.
Proof.
  intros Hsub H. apply isInvalid_true in H. apply isInvalid_true.
  destruct H as [Hn [x [y [Hx [Hy Hmiss]]]]].
  split; [assumption|]. exists x, y. repeat split; try lia.
  destruct (has s (keyOf (Int x) (Int y))) eqn:E; [|reflexivity].
  apply Hsub in E. congruence.
Qed.

(** C5: a block of a kind that needs validation (city, trap) is marked
    invalid exactly when some cell of its width x height footprint,
    starting at its cell origin, is missing from the painted set; blocks
    of every other kind are marked valid; and a size-2 block at cell
    (0, 0) with only cell (0, 0) painted is marked invalid. *)
Theorem isInvalid_iff_footprint_cell_missing
    (d : Dom) (painted : set) (b : Block) :
  let cx := fst (posToCell d (left b) (top b)) in
  let cy := snd (posToCell d (left b) (top b)) in
  (needsValidation b = true ->
   (isInvalid d painted b = true <->
    exists x y, cx <= x < cx + widthOf b
                /\ cy <= y < cy + heightOf b
                /\ has painted (keyOf (Int x) (Int y)) = false))
  /\ (needsValidation b = false -> isInvalid d painted b = false)
  /\ In (b, isInvalid d painted b)
       (validateAllObjects d
          {| blocks := [b]; paintedSet := painted; userPaint := [] |})
  /\ isInvalid sampleDom ["0,0"] (blockAt trap 2 0 0 "" false) = true
  /\ isInvalid sampleDom ["0,0"] (blockAt city 2 0 0 "" false) = true.
Proof.
  intros cx cy. split; [|split; [|split; [|split]]].
  - intros Hn. rewrite isInvalid_true. subst cx cy.
    split; [intros [_ H]; exact H | intros H; split; assumption].
  - intros Hn. unfold isInvalid. now rewrite Hn.
  - simpl. now left.
  - vm_compute. reflexivity.
  - vm_compute. reflexivity.
Qed.

Lemma isInvalid_iff_footprint_cell_missing_witness :
  isInvalid sampleDom ["0,0"; "1,0"; "0,1"] (blockAt trap 2 0 0 "" false) = true.
Proof.
  apply (proj1 (isInvalid_iff_footprint_cell_missing sampleDom
                  ["0,0"; "1,0"; "0,1"] (blockAt trap 2 0 0 "" false))
           eq_refl).
  exists 1, 1. vm_compute. repeat split; discriminate.
Defined.

(** C9: adding a cell to the painted set never turns a valid block
    invalid, and removing a cell never turns an invalid block valid. *)
Theorem validity_monotone (d : Dom) (painted : set) (b : Block) (k : string) :
  (isInvalid d painted b = false -> isInvalid d (add painted k) b = false)
  /\ (isInvalid d painted b = true -> isInvalid d (delete painted k) b = true).
Proof.
  split.
  - intros H. destruct (isInvalid d (add painted k) b) eqn:E; [|reflexivity].
    apply isInvalid_antitone with (s := painted) in E; [congruence|].
    intros k' Hk'. apply has_add. now left.
  - apply isInvalid_antitone. intros k' Hk'. now apply has_delete in Hk'.
Qed.

Lemma validity_monotone_witness :
  isInvalid sampleDom
    (add ["0,0"; "1,0"; "0,1"; "1,1"] "2,2") (blockAt trap 2 0 0 "" false) = false
  /\ isInvalid sampleDom
       (delete ["0,0"; "1,0"; "0,1"] "0,0") (blockAt trap 2 0 0 "" false) = true.
Proof.
  split.
  - apply (validity_monotone sampleDom ["0,0"; "1,0"; "0,1"; "1,1"]
             (blockAt trap 2 0 0 "" false) "2,2").
    vm_compute. reflexivity.
  - apply (validity_monotone sampleDom ["0,0"; "1,0"; "0,1"]
             (blockAt trap 2 0 0 "" false) "0,0").
    vm_compute. reflexivity.
Defined.

End ValidatorFacts.

(** ** Undo/redo history *)

Section HistoryFacts.
Import History.

Lemma len_app (l : list string) (q : string) : len (l ++ [q]) = len l + 1.
Proof. unfold len. rewrite length_app. simpl. lia. Qed.

Lemma len_nonneg (l : list string) : 0 <= len l.
Proof. unfold len. lia. Qed.

Lemma nthZ_Some_In (l : list string) (i : Z) (s : string) :
  nthZ l i = Some s -> In s l.
Proof.
  unfold nthZ. destruct (i <? 0); [discriminate|]. apply nth_error_In.
Qed.

Lemma nthZ_in_range (l : list string) (i : Z) :
  0 <= i < len l -> exists s, nthZ l i = Some s.
Proof.
  intros H. unfold nthZ, len in *.
  destruct (i <? 0) eqn:E; [apply Z.ltb_lt in E; lia|].
  destruct (nth_error l (Z.to_nat i)) eqn:N; [eauto|].
  apply nth_error_None in N. lia.
Qed.

Lemma saveCheckpoint_bound (qs : string) (h : HistoryState) :
  len (stack h) <= HISTORY_LIMIT ->
  len (stack (saveCheckpoint qs h)) <= HISTORY_LIMIT.
Proof.
  intros Hb. unfold saveCheckpoint.
  destruct (sameAs qs (nthZ (stack h) (index h))); [assumption|].
  cbv zeta. simpl stack.
  destruct (HISTORY_LIMIT <? _) eqn:E; simpl stack.
  - apply Z.ltb_lt in E. unfold len in *. rewrite length_skipn.
    unfold HISTORY_LIMIT in *. lia.
  - apply Z.ltb_ge in E. assumption.
Qed.

Lemma saveCheckpoint_wellFormed (qs : string) (h : HistoryState) :
  wellFormed h -> wellFormed (saveCheckpoint qs h).
Proof.
  intros [Hne [Hb Hi]]. unfold saveCheckpoint.
  destruct (sameAs qs (nthZ (stack h) (index h))); [repeat split; auto; lia|].
  cbv zeta. simpl stack.
  remember (slice0 (stack h) (index h + 1) ++ [qs])%list as st eqn:Est.
  assert (Hl : 1 <= len st <= HISTORY_LIMIT + 1).
  { subst st. rewrite len_app. unfold slice0.
    destruct (index h + 1 <? 0) eqn:E; [apply Z.ltb_lt in E; lia|].
    unfold len in *. rewrite length_firstn. lia. }
  destruct (HISTORY_LIMIT <? len st) eqn:E; simpl stack.
  - apply Z.ltb_lt in E.
    remember (skipn (Z.to_nat (len st - HISTORY_LIMIT)) st) as st' eqn:Est'.
    assert (Hlen : len st' = HISTORY_LIMIT).
    { subst st'. unfold len in *. rewrite length_skipn.
      unfold HISTORY_LIMIT in *. lia. }
    unfold wellFormed; simpl. rewrite Hlen. unfold HISTORY_LIMIT.
    repeat split; try lia.
    intros Z0. rewrite Z0 in Hlen. unfold len, HISTORY_LIMIT in Hlen.
    simpl in Hlen. lia.
  - apply Z.ltb_ge in E. unfold wellFormed; simpl. repeat split; try lia.
    intros Z0. rewrite Z0 in Hl. unfold len in Hl. simpl in Hl. lia.
Qed.

Lemma undo_wellFormed (h : HistoryState) :
  wellFormed h -> wellFormed (fst (undo h)) /\ appliesExisting (undo h).
Proof.
  intros [Hne [Hb Hi]]. unfold undo, canUndo.
  destruct (0 <? index h) eqn:E; simpl.
  - apply Z.ltb_lt in E. split; [repeat split; simpl; auto; lia|].
    unfold appliesExisting; simpl.
    destruct (nthZ_in_range (stack h) (index h - 1)) as [s Hs]; [lia|].
    rewrite Hs. split; [eapply nthZ_Some_In; eauto | reflexivity].
  - split; [repeat split; auto; lia | exact I].
Qed.

Lemma redo_wellFormed (h : HistoryState) :
  wellFormed h -> wellFormed (fst (redo h)) /\ appliesExisting (redo h).
Proof.
  intros [Hne [Hb Hi]]. unfold redo, canRedo.
  destruct (index h <? len (stack h) - 1) eqn:E; simpl.
  - apply Z.ltb_lt in E. split; [repeat split; simpl; auto; lia|].
    unfold appliesExisting; simpl.
    destruct (nthZ_in_range (stack h) (index h + 1)) as [s Hs]; [lia|].
    rewrite Hs. split; [eapply nthZ_Some_In; eauto | reflexivity].
  - split; [repeat split; auto; lia | exact I].
Qed.

Lemma init_wellFormed (qs : string) : wellFormed (initHistoryWithCurrent qs).
Proof.
  unfold wellFormed, initHistoryWithCurrent, len, HISTORY_LIMIT; simpl.
  repeat split; try lia. discriminate.
Qed.

Lemma step_wellFormed (h : HistoryState) (o : op) :
  wellFormed h -> wellFormed (fst (step h o)).
Proof.
  intros H. destruct o; simpl.
  - now apply saveCheckpoint_wellFormed.
  - now apply undo_wellFormed.
  - now apply redo_wellFormed.
Qed.

Lemma run_wellFormed (ops : list op) (h : HistoryState) :
  wellFormed h -> wellFormed (run ops h).
Proof.
  revert h. induction ops as [|o ops IH]; intros h H; simpl; [assumption|].
  apply IH. now apply step_wellFormed.
Qed.

(** C10: after initialisation, whatever sequence of saveCheckpoint, undo
    and redo calls is made, the stack is non-empty, holds at most 100
    snapshots and the index points into it; so an undo or redo that does
    something re-applies a snapshot that is in the stack. *)
Theorem history_invariant (qs0 : string) (ops : list op) :
  let h := run ops (initHistoryWithCurrent qs0) in
  (stack h <> [] /\ len (stack h) <= 100 /\ 0 <= index h <= len (stack h) - 1)
  /\ appliesExisting (undo h)
  /\ appliesExisting (redo h).
Proof.
  intros h.
  assert (W : wellFormed h) by (apply run_wellFormed, init_wellFormed).
  split; [exact W|]. split.
  - now apply undo_wellFormed.
  - now apply redo_wellFormed.
Qed.

Lemma lastn_app_last (n : nat) (a : list string) (q : string) :
  (1 <= n)%nat -> lastn n (lastn n a ++ [q]) = lastn n (a ++ [q]).
Proof.
  intros Hn. unfold lastn.
  destruct (Nat.le_gt_cases (List.length a) n) as [Hle | Hgt].
  - replace (List.length a - n)%nat with 0%nat by lia. reflexivity.
  - rewrite !length_app, length_skipn. simpl List.length.
    replace (List.length a - (List.length a - n) + 1 - n)%nat with 1%nat by lia.
    replace (List.length a + 1 - n)%nat with (1 + (List.length a - n))%nat by lia.
    rewrite <- skipn_skipn. f_equal.
    rewrite skipn_app.
    replace (List.length a - n - List.length a)%nat with 0%nat by lia.
    reflexivity.
Qed.

Lemma lastn_In (n : nat) (l : list string) (s : string) :
  In s (lastn n l) -> In s l.
Proof.
  unfold lastn. generalize (List.length l - n)%nat as k. intros k.
  revert l. induction k as [|k IH]; intros [|x l]; simpl; auto.
Qed.

Lemma lastn_limit (st : list string) :
  (if HISTORY_LIMIT <? len st
   then skipn (Z.to_nat (len st - HISTORY_LIMIT)) st
   else st) = lastn 100 st.
Proof.
  unfold lastn, len, HISTORY_LIMIT.
  destruct (100 <? Z.of_nat (List.length st)) eqn:E.
  - apply Z.ltb_lt in E. f_equal. lia.
  - apply Z.ltb_ge in E.
    replace (List.length st - 100)%nat with 0%nat by lia. reflexivity.
Qed.

(** Checkpointing a snapshot that is not in the stack, at the top of the
    stack: push, then keep the last 100. *)
Lemma saveCheckpoint_fresh (qs : string) (h : HistoryState) :
  index h = len (stack h) - 1 -> ~ In qs (stack h) ->
  stack (saveCheckpoint qs h) = lastn 100 (stack h ++ [qs])
  /\ index (saveCheckpoint qs h) = len (stack (saveCheckpoint qs h)) - 1.
Proof.
  intros Hi Hnin. unfold saveCheckpoint.
  assert (Hs : sameAs qs (nthZ (stack h) (index h)) = false).
  { destruct (nthZ (stack h) (index h)) as [c|] eqn:N; [|reflexivity].
    simpl. apply String.eqb_neq. intros ->.
    apply nthZ_Some_In in N. contradiction. }
  rewrite Hs. cbv zeta. simpl stack. simpl index.
  assert (Hsl : slice0 (stack h) (index h + 1) = stack h).
  { unfold slice0. pose proof (len_nonneg (stack h)).
    destruct (index h + 1 <? 0) eqn:E; [apply Z.ltb_lt in E; lia|].
    apply firstn_all2. unfold len in *. lia. }
  rewrite Hsl.
  destruct (HISTORY_LIMIT <? len (stack h ++ [qs])) eqn:E; simpl stack.
  - split; [|reflexivity]. rewrite <- lastn_limit, E. reflexivity.
  - split; [|reflexivity]. rewrite <- lastn_limit, E. reflexivity.
Qed.

Lemma checkpoints_distinct (l pre : list string) (h : HistoryState) :
  NoDup (pre ++ l) ->
  stack h = lastn 100 pre -> index h = len (stack h) - 1 ->
  stack (checkpoints l h) = lastn 100 (pre ++ l)
  /\ index (checkpoints l h) = len (stack (checkpoints l h)) - 1.
Proof.
  revert pre h. induction l as [|qs l IH]; intros pre h Hnd Hs Hi; simpl.
  - rewrite app_nil_r. auto.
  - assert (Hnin : ~ In qs (stack h)).
    { rewrite Hs. intros Hin. apply lastn_In in Hin.
      apply NoDup_remove_2 in Hnd. apply Hnd. apply in_or_app. now left. }
    destruct (saveCheckpoint_fresh qs h Hi Hnin) as [Hs' Hi'].
    replace (pre ++ qs :: l)%list with ((pre ++ [qs]) ++ l)%list
      by (rewrite <- app_assoc; reflexivity).
    apply IH.
    + rewrite <- app_assoc. exact Hnd.
    + rewrite Hs', Hs. apply lastn_app_last. lia.
    + exact Hi'.
Qed.

Lemma undoN_steps (n : nat) (h : HistoryState) :
  (1 <= n)%nat -> Z.of_nat n <= index h ->
  undoN n h
  = ({| stack := stack h; index := index h - Z.of_nat n |},
     ApplySerialized (nthZ (stack h) (index h - Z.of_nat n))).
Proof.
  revert h. induction n as [|n IH]; intros h Hn Hi; [lia|].
  assert (Hu : undo h = ({| stack := stack h; index := index h - 1 |},
                         ApplySerialized (nthZ (stack h) (index h - 1)))).
  { unfold undo, canUndo. destruct (0 <? index h) eqn:E; [reflexivity|].
    apply Z.ltb_ge in E. lia. }
  destruct n as [|n].
  - simpl. exact Hu.
  - change (undoN (S (S n)) h) with (undoN (S n) (fst (undo h))).
    rewrite Hu. simpl fst. rewrite IH by (simpl index; lia).
    simpl stack. simpl index.
    replace (index h - 1 - Z.of_nat (S n)) with (index h - Z.of_nat (S (S n)))
      by lia.
    reflexivity.
Qed.

Lemma nodupb_sound (l : list string) : nodupb l = true -> NoDup l.
Proof.
  induction l as [|x l IH]; simpl; [constructor|].
  intros H. apply andb_true_iff in H. destruct H as [H1 H2].
  constructor; [|auto].
  intros Hin. apply negb_true_iff in H1. unfold JS.has in H1.
  assert (existsb (String.eqb x) l = true).
  { apply existsb_exists. exists x. split; [assumption | apply String.eqb_refl]. }
  congruence.
Qed.

(** C6: a checkpoint never lets the stack grow beyond 100 snapshots.
    After initialising with a state and checkpointing 105 further states,
    all distinct, the stack holds exactly 100 snapshots, the last 100
    checkpointed ones; 99 undos bring the index to 0 and re-apply the 6th
    checkpointed state; the initial state and checkpointed states 1 to 5
    are gone; and a further undo does nothing.  Counting the initial
    snapshot as the first pushed state instead: after 104 checkpoints (105
    pushed states) the stack also holds 100 snapshots and 99 undos re-apply
    the 6th pushed state. *)
Theorem history_bound_105 (s0 : string) (l : list string) :
  NoDup (s0 :: l) -> List.length l = 105%nat ->
  let h := checkpoints l (initHistoryWithCurrent s0) in
  let r := undoN 99 h in
  let h' := checkpoints (firstn 104 l) (initHistoryWithCurrent s0) in
  (forall qs h0, len (stack h0) <= 100 -> len (stack (saveCheckpoint qs h0)) <= 100)
  /\ len (stack h) = 100
  /\ stack h = skipn 5 l
  /\ index h = 99
  /\ fst r = {| stack := stack h; index := 0 |}
  /\ snd r = ApplySerialized (nth_error l 5)
  /\ (exists s6, nth_error l 5 = Some s6 /\ s6 <> s0
                 /\ forall i, (i < 5)%nat -> nth_error l i <> Some s6)
  /\ ~ In s0 (stack h)
  /\ (forall i s, (i < 5)%nat -> nth_error l i = Some s -> ~ In s (stack h))
  /\ undo (fst r) = (fst r, NoOp)
  /\ (len (stack h') = 100
      /\ snd (undoN 99 h') = ApplySerialized (nth_error (s0 :: l) 5)).
Proof.
intros Hnd Hlen h r h'.
destruct (checkpoints_distinct l [s0] (initHistoryWithCurrent s0))
  as [Hs Hi]; [exact Hnd | reflexivity | reflexivity |].
fold h in Hs, Hi.
assert (Hst : stack h = skipn 5 l).
{ rewrite Hs. unfold lastn. simpl List.length. rewrite Hlen. reflexivity. }
assert (Hl : len (stack h) = 100).
{ rewrite Hst. unfold len. rewrite length_skipn, Hlen. reflexivity. }
assert (Hr : r = ({| stack := stack h; index := 0 |},
                  ApplySerialized (nth_error l 5))).
{ unfold r. rewrite undoN_steps by (rewrite ?Hi, ?Hl; lia).
  rewrite Hi, Hl.
  replace (100 - 1 - Z.of_nat 99) with 0 by lia.
  unfold nthZ. change (0 <? 0) with false. change (Z.to_nat 0) with 0%nat.
  cbv iota. rewrite Hst at 2. rewrite nth_error_skipn. reflexivity. }
split; [exact saveCheckpoint_bound|].
split; [exact Hl|]. split; [exact Hst|]. split; [lia|].
split; [rewrite Hr; reflexivity|]. split; [rewrite Hr; reflexivity|].
inversion Hnd as [|? ? Hs0 Hndl]; subst.
assert (Hskip : forall i s, (i < 5)%nat -> nth_error l i = Some s ->
                            ~ In s (skipn 5 l)).
{ intros i s Hi5 Hn Hin. apply In_nth_error in Hin. destruct Hin as [j Hj].
  rewrite nth_error_skipn in Hj.
  assert (i = (5 + j)%nat); [|lia].
  apply (proj1 (NoDup_nth_error l) Hndl).
  - apply nth_error_Some. congruence.
  - congruence. }
split.
{ destruct (nth_error l 5) as [s6|] eqn:N6.
  + exists s6. split; [reflexivity|]. split.
    * intros ->. apply Hs0. eapply nth_error_In; eauto.
    * intros i Hi5 Hn. apply (Hskip i s6 Hi5 Hn).
      apply nth_error_In with (n := 0%nat). rewrite nth_error_skipn. exact N6.
  + apply nth_error_None in N6. lia. }
split.
{ rewrite Hst. intros Hin. apply Hs0.
  apply In_nth_error in Hin. destruct Hin as [j Hj].
  rewrite nth_error_skipn in Hj. eapply nth_error_In; eauto. }
split; [intros i s Hi5 Hn; rewrite Hst; now apply (Hskip i s)|].
split; [rewrite Hr; reflexivity|].
(* the other way of counting *)
assert (Hnd' : NoDup ([s0] ++ firstn 104 l)).
{ change ([s0] ++ firstn 104 l)%list with (firstn 105 (s0 :: l)).
  rewrite <- (firstn_skipn 105 (s0 :: l)) in Hnd.
  now apply NoDup_app_remove_r in Hnd. }
destruct (checkpoints_distinct (firstn 104 l) [s0] (initHistoryWithCurrent s0))
  as [Hs' Hi']; [exact Hnd' | reflexivity | reflexivity |].
fold h' in Hs', Hi'.
assert (Hlen' : List.length ([s0] ++ firstn 104 l) = 105%nat).
{ rewrite length_app, length_firstn, Hlen. reflexivity. }
assert (Hst' : stack h' = skipn 5 ([s0] ++ firstn 104 l)).
{ rewrite Hs'. unfold lastn. rewrite Hlen'. reflexivity. }
assert (Hl' : len (stack h') = 100).
{ rewrite Hst'. unfold len. rewrite length_skipn, Hlen'. reflexivity. }
split; [exact Hl'|].
rewrite undoN_steps by (rewrite ?Hi', ?Hl'; lia).
rewrite Hi', Hl'.
replace (100 - 1 - Z.of_nat 99) with 0 by lia.
unfold nthZ. change (0 <? 0) with false. change (Z.to_nat 0) with 0%nat.
cbv iota. cbn [snd]. f_equal. rewrite Hst', nth_error_skipn.
change (nth_error ([s0] ++ firstn 104 l) (5 + 0)) with (nth_error (firstn 104 l) 4).
change (nth_error (s0 :: l) 5) with (nth_error l 4).
rewrite nth_error_firstn. reflexivity.
Qed.

Lemma history_bound_105_witness :
  len (stack (checkpoints snapshots105 (initHistoryWithCurrent "s0"))) = 100
  /\ snd (undoN 99 (checkpoints snapshots105 (initHistoryWithCurrent "s0")))
     = ApplySerialized (Some "s6").
Proof.
assert (H1 : NoDup ("s0" :: snapshots105))
  by (apply nodupb_sound; vm_compute; reflexivity).
assert (H2 : List.length snapshots105 = 105%nat) by (vm_compute; reflexivity).
destruct (history_bound_105 "s0" snapshots105 H1 H2)
  as [_ [Hl [_ [_ [_ [Hr _]]]]]].
split; [exact Hl | exact Hr].
Defined.

End HistoryFacts.

(** ** Grid snapping *)

Section SnapFacts.
Import JS State Transform.

(** Clamping a grid position between 0 and a grid position stays on the
    grid. *)
Lemma clamp_on_grid (r m c : Z) :
  0 < c ->
  Z.max 0 (Z.min (r * c) (m * c)) = Z.max 0 (Z.min r m) * c.
Proof.
  intros Hc.
  destruct (Z.le_gt_cases r m) as [H | H].
  - rewrite (Z.min_l r m) by lia. rewrite (Z.min_l (r * c) (m * c)) by nia.
    destruct (Z.le_gt_cases 0 r) as [H0 | H0].
    + rewrite !Z.max_r by nia. reflexivity.
    + rewrite !Z.max_l by nia. reflexivity.
  - rewrite (Z.min_r r m) by lia. rewrite (Z.min_r (r * c) (m * c)) by nia.
    destruct (Z.le_gt_cases 0 m) as [H0 | H0].
    + rewrite !Z.max_r by nia. reflexivity.
    + rewrite !Z.max_l by nia. reflexivity.
Qed.

Lemma snap_axis_idempotent (r cols size c : Z) :
  0 < c ->
  let g := Z.max 0 (Z.min (r * c) (cols * c - size * c)) in
  Z.max 0 (Z.min (round (inject_Z g / inject_Z c) * c) (cols * c - size * c)) = g.
Proof.
  intros Hc g.
  assert (Hg : g = Z.max 0 (Z.min r (cols - size)) * c).
  { unfold g. replace (cols * c - size * c) with ((cols - size) * c) by ring.
    now apply clamp_on_grid. }
  rewrite Hg at 1. rewrite round_on_grid by assumption.
  rewrite <- Hg. unfold g. lia.
Qed.

(** C8: in a world sized by [setWorldSizeCells], snapping is idempotent:
    snapping the snapped position of any point, for any footprint size,
    gives the snapped position again. *)
Theorem snapLocal_idempotent
    (d : Dom) (cols rows : Z) (left top : Q) (size : Z) :
  let w := setWorldSizeCells d cols rows in
  let p := snapLocal w left top size in
  snapLocal w (inject_Z (fst p)) (inject_Z (snd p)) size = p.
Proof.
  intros w p. unfold p, snapLocal. cbv zeta. simpl fst. simpl snd.
  unfold w. rewrite cellPx_setWorldSizeCells. simpl clientWidth. simpl clientHeight.
  pose proof (cellPx_pos d) as Hc.
  f_equal; apply snap_axis_idempotent; assumption.
Qed.

(** Whole cells matter: in a world 100 pixels wide with 48-pixel cells the
    clamp bound 52 is off the grid, and snapping 90 gives 52, which snaps
    to 48. *)
Remark snapLocal_off_grid_world :
  let w := {| cellVar := "48px"; clientWidth := 100; clientHeight := 100 |} in
  snapLocal w (inject_Z 90) 0 1 = (52, 0)
  /\ snapLocal w (inject_Z 52) 0 1 = (48, 0).
Proof. split; vm_compute; reflexivity. Qed.

End SnapFacts.

(** ** Paint run-length encoding: the worked example *)

Section RleExample.
Import JS UrlState.

(** C7 (as stated it fails): cell (5, 1) lies in row 1, so the encoder
    does not produce the single row [0:0-2,5]; that string decodes to
    (5, 0) instead of (5, 1). *)
Lemma rle_row_string_of_claim_is_wrong :
  encodeRedRLE ["0,0"; "1,0"; "2,0"; "5,1"] true <> "0:0-2,5"
  /\ decodeRed "0:0-2,5" true = Ok ["0,0"; "1,0"; "2,0"; "5,0"].
Proof.
  split; [vm_compute; discriminate | vm_compute; reflexivity].
Qed.

(** C7 (amended): encoding the user paint cells (0,0), (1,0), (2,0),
    (5,1) produces the two rows [0:0-2;1:5], and decoding that string
    yields exactly those four cells. *)
Theorem encodeRedRLE_example :
  encodeRedRLE ["0,0"; "1,0"; "2,0"; "5,1"] true = "0:0-2;1:5"
  /\ decodeRed (encodeRedRLE ["0,0"; "1,0"; "2,0"; "5,1"] true) true
     = Ok ["0,0"; "1,0"; "2,0"; "5,1"].
Proof.
  split; vm_compute; reflexivity.
Qed.

End RleExample.

(** ** Numbers as text *)

Section NumberFacts.
Import JS.

Lemma digit_value_digit_char (d : Z) :
  0 <= d < 36 -> digit_value (digit_char d) = Some d.
Proof.
intros H.
assert (E : forallb (fun d => match digit_value (digit_char d) with
                              | Some d' => d' =? d
                              | None => false
                              end) (Painter.range 0 35) = true)
  by (vm_compute; reflexivity).
rewrite forallb_forall in E. specialize (E d).
destruct (digit_value (digit_char d)) as [d'|].
- f_equal. apply Z.eqb_eq, E, range_In. lia.
- discriminate E. apply range_In. lia.
Qed.

Lemma digit_char_is_digit36 (d : Z) : 0 <= d < 36 -> is_digit36 (digit_char d) = true.
Proof.
intros H. unfold is_digit36. now rewrite digit_value_digit_char.
Qed.

Lemma digits_allb (fuel : nat) (radix n : Z) (acc : string) :
  2 <= radix <= 36 -> 0 <= n ->
  allb is_digit36 acc = true ->
  allb is_digit36 (digits fuel radix n acc) = true.
Proof.
intros Hr. revert n acc. induction fuel as [|f IH]; intros n acc Hn Hacc; simpl.
- destruct (n <? radix) eqn:E; simpl; rewrite Hacc, andb_true_r.
  + apply Z.ltb_lt in E. apply digit_char_is_digit36. lia.
  + apply digit_char_is_digit36. pose proof (Z.mod_pos_bound n radix). lia.
- destruct (n <? radix) eqn:E.
  + simpl. rewrite Hacc, andb_true_r.
    apply Z.ltb_lt in E. apply digit_char_is_digit36. lia.
  + apply IH.
    * apply Z.div_pos; lia.
    * simpl. rewrite Hacc, andb_true_r.
      apply digit_char_is_digit36. pose proof (Z.mod_pos_bound n radix). lia.
Qed.

(** Reading back the digits that [digits] wrote. *)
Lemma parse_digits_digits (fuel : nat) (radix n : Z) (rest : string) :
  2 <= radix <= 36 -> 0 <= n < 2 ^ (Z.of_nat fuel + 1) ->
  parse_digits radix None (digits fuel radix n rest)
  = parse_digits radix (Some n) rest.
Proof.
intros Hr. revert n rest. induction fuel as [|f IH]; intros n rest Hn.
- simpl in Hn. simpl digits.
  assert (E : (n <? radix) = true) by (apply Z.ltb_lt; lia).
  rewrite E. simpl. rewrite digit_value_digit_char by lia.
  apply Z.ltb_lt in E. rewrite (proj2 (Z.ltb_lt n radix) E).
  reflexivity.
- simpl digits. destruct (n <? radix) eqn:E.
  + simpl. apply Z.ltb_lt in E. rewrite digit_value_digit_char by lia.
    rewrite (proj2 (Z.ltb_lt n radix) E). reflexivity.
  + apply Z.ltb_ge in E.
    rewrite IH.
    * simpl. pose proof (Z.mod_pos_bound n radix).
      rewrite digit_value_digit_char by lia.
      rewrite (proj2 (Z.ltb_lt (n mod radix) radix)) by lia.
      do 2 f_equal. rewrite Z.mul_comm. symmetry. apply Z.div_mod. lia.
    * split; [apply Z.div_pos; lia|].
      apply Z.div_lt_upper_bound; [lia|].
      replace (Z.of_nat (S f) + 1) with (Z.succ (Z.of_nat f + 1)) in Hn by lia.
      rewrite Z.pow_succ_r in Hn by lia. nia.
Qed.

Lemma log2_fuel (n : Z) : 0 <= n -> n < 2 ^ (Z.of_nat (Z.to_nat (Z.log2 n)) + 1).
Proof.
intros Hn. rewrite Z2Nat.id by apply Z.log2_nonneg.
destruct (Z.eq_dec n 0) as [->|Hz]; [reflexivity|].
replace (Z.log2 n + 1) with (Z.succ (Z.log2 n)) by lia.
apply Z.log2_spec. lia.
Qed.

Lemma toStringZ_nonneg_allb (radix n : Z) :
  2 <= radix <= 36 -> 0 <= n -> allb is_digit36 (toStringZ radix n) = true.
Proof.
intros Hr Hn. unfold toStringZ.
rewrite (proj2 (Z.ltb_ge n 0)) by lia.
now apply digits_allb.
Qed.

Lemma digits_first (fuel : nat) (radix n : Z) (acc : string) :
  2 <= radix <= 36 -> 0 <= n ->
  exists ch r, digits fuel radix n acc = String ch r /\ is_digit36 ch = true.
Proof.
intros Hr. revert n acc. induction fuel as [|f IH]; intros n acc Hn; simpl.
- destruct (n <? radix) eqn:E; eexists; eexists; split; try reflexivity.
  + apply Z.ltb_lt in E. apply digit_char_is_digit36. lia.
  + apply digit_char_is_digit36. pose proof (Z.mod_pos_bound n radix). lia.
- destruct (n <? radix) eqn:E.
  + eexists; eexists; split; [reflexivity|].
    apply Z.ltb_lt in E. apply digit_char_is_digit36. lia.
  + apply IH. apply Z.div_pos; lia.
Qed.

(** A digit is neither white space nor a sign. *)
Lemma digit36_plain (ch : ascii) :
  is_digit36 ch = true ->
  is_ws ch = false /\ ch <> "-"%char /\ ch <> "+"%char.
Proof.
destruct ch as [[] [] [] [] [] [] [] []]; vm_compute; intros H;
  repeat split; try discriminate; try reflexivity.
Qed.

(** White space is skipped at a white space character only. *)
Lemma trimStart_plain (ch : ascii) (r : string) :
  (code ch <? 128) = true -> is_ws ch = false ->
  trimStart (String ch r) = String ch r.
Proof.
intros Hc Hw. cbn [trimStart]. rewrite Hw.
apply Z.ltb_lt in Hc.
destruct r as [|c1 r1]; [reflexivity|].
assert (E2 : is_ws2 ch c1 = false).
{ unfold is_ws2. destruct (Z.eqb_spec (code ch) 194); [lia | reflexivity]. }
rewrite E2. destruct r1 as [|c2 r2]; [reflexivity|].
assert (E3 : is_ws3 ch c1 c2 = false).
{ unfold is_ws3.
  destruct (Z.eqb_spec (code ch) 225); [lia|].
  destruct (Z.eqb_spec (code ch) 226); [lia|].
  destruct (Z.eqb_spec (code ch) 227); [lia|].
  destruct (Z.eqb_spec (code ch) 239); [lia|]. reflexivity. }
now rewrite E3.
Qed.

Lemma digit36_ascii (ch : ascii) : is_digit36 ch = true -> (code ch <? 128) = true.
Proof.
destruct ch as [[] [] [] [] [] [] [] []]; vm_compute; intros H;
  try discriminate; reflexivity.
Qed.

(** [parseInt(n.toString(radix), radix)] is the number that stands for
    [n]. *)
Lemma parseInt_toStringZ_number (radix n : Z) :
  2 <= radix <= 36 -> parseInt (Some (toStringZ radix n)) radix = number_of n.
Proof.
intros Hr. unfold toStringZ, parseInt.
destruct (n <? 0) eqn:E.
- apply Z.ltb_lt in E.
  set (ds := digits _ _ _ _).
  rewrite (trimStart_plain "-"%char ds) by reflexivity.
  cbv beta iota zeta. unfold ds.
  rewrite parse_digits_digits;
    [| assumption | split; [lia | apply log2_fuel; lia]].
  cbn [parse_digits]. f_equal. lia.
- apply Z.ltb_ge in E.
  destruct (digits_first (Z.to_nat (Z.log2 n)) radix n "" Hr E) as [ch [r [Ed Hd]]].
  pose proof (parse_digits_digits (Z.to_nat (Z.log2 n)) radix n "" Hr
                (conj E (log2_fuel n E))) as P.
  rewrite Ed in *.
  destruct (digit36_plain ch Hd) as [Hws [Hm Hp]].
  rewrite (trimStart_plain ch r (digit36_ascii ch Hd) Hws).
  destruct ch as [[] [] [] [] [] [] [] []]; try congruence;
    cbv beta iota zeta; rewrite P; reflexivity.
Qed.

(** [parseInt(n.toString(radix), radix) = n] for a safe integer. *)
Lemma parseInt_toStringZ (radix n : Z) :
  2 <= radix <= 36 -> safe n = true ->
  parseInt (Some (toStringZ radix n)) radix = Int n.
Proof.
intros Hr Hs. rewrite parseInt_toStringZ_number by assumption.
unfold number_of. now rewrite Hs.
Qed.

Lemma safe_range (n : Z) : 0 <= n <= MAX_SAFE_INTEGER -> safe n = true.
Proof. intros H. unfold safe. apply Z.leb_le. lia. Qed.

End NumberFacts.

(** ** Splitting and joining text *)

Section StringFacts.
Import JS.

Lemma append_assoc (a b c : string) : ((a ++ b) ++ c = a ++ (b ++ c))%string.
Proof. induction a as [|ch a IH]; simpl; [reflexivity | now rewrite IH]. Qed.

Lemma append_nil_r (a : string) : (a ++ "" = a)%string.
Proof. induction a as [|ch a IH]; simpl; [reflexivity | now rewrite IH]. Qed.

Lemma includes_app (c : ascii) (a b : string) :
  includes c (a ++ b) = includes c a || includes c b.
Proof.
induction a as [|ch a IH]; simpl; [reflexivity|].
destruct (Ascii.eqb ch c); [reflexivity | exact IH].
Qed.

Lemma allb_app (P : ascii -> bool) (a b : string) :
  allb P (a ++ b) = allb P a && allb P b.
Proof.
induction a as [|ch a IH]; simpl; [reflexivity|].
now rewrite IH, andb_assoc.
Qed.

Lemma allb_includes (P : ascii -> bool) (c : ascii) (s : string) :
  allb P s = true -> P c = false -> includes c s = false.
Proof.
intros Hs Hc. induction s as [|ch s IH]; simpl; [reflexivity|].
simpl in Hs. apply andb_true_iff in Hs. destruct Hs as [Hch Hs].
destruct (Ascii.eqb ch c) eqn:E; [|auto].
apply Ascii.eqb_eq in E. congruence.
Qed.

Lemma split_nonempty (c : ascii) (s : string) : split c s <> [].
Proof.
destruct s as [|ch s]; simpl; [discriminate|].
destruct (Ascii.eqb ch c); [discriminate|].
destruct (split c s); discriminate.
Qed.

Lemma split_free (c : ascii) (s : string) :
  includes c s = false -> split c s = [s].
Proof.
induction s as [|ch s IH]; simpl; [reflexivity|].
destruct (Ascii.eqb ch c); [discriminate|].
intros H. now rewrite IH.
Qed.

Lemma split_app_sep (c : ascii) (a b : string) :
  includes c a = false ->
  split c (a ++ String c b) = a :: split c b.
Proof.
induction a as [|ch a IH]; simpl.
- intros _. now rewrite Ascii.eqb_refl.
- destruct (Ascii.eqb ch c); [discriminate|].
  intros H. now rewrite IH.
Qed.

Lemma split_join (c : ascii) (l : list string) :
  l <> [] -> Forall (fun s => includes c s = false) l ->
  split c (join c l) = l.
Proof.
induction l as [|a l IH]; intros Hne Hall; [congruence|].
inversion Hall as [|? ? Ha Hl]; subst.
destruct l as [|b l].
- simpl. now apply split_free.
- change (join c (a :: b :: l)) with (a ++ String c (join c (b :: l)))%string.
  rewrite split_app_sep by assumption.
  f_equal. apply IH; [discriminate | assumption].
Qed.

Lemma join_includes (c c' : ascii) (l : list string) :
  c' <> c -> Forall (fun s => includes c' s = false) l ->
  includes c' (join c l) = false.
Proof.
intros Hc. induction l as [|a l IH]; intros Hall; [reflexivity|].
inversion Hall as [|? ? Ha Hl]; subst.
destruct l as [|b l]; [exact Ha|].
change (join c (a :: b :: l)) with (a ++ String c (join c (b :: l)))%string.
rewrite includes_app, Ha. simpl.
destruct (Ascii.eqb c c') eqn:E; [apply Ascii.eqb_eq in E; congruence|].
now apply IH.
Qed.

Lemma indexOf_free (c : ascii) (s : string) :
  includes c s = false -> indexOf c s = None.
Proof.
induction s as [|ch s IH]; simpl; [reflexivity|].
destruct (Ascii.eqb ch c); [discriminate|].
intros H. now rewrite IH.
Qed.

Lemma indexOf_app_sep (c : ascii) (a b : string) :
  includes c a = false ->
  indexOf c (a ++ String c b) = Some (String.length a).
Proof.
induction a as [|ch a IH]; simpl.
- intros _. now rewrite Ascii.eqb_refl.
- destruct (Ascii.eqb ch c); [discriminate|].
  intros H. now rewrite IH.
Qed.

Lemma sliceTo_app (a b : string) : sliceTo (String.length a) (a ++ b) = a.
Proof. induction a as [|ch a IH]; simpl; [now destruct b | now rewrite IH]. Qed.

Lemma sliceFrom_app (a b : string) : sliceFrom (String.length a) (a ++ b) = b.
Proof. induction a as [|ch a IH]; simpl; [reflexivity | exact IH]. Qed.

Lemma sliceFrom_app_sep (c : ascii) (a b : string) :
  sliceFrom (S (String.length a)) (a ++ String c b) = b.
Proof. induction a as [|ch a IH]; simpl; [reflexivity | exact IH]. Qed.

Lemma includes_cons (c ch : ascii) (r : string) :
  includes c (String ch r) = Ascii.eqb ch c || includes c r.
Proof. simpl. now destruct (Ascii.eqb ch c). Qed.

Lemma includes_sep (c ch : ascii) (a b : string) :
  includes c (a ++ String ch b)
  = includes c a || Ascii.eqb ch c || includes c b.
Proof. now rewrite includes_app, includes_cons, orb_assoc. Qed.

Lemma eqb_ne (a b : ascii) : a <> b -> Ascii.eqb a b = false.
Proof. intros H. now apply Ascii.eqb_neq. Qed.

End StringFacts.

(** ** Percent-encoding *)

Section UrlFacts.
Import JS Url.

Ltac each_char ch := destruct ch as [[] [] [] [] [] [] [] []].

Lemma escape_hex (ch : ascii) :
  hex_value (hex_char (code ch / 16)) = Some (code ch / 16)
  /\ hex_value (hex_char (code ch mod 16)) = Some (code ch mod 16)
  /\ ascii_of_nat (Z.to_nat (code ch / 16 * 16 + code ch mod 16)) = ch.
Proof. each_char ch; vm_compute; repeat split; reflexivity. Qed.

Lemma byte_code (ch : ascii) : byte (code ch) = ch.
Proof.
unfold byte, code. rewrite Nat2Z.id. apply ascii_nat_embedding.
Qed.

Lemma code_hex (ch : ascii) : code ch / 16 * 16 + code ch mod 16 = code ch.
Proof. pose proof (Z.div_mod (code ch) 16). lia. Qed.

Lemma escape_out (ch : ascii) :
  form_out (hex_char (code ch / 16)) = true
  /\ form_out (hex_char (code ch mod 16)) = true
  /\ uri_out (hex_char (code ch / 16)) = true
  /\ uri_out (hex_char (code ch mod 16)) = true.
Proof. each_char ch; vm_compute; repeat split; reflexivity. Qed.

Lemma form_safe_plain (ch : ascii) :
  form_safe ch = true ->
  Ascii.eqb ch "%" = false /\ Ascii.eqb ch "+" = false.
Proof. each_char ch; vm_compute; intros H; split; congruence. Qed.

Lemma uri_unreserved_plain (ch : ascii) :
  uri_unreserved ch = true -> Ascii.eqb ch "%" = false.
Proof. each_char ch; vm_compute; intros H; congruence. Qed.

Lemma formDecode_escape (ch : ascii) (r : string) :
  formDecode (escape ch r) = String ch (formDecode r).
Proof.
destruct (escape_hex ch) as [H1 [H2 H3]].
unfold escape. simpl. rewrite H1, H2, H3. reflexivity.
Qed.

Lemma formDecode_formEncode (s : string) : formDecode (formEncode s) = s.
Proof.
induction s as [|ch s IH]; simpl; [reflexivity|].
destruct (form_safe ch) eqn:E.
- destruct (form_safe_plain ch E) as [H1 H2].
  simpl. rewrite H1, H2, IH. reflexivity.
- destruct (Ascii.eqb ch " ") eqn:E2.
  + apply Ascii.eqb_eq in E2. subst. simpl. now rewrite IH.
  + rewrite formDecode_escape, IH. reflexivity.
Qed.

Lemma formEncode_out (s : string) : allb form_out (formEncode s) = true.
Proof.
induction s as [|ch s IH]; simpl; [reflexivity|].
destruct (form_safe ch) eqn:E.
- simpl. rewrite IH. unfold form_out. now rewrite E.
- destruct (Ascii.eqb ch " ").
  + simpl. now rewrite IH.
  + destruct (escape_out ch) as [H1 [H2 _]].
    unfold escape. simpl. now rewrite H1, H2, IH.
Qed.

Lemma formEncode_free (c : ascii) (s : string) :
  form_out c = false -> includes c (formEncode s) = false.
Proof. intros H. eapply allb_includes; [apply formEncode_out | exact H]. Qed.

(** Reading one escape. *)
Lemma decodeFrom_escape (pend : list Z) (need : nat) (ch : ascii) (r : string) :
  decodeFrom pend need (escape ch r)
  = match need with
    | O =>
        if code ch <? 128 then
          r' <- decodeFrom [] 0 r ;;
          Ok (String ch r')
        else
          match followers (code ch) with
          | Some n => decodeFrom [code ch] n r
          | None => Throw URIError
          end
    | S k =>
        if cont (code ch) then
          match k with
          | O =>
              if utf8_ok (pend ++ [code ch]) then
                r' <- decodeFrom [] 0 r ;;
                Ok (bytes (pend ++ [code ch]) r')
              else Throw URIError
          | S _ => decodeFrom (pend ++ [code ch]) k r
          end
        else Throw URIError
    end.
Proof.
destruct (escape_hex ch) as [H1 [H2 _]].
unfold escape. cbn [decodeFrom].
change (Ascii.eqb "%" "%") with true. cbv iota.
rewrite H1, H2. cbv zeta. rewrite code_hex, byte_code. reflexivity.
Qed.

Lemma high_reserved (ch : ascii) :
  (code ch <? 128) = false ->
  uri_unreserved ch = false /\ Ascii.eqb ch "%" = false.
Proof. each_char ch; vm_compute; intros H; split; congruence. Qed.

Lemma encode_high (ch : ascii) (r : string) :
  (code ch <? 128) = false ->
  encodeURIComponent (String ch r) = escape ch (encodeURIComponent r).
Proof.
intros H. cbn [encodeURIComponent].
now rewrite (proj1 (high_reserved ch H)).
Qed.

Lemma cont_high (b : Z) : cont b = true -> (b <? 128) = false.
Proof.
unfold cont. rewrite andb_true_iff, !Z.leb_le. intros H.
apply Z.ltb_ge. lia.
Qed.

Lemma utf8_2_shape (b0 b1 : Z) :
  utf8_2 b0 b1 = true -> followers b0 = Some 1%nat /\ cont b1 = true.
Proof.
unfold utf8_2, followers. rewrite !andb_true_iff, !Z.leb_le.
intros [[H1 H2] H3]. split; [|assumption].
rewrite (proj2 (Z.leb_le 192 b0)), (proj2 (Z.leb_le b0 223)) by lia.
reflexivity.
Qed.

Lemma utf8_3_shape (b0 b1 b2 : Z) :
  utf8_3 b0 b1 b2 = true ->
  followers b0 = Some 2%nat /\ cont b1 = true /\ cont b2 = true.
Proof.
unfold utf8_3, followers, cont.
rewrite !andb_true_iff, !orb_true_iff, !andb_true_iff, !Z.leb_le, !Z.eqb_eq.
intros [H2 H].
assert (R : 224 <= b0 <= 239 /\ 128 <= b1 <= 191) by lia.
destruct R as [R0 R1].
rewrite (proj2 (Z.leb_gt b0 223)) by lia. rewrite andb_false_r.
rewrite (proj2 (Z.leb_le 224 b0)), (proj2 (Z.leb_le b0 239)) by lia.
repeat split; try reflexivity; apply Z.leb_le; lia.
Qed.

Lemma utf8_4_shape (b0 b1 b2 b3 : Z) :
  utf8_4 b0 b1 b2 b3 = true ->
  followers b0 = Some 3%nat
  /\ cont b1 = true /\ cont b2 = true /\ cont b3 = true.
Proof.
unfold utf8_4, followers, cont.
rewrite !andb_true_iff, !orb_true_iff, !andb_true_iff, !Z.leb_le, !Z.eqb_eq.
intros [[H2 H3] H].
assert (R : 240 <= b0 <= 244 /\ 128 <= b1 <= 191) by lia.
destruct R as [R0 R1].
rewrite (proj2 (Z.leb_gt b0 223)) by lia. rewrite andb_false_r.
rewrite (proj2 (Z.leb_gt b0 239)) by lia. rewrite andb_false_r.
rewrite (proj2 (Z.leb_le 240 b0)), (proj2 (Z.leb_le b0 247)) by lia.
repeat split; try reflexivity; apply Z.leb_le; lia.
Qed.

(** [decodeURIComponent(encodeURIComponent(s)) = s] for well-formed text. *)
Lemma decode_encode_bounded (n : nat) (s : string) :
  (String.length s <= n)%nat -> isWellFormed s = true ->
  decodeFrom [] 0 (encodeURIComponent s) = Ok s.
Proof.
revert s. induction n as [|n IH]; intros s Hn Hw.
{ destruct s; [reflexivity | cbn in Hn; lia]. }
destruct s as [|c0 r0]; [reflexivity|].
cbn [String.length] in Hn. cbn [isWellFormed] in Hw.
destruct (code c0 <? 128) eqn:E0.
{ cbn [encodeURIComponent]. destruct (uri_unreserved c0) eqn:Eu.
  - cbn [decodeFrom]. rewrite (uri_unreserved_plain c0 Eu).
    rewrite IH by (assumption || lia). reflexivity.
  - rewrite decodeFrom_escape, E0, IH by (assumption || lia). reflexivity. }
rewrite (encode_high c0 r0 E0), decodeFrom_escape, E0.
destruct r0 as [|c1 r1]; [discriminate|]. cbn [String.length] in Hn.
destruct (utf8_2 (code c0) (code c1)) eqn:U2.
{ destruct (utf8_2_shape _ _ U2) as [F C1].
  rewrite F, (encode_high c1 r1 (cont_high _ C1)), decodeFrom_escape, C1.
  cbn [app utf8_ok]. rewrite U2, IH by (assumption || lia).
  cbn [bind bytes]. now rewrite !byte_code. }
destruct r1 as [|c2 r2]; [discriminate|]. cbn [String.length] in Hn.
destruct (utf8_3 (code c0) (code c1) (code c2)) eqn:U3.
{ destruct (utf8_3_shape _ _ _ U3) as [F [C1 C2]].
  rewrite F, (encode_high c1 _ (cont_high _ C1)), decodeFrom_escape, C1.
  rewrite (encode_high c2 _ (cont_high _ C2)), decodeFrom_escape, C2.
  cbn [app utf8_ok]. rewrite U3, IH by (assumption || lia).
  cbn [bind bytes]. now rewrite !byte_code. }
destruct r2 as [|c3 r3]; [discriminate|]. cbn [String.length] in Hn.
apply andb_prop in Hw. destruct Hw as [U4 Hw].
destruct (utf8_4_shape _ _ _ _ U4) as [F [C1 [C2 C3]]].
rewrite F, (encode_high c1 _ (cont_high _ C1)), decodeFrom_escape, C1.
rewrite (encode_high c2 _ (cont_high _ C2)), decodeFrom_escape, C2.
rewrite (encode_high c3 _ (cont_high _ C3)), decodeFrom_escape, C3.
cbn [app utf8_ok]. rewrite U4, IH by (assumption || lia).
cbn [bind bytes]. now rewrite !byte_code.
Qed.

Lemma decode_encode_URIComponent (s : string) :
  isWellFormed s = true ->
  decodeURIComponent (encodeURIComponent s) = Ok s.
Proof. apply (decode_encode_bounded (String.length s)). lia. Qed.

Lemma encodeURIComponent_out (s : string) :
  allb uri_out (encodeURIComponent s) = true.
Proof.
induction s as [|ch s IH]; simpl; [reflexivity|].
destruct (uri_unreserved ch) eqn:E.
- simpl. rewrite IH. unfold uri_out. now rewrite E.
- destruct (escape_out ch) as [_ [_ [H1 H2]]].
  unfold escape. simpl. now rewrite H1, H2, IH.
Qed.

Lemma encodeURIComponent_free (c : ascii) (s : string) :
  uri_out c = false -> includes c (encodeURIComponent s) = false.
Proof. intros H. eapply allb_includes; [apply encodeURIComponent_out | exact H]. Qed.

(** One [name=value] piece of a serialized query string parses back. *)
Lemma parsePair_encoded (name value : string) :
  parsePair (formEncode name ++ "=" ++ formEncode value) = (name, value).
Proof.
unfold parsePair.
change (formEncode name ++ "=" ++ formEncode value)%string
  with (formEncode name ++ String "="%char (formEncode value))%string.
rewrite indexOf_app_sep by (apply formEncode_free; reflexivity).
rewrite sliceTo_app, sliceFrom_app_sep, !formDecode_formEncode.
reflexivity.
Qed.

Lemma piece_free_amp (name value : string) :
  includes "&" (formEncode name ++ "=" ++ formEncode value) = false.
Proof.
rewrite !includes_app. simpl.
rewrite !formEncode_free by reflexivity. reflexivity.
Qed.

Lemma piece_nonempty (name value : string) :
  String.eqb (formEncode name ++ "=" ++ formEncode value) "" = false.
Proof.
apply String.eqb_neq. destruct (formEncode name); discriminate.
Qed.

(** [new URLSearchParams(params.toString())] has the entries of [params],
    provided its first name does not start with [?]. *)
Lemma parse_paramsToString (p : URLSearchParams) :
  p <> [] ->
  (forall r, paramsToString p <> String "?"%char r) ->
  parse (paramsToString p) = p.
Proof.
intros Hne Hq. unfold parse.
assert (E : match paramsToString p with
            | String "?"%char r => r
            | _ => paramsToString p
            end = paramsToString p).
{ destruct (paramsToString p) as [|ch r] eqn:Ep; [reflexivity|].
  destruct (Ascii.eqb ch "?") eqn:Ec.
  - apply Ascii.eqb_eq in Ec. subst. exfalso. now apply (Hq r).
  - each_char ch; try reflexivity. discriminate Ec. }
rewrite E. unfold paramsToString.
rewrite split_join.
- clear Hne Hq E. induction p as [|[n v] p IH]; [reflexivity|].
  cbn [map filter fst snd]. rewrite piece_nonempty.
  cbn [negb map]. rewrite parsePair_encoded. now rewrite IH.
- destruct p; [congruence | discriminate].
- clear. induction p as [|[n v] p IH]; constructor; [apply piece_free_amp | exact IH].
Qed.

End UrlFacts.

(** ** White space and well-formed text *)

Section TextFacts.
Import JS.

Ltac bool_to_prop :=
  repeat (rewrite ?andb_true_iff, ?orb_true_iff, ?Z.leb_le, ?Z.eqb_eq,
            ?Z.ltb_lt in *).

Lemma is_ws_low (c : ascii) : is_ws c = true -> (code c <? 128) = true.
Proof. unfold is_ws. bool_to_prop. lia. Qed.

Lemma is_ws2_utf8 (c0 c1 : ascii) :
  is_ws2 c0 c1 = true ->
  (code c0 <? 128) = false /\ utf8_2 (code c0) (code c1) = true.
Proof.
unfold is_ws2, utf8_2, cont. bool_to_prop. intros H.
split; [apply Z.ltb_ge; lia | lia].
Qed.

Lemma is_ws3_utf8 (c0 c1 c2 : ascii) :
  is_ws3 c0 c1 c2 = true ->
  (code c0 <? 128) = false
  /\ utf8_2 (code c0) (code c1) = false
  /\ utf8_3 (code c0) (code c1) (code c2) = true.
Proof.
unfold is_ws3, utf8_2, utf8_3, cont. cbv zeta. intros H.
assert (R : 225 <= code c0 <= 239) by (revert H; bool_to_prop; lia).
split; [apply Z.ltb_ge; lia|]. split.
- rewrite (proj2 (Z.leb_gt (code c0) 223)) by lia.
  now rewrite andb_false_r.
- revert H. bool_to_prop. lia.
Qed.

Lemma trimStart_wellFormed_bounded (n : nat) (s : string) :
  (String.length s <= n)%nat ->
  isWellFormed s = true -> isWellFormed (trimStart s) = true.
Proof.
revert s. induction n as [|n IH]; intros s Hn Hw.
{ destruct s; [reflexivity | cbn in Hn; lia]. }
destruct s as [|c0 r0]; [reflexivity|].
cbn [String.length] in Hn. cbn [trimStart].
destruct (is_ws c0) eqn:W1.
{ apply IH; [lia|]. cbn [isWellFormed] in Hw.
  now rewrite (is_ws_low c0 W1) in Hw. }
destruct r0 as [|c1 r1]; [exact Hw|]. cbn [String.length] in Hn.
destruct (is_ws2 c0 c1) eqn:W2.
{ apply IH; [lia|]. cbn [isWellFormed] in Hw.
  destruct (is_ws2_utf8 c0 c1 W2) as [E0 U2]. now rewrite E0, U2 in Hw. }
destruct r1 as [|c2 r2]; [exact Hw|]. cbn [String.length] in Hn.
destruct (is_ws3 c0 c1 c2) eqn:W3; [|exact Hw].
apply IH; [lia|]. cbn [isWellFormed] in Hw.
destruct (is_ws3_utf8 c0 c1 c2 W3) as [E0 [U2 U3]]. now rewrite E0, U2, U3 in Hw.
Qed.

Lemma trimStart_wellFormed (s : string) :
  isWellFormed s = true -> isWellFormed (trimStart s) = true.
Proof. apply (trimStart_wellFormed_bounded (String.length s)). lia. Qed.

(** A byte inside a character begins no white space. *)
Lemma trimEnd_cont (c : ascii) (r : string) :
  cont (code c) = true -> trimEnd (String c r) = String c (trimEnd r).
Proof.
intros Hc. unfold cont in Hc. revert Hc. bool_to_prop. intros Hc.
assert (E : trimStart (String c r) = String c r).
{ cbn [trimStart].
  assert (W1 : is_ws c = false).
  { unfold is_ws. cbv zeta.
    rewrite (proj2 (Z.leb_gt (code c) 13)) by lia.
    rewrite andb_false_r. cbn [orb]. apply Z.eqb_neq. lia. }
  rewrite W1. destruct r as [|c1 r1]; [reflexivity|].
  assert (W2 : is_ws2 c c1 = false).
  { unfold is_ws2. destruct (Z.eqb_spec (code c) 194); [lia | reflexivity]. }
  rewrite W2. destruct r1 as [|c2 r2]; [reflexivity|].
  assert (W3 : is_ws3 c c1 c2 = false).
  { unfold is_ws3. cbv zeta.
    destruct (Z.eqb_spec (code c) 225); [lia|].
    destruct (Z.eqb_spec (code c) 226); [lia|].
    destruct (Z.eqb_spec (code c) 227); [lia|].
    destruct (Z.eqb_spec (code c) 239); [lia|]. reflexivity. }
  now rewrite W3. }
cbn [trimEnd]. unfold blank. now rewrite E.
Qed.

Lemma trimEnd_step (c : ascii) (r : string) :
  trimEnd (String c r) = EmptyString
  \/ trimEnd (String c r) = String c (trimEnd r).
Proof. cbn [trimEnd]. destruct (blank (String c r)); auto. Qed.

Lemma trimEnd_wellFormed_bounded (n : nat) (s : string) :
  (String.length s <= n)%nat ->
  isWellFormed s = true -> isWellFormed (trimEnd s) = true.
Proof.
revert s. induction n as [|n IH]; intros s Hn Hw.
{ destruct s; [reflexivity | cbn in Hn; lia]. }
destruct s as [|c0 r0]; [reflexivity|].
cbn [String.length] in Hn.
destruct (trimEnd_step c0 r0) as [E | E]; rewrite E; [reflexivity|].
clear E. cbn [isWellFormed] in Hw |- *.
destruct (code c0 <? 128) eqn:E0; [apply IH; [lia | assumption]|].
destruct r0 as [|c1 r1]; [discriminate|]. cbn [String.length] in Hn.
destruct (utf8_2 (code c0) (code c1)) eqn:U2.
{ destruct (utf8_2_shape _ _ U2) as [_ C1].
  rewrite (trimEnd_cont c1 r1 C1), U2. apply IH; [lia | assumption]. }
destruct r1 as [|c2 r2]; [discriminate|]. cbn [String.length] in Hn.
destruct (utf8_3 (code c0) (code c1) (code c2)) eqn:U3.
{ destruct (utf8_3_shape _ _ _ U3) as [_ [C1 C2]].
  rewrite (trimEnd_cont c1 _ C1), (trimEnd_cont c2 _ C2), U2, U3.
  apply IH; [lia | assumption]. }
destruct r2 as [|c3 r3]; [discriminate|]. cbn [String.length] in Hn.
apply andb_prop in Hw. destruct Hw as [U4 Hw].
destruct (utf8_4_shape _ _ _ _ U4) as [_ [C1 [C2 C3]]].
rewrite (trimEnd_cont c1 _ C1), (trimEnd_cont c2 _ C2), (trimEnd_cont c3 _ C3).
rewrite U2, U3, U4. cbn [andb]. apply IH; [lia | assumption].
Qed.

(** Trimming well-formed text leaves well-formed text. *)
Lemma trim_wellFormed (s : string) :
  isWellFormed s = true -> isWellFormed (trim s) = true.
Proof.
intros H. unfold trim.
apply (trimEnd_wellFormed_bounded (String.length (trimStart s))); [lia|].
now apply trimStart_wellFormed.
Qed.

(** White space outside ASCII is trimmed, and skipped by [parseInt]:
    U+00A0, U+3000, U+FEFF and U+2028 here. *)
Remark trim_examples :
  trim (nbsp ++ "Harbour" ++ nbsp) = "Harbour"
  /\ trim (" " ++ nbsp ++ "a" ++ nbsp ++ "b"
           ++ String (ascii_of_nat 227) (String (ascii_of_nat 128)
                (String (ascii_of_nat 128) nbsp))) = ("a" ++ nbsp ++ "b")%string
  /\ trim (String (ascii_of_nat 239) (String (ascii_of_nat 187)
             (String (ascii_of_nat 191) "City"))) = "City"
  /\ trim (nbsp ++ String (ascii_of_nat 226) (String (ascii_of_nat 128)
             (String (ascii_of_nat 168) ""))) = ""
  /\ parseInt (Some (nbsp ++ " 12px")) 10 = Int 12.
Proof. repeat split; vm_compute; reflexivity. Qed.

(** [slice(1)] after a character of one byte. *)
Lemma dropUnit_low (c : ascii) (r : string) :
  (code c <? 128) = true -> dropUnit (String c r) = r.
Proof.
intros Hc. apply Z.ltb_lt in Hc. cbn [dropUnit].
destruct r as [|c1 r1]; [reflexivity|].
assert (U2 : utf8_2 (code c) (code c1) = false).
{ unfold utf8_2. rewrite (proj2 (Z.leb_gt 194 (code c))) by lia. reflexivity. }
rewrite U2. destruct r1 as [|c2 r2]; [reflexivity|].
assert (U3 : utf8_3 (code c) (code c1) (code c2) = false).
{ unfold utf8_3.
  destruct (Z.eqb_spec (code c) 224); [lia|].
  destruct (Z.eqb_spec (code c) 237); [lia|].
  rewrite (proj2 (Z.leb_gt 225 (code c))) by lia.
  rewrite (proj2 (Z.leb_gt 238 (code c))) by lia.
  cbn [andb orb]. now rewrite andb_false_r. }
now rewrite U3.
Qed.

End TextFacts.


(** ** Paint run-length encoding *)

Section PaintCodec.
Import JS Transform UrlState.

Lemma toB36_free (c : ascii) (n : Z) :
  0 <= n -> is_digit36 c = false -> includes c (toB36 (Int n)) = false.
Proof.
intros Hn Hc. eapply allb_includes; [|exact Hc].
apply toStringZ_nonneg_allb; [lia | assumption].
Qed.

Lemma String_free (c : ascii) (n : Z) :
  0 <= n -> is_digit36 c = false -> includes c (String_ (Int n)) = false.
Proof.
intros Hn Hc. eapply allb_includes; [|exact Hc].
apply toStringZ_nonneg_allb; [lia | assumption].
Qed.

Lemma toStringZ_nonempty (radix n : Z) :
  2 <= radix <= 36 -> exists ch r, toStringZ radix n = String ch r.
Proof.
intros Hr. unfold toStringZ. destruct (n <? 0) eqn:E; [eauto|].
apply Z.ltb_ge in E.
destruct (digits_first (Z.to_nat (Z.log2 n)) radix n "" Hr E) as [ch [r [Ed _]]].
eauto.
Qed.

(** *** Grouping by row *)

Lemma groupStep_cellKey (byY : list (Z * list Z)) (x y : Z) :
  safeCell (x, y) ->
  groupStep byY (cellKey (x, y)) = pushAt byY y x.
Proof.
intros [Hx Hy]. cbn [fst snd] in Hx, Hy.
unfold groupStep, cellKey, keyOf. cbn [fst snd].
change (String_ (Int x) ++ "," ++ String_ (Int y))%string
  with (String_ (Int x) ++ String ","%char (String_ (Int y)))%string.
rewrite split_app_sep by (apply String_free; [lia | reflexivity]).
rewrite split_free by (apply String_free; [lia | reflexivity]).
unfold at_. cbn [nth_error].
unfold String_, toString.
rewrite !parseInt_toStringZ by (try lia; now apply safe_range).
reflexivity.
Qed.

Lemma groupStep_fold (cells : list (Z * Z)) (byY : list (Z * list Z)) :
  Forall safeCell cells ->
  fold_left groupStep (map cellKey cells) byY = groupCells cells byY.
Proof.
revert byY. induction cells as [|[x y] cells IH]; intros byY Hall; [reflexivity|].
inversion Hall as [|? ? Hxy Hrest]; subst.
unfold groupCells. cbn [map fold_left fst snd].
rewrite groupStep_cellKey by assumption.
now apply IH.
Qed.

Lemma getRow_pushAt (byY : list (Z * list Z)) (y x y' : Z) :
  getRow (pushAt byY y x) y'
  = if y' =? y then (getRow byY y ++ [x])%list else getRow byY y'.
Proof.
induction byY as [|[y0 xs] byY IH]; simpl.
- destruct (Z.eqb_spec y y'), (Z.eqb_spec y' y); congruence.
- destruct (Z.eqb_spec y0 y); simpl.
  + subst y0. destruct (Z.eqb_spec y y'), (Z.eqb_spec y' y); congruence.
  + destruct (Z.eqb_spec y0 y'); [|exact IH].
    subst y0. destruct (Z.eqb_spec y' y); congruence.
Qed.

Lemma keys_pushAt (byY : list (Z * list Z)) (y x y' : Z) :
  In y' (map fst (pushAt byY y x)) <-> In y' (map fst byY) \/ y' = y.
Proof.
induction byY as [|[y0 xs] byY IH]; simpl.
- intuition.
- destruct (y0 =? y) eqn:E0; simpl.
  + apply Z.eqb_eq in E0. subst y0. intuition.
  + rewrite IH. intuition.
Qed.

Lemma groupCells_row (cells : list (Z * Z)) (byY : list (Z * list Z)) (x y : Z) :
  In x (getRow (groupCells cells byY) y) <-> In x (getRow byY y) \/ In (x, y) cells.
Proof.
revert byY. induction cells as [|[x0 y0] cells IH]; intros byY; simpl.
- intuition.
- unfold groupCells in *. simpl. rewrite IH, getRow_pushAt.
  destruct (Z.eqb_spec y y0).
  + subst y0. rewrite in_app_iff. simpl.
    split.
    * intros [[H | [H | []]] | H]; auto. right. left. congruence.
    * intros [H | [H | H]]; auto. inversion H; subst. auto.
  + split.
    * intros [H | H]; auto.
    * intros [H | [H | H]]; auto. inversion H; subst. congruence.
Qed.

Lemma groupCells_keys (cells : list (Z * Z)) (byY : list (Z * list Z)) (y : Z) :
  In y (map fst (groupCells cells byY))
  <-> In y (map fst byY) \/ exists x, In (x, y) cells.
Proof.
revert byY. induction cells as [|[x0 y0] cells IH]; intros byY; simpl.
- split; [auto | intros [H | [x []]]; exact H].
- unfold groupCells in *. simpl. rewrite IH, keys_pushAt. split.
  + intros [[H | ->] | [x H]]; eauto.
  + intros [H | [x [H | H]]]; eauto.
    inversion H; subst. auto.
Qed.

(** *** Sorting *)

Lemma insertSorted_In (a b : Z) (l : list Z) :
  In a (insertSorted b l) <-> a = b \/ In a l.
Proof.
induction l as [|c l IH]; simpl; [intuition|].
destruct (b <=? c); simpl; [intuition | rewrite IH; intuition].
Qed.

Lemma sortNum_In (a : Z) (l : list Z) : In a (sortNum l) <-> In a l.
Proof.
induction l as [|b l IH]; simpl; [reflexivity|].
rewrite insertSorted_In, IH. intuition.
Qed.

Lemma insertSorted_sorted (b : Z) (l : list Z) :
  Sorted Z.le l -> Sorted Z.le (insertSorted b l).
Proof.
induction l as [|c l IH]; intros Hs; simpl; [repeat constructor|].
destruct (b <=? c) eqn:E.
- apply Z.leb_le in E. constructor; [assumption | now constructor].
- apply Z.leb_gt in E. inversion Hs as [|? ? Hs' Hhd]; subst.
  constructor; [auto|].
  destruct l as [|e l]; simpl.
  + constructor. lia.
  + destruct (b <=? e) eqn:E2; constructor; [lia|].
    inversion Hhd; subst. assumption.
Qed.

Lemma sortNum_sorted (l : list Z) : Sorted Z.le (sortNum l).
Proof.
induction l as [|b l IH]; simpl; [constructor | now apply insertSorted_sorted].
Qed.

(** *** Runs *)

Lemma covered_app (r1 r2 : list (Z * Z)) (x : Z) :
  covered (r1 ++ r2) x <-> covered r1 x \/ covered r2 x.
Proof.
unfold covered. split.
- intros [a [b [Hin H]]]. apply in_app_or in Hin. destruct Hin; eauto.
- intros [[a [b [Hin H]]] | [a [b [Hin H]]]]; exists a, b;
    (split; [apply in_or_app; auto | assumption]).
Qed.

Lemma covered_single (a b x : Z) : covered [(a, b)] x <-> a <= x <= b.
Proof.
unfold covered. split.
- intros [a' [b' [[E | []] H]]]. now inversion E; subst.
- intros H. exists a, b. split; [now left | assumption].
Qed.

Lemma runStep_fold (xs : list Z) (st : list (Z * Z) * option (Z * Z)) :
  runsOk (finish st) ->
  runsOk (finish (fold_left runStep xs st))
  /\ forall x, covered (finish (fold_left runStep xs st)) x
               <-> covered (finish st) x \/ In x xs.
Proof.
revert st. induction xs as [|x0 xs IH]; intros st Hok; simpl.
- split; [assumption | intuition].
- assert (Hstep : runsOk (finish (runStep st x0))
                  /\ forall x, covered (finish (runStep st x0)) x
                               <-> covered (finish st) x \/ x0 = x).
  { destruct st as [runs [[s p]|]]; simpl in *.
    - unfold runsOk in Hok. apply Forall_app in Hok. destruct Hok as [Hr Hsp].
      inversion Hsp as [|? ? Hle _]; subst. simpl in Hle.
      destruct (x0 =? p + 1) eqn:E; simpl.
      + apply Z.eqb_eq in E. split.
        * apply Forall_app. split; [assumption|]. repeat constructor. simpl. lia.
        * intros x. rewrite !covered_app, !covered_single. intuition lia.
      + split.
        * apply Forall_app. split; [|repeat constructor; simpl; lia].
          apply Forall_app. split; [assumption | repeat constructor; assumption].
        * intros x. rewrite !covered_app, !covered_single. intuition lia.
    - split.
      + apply Forall_app. split; [assumption | repeat constructor; simpl; lia].
      + intros x. rewrite covered_app, covered_single. intuition lia. }
  destruct Hstep as [Hok' Hcov'].
  destruct (IH (runStep st x0) Hok') as [Hok'' Hcov''].
  split; [assumption|].
  intros x. rewrite Hcov'', Hcov'. intuition.
Qed.

Lemma runsOf_spec (xs : list Z) :
  runsOk (runsOf xs) /\ forall x, covered (runsOf xs) x <-> In x xs.
Proof.
assert (H0 : runsOk (finish ([], None))) by constructor.
destruct (runStep_fold xs ([], None) H0) as [Hok Hcov].
assert (E : runsOf xs = finish (fold_left runStep xs ([], None))).
{ unfold runsOf, finish. destruct (fold_left runStep xs ([], None)) as [r [sp|]];
    reflexivity. }
rewrite E. split; [assumption|].
intros x. rewrite Hcov. unfold covered. simpl.
split; [intros [[a [b [[] _]]] | H]; exact H | auto].
Qed.

Lemma runsOf_nonempty (xs : list Z) : xs <> [] -> runsOf xs <> [].
Proof.
intros Hne Hnil. destruct xs as [|x xs]; [congruence|].
destruct (runsOf_spec (x :: xs)) as [_ Hcov].
assert (Hc : covered (runsOf (x :: xs)) x) by (apply Hcov; now left).
rewrite Hnil in Hc. destruct Hc as [a [b [[] _]]].
Qed.

(** *** Rows as text *)

Lemma runStr_free (c : ascii) (a b : Z) :
  0 <= a -> 0 <= b -> is_digit36 c = false -> c <> "-"%char ->
  includes c (runStr true (a, b)) = false.
Proof.
intros Ha Hb Hc Hm. unfold runStr, numStr.
destruct (a =? b); [now apply toB36_free|].
change (toB36 (Int a) ++ "-" ++ toB36 (Int b))%string
  with (toB36 (Int a) ++ String "-"%char (toB36 (Int b)))%string.
rewrite includes_sep, !toB36_free by assumption.
rewrite eqb_ne by congruence. reflexivity.
Qed.

Lemma toB36_nonempty (n : Z) : exists ch r, toB36 (Int n) = String ch r.
Proof. apply toStringZ_nonempty. lia. Qed.

Lemma nonEmpty_app (a b : string) :
  nonEmpty (Some a) = true -> nonEmpty (Some (a ++ b)) = true.
Proof. destruct a; [discriminate | reflexivity]. Qed.

Lemma nonEmpty_toB36 (n : Z) : nonEmpty (Some (toB36 (Int n))) = true.
Proof. destruct (toB36_nonempty n) as [ch [r E]]. now rewrite E. Qed.

Lemma runStr_nonEmpty (ab : Z * Z) : nonEmpty (Some (runStr true ab)) = true.
Proof.
destruct ab as [a b]. unfold runStr, numStr.
destruct (a =? b); [apply nonEmpty_toB36 | apply nonEmpty_app, nonEmpty_toB36].
Qed.

Lemma parseNum_toB36 (n : Z) :
  safe n = true -> parseNum true (Some (toB36 (Int n))) = Int n.
Proof. intros H. apply parseInt_toStringZ; [lia | assumption]. Qed.

(** *** Pushing to the output array *)

Lemma lengthOf_app (a b : list string) :
  lengthOf (a ++ b) = lengthOf a + lengthOf b.
Proof. unfold lengthOf. rewrite length_app. lia. Qed.

Lemma pushAll_fits (out keys : list string) :
  lengthOf out + lengthOf keys <= MAX_ARRAY_LENGTH ->
  pushAll out keys = Ok (out ++ keys)%list.
Proof.
revert out. induction keys as [|k keys IH]; intros out H; cbn [pushAll].
- now rewrite app_nil_r.
- unfold push. unfold lengthOf in H. cbn [List.length] in H.
  destruct (lengthOf out <? MAX_ARRAY_LENGTH) eqn:E.
  + cbn [bind]. rewrite IH.
    * now rewrite <- app_assoc.
    * rewrite lengthOf_app. unfold lengthOf. cbn [List.length]. lia.
  + apply Z.ltb_ge in E. unfold lengthOf in E. lia.
Qed.

Lemma push_fits (out : list string) (k : string) :
  lengthOf out + 1 <= MAX_ARRAY_LENGTH -> push out k = Ok (out ++ [k])%list.
Proof.
intros H. unfold push.
destruct (lengthOf out <? MAX_ARRAY_LENGTH) eqn:E; [reflexivity|].
apply Z.ltb_ge in E. lia.
Qed.

(** A loop whose every round appends what [g] says does so as a whole. *)
Lemma each_fits {A : Type} (f : list string -> string -> result (list string))
    (h : A -> string) (g : A -> list string) (items : list A)
    (out : list string) :
  (forall out a, In a items ->
     lengthOf out + lengthOf (g a) <= MAX_ARRAY_LENGTH ->
     f out (h a) = Ok (out ++ g a)%list) ->
  lengthOf out + lengthOf (flat_map g items) <= MAX_ARRAY_LENGTH ->
  each f out (map h items) = Ok (out ++ flat_map g items)%list.
Proof.
revert out. induction items as [|a items IH]; intros out Hf H;
  cbn [each flat_map map].
- now rewrite app_nil_r.
- cbn [flat_map] in H. rewrite lengthOf_app in H.
  assert (L : 0 <= lengthOf (flat_map g items)) by (unfold lengthOf; lia).
  rewrite Hf by (try (now left); lia). cbn [bind].
  rewrite IH.
  + now rewrite <- app_assoc.
  + intros out' a' Ha. apply Hf. now right.
  + rewrite lengthOf_app. lia.
Qed.

Lemma runKeys_length (a b y : Z) :
  lengthOf (runKeys a b y) = Z.max 0 (b - a + 1).
Proof.
unfold lengthOf, runKeys, Painter.range. rewrite length_map, length_map, length_seq.
lia.
Qed.

(** Decoding one run gives back its cells. *)
Lemma decodeRun_runStr (y a b : Z) (out : list string) :
  0 <= a <= b -> b <= MAX_SAFE_INTEGER ->
  lengthOf out + lengthOf (runKeys a b y) <= MAX_ARRAY_LENGTH ->
  decodeRun true y out (runStr true (a, b)) = Ok (out ++ runKeys a b y)%list.
Proof.
intros Hab Hb Hlen. unfold decodeRun. rewrite runStr_nonEmpty. cbn [negb].
unfold runStr, numStr. destruct (Z.eqb_spec a b) as [->|Hne].
- rewrite toB36_free by (try lia; reflexivity).
  rewrite parseNum_toB36 by (apply safe_range; lia).
  unfold runKeys in *. rewrite range_singleton in *. cbn [map] in *.
  apply push_fits. unfold lengthOf in *. cbn [List.length] in Hlen. lia.
- change (toB36 (Int a) ++ "-" ++ toB36 (Int b))%string
    with (toB36 (Int a) ++ String "-"%char (toB36 (Int b)))%string.
  rewrite includes_sep, Ascii.eqb_refl, orb_true_r. cbn [orb].
  rewrite split_app_sep by (apply toB36_free; [lia | reflexivity]).
  rewrite split_free by (apply toB36_free; [lia | reflexivity]).
  unfold at_. cbn [nth_error].
  rewrite !parseNum_toB36 by (apply safe_range; lia).
  rewrite Z.min_l, Z.max_r by lia. now apply pushAll_fits.
Qed.

Lemma join_nonEmpty (c : ascii) (l : list string) :
  (exists s rest, l = s :: rest /\ nonEmpty (Some s) = true) ->
  nonEmpty (Some (join c l)) = true.
Proof.
intros [s [rest [-> Hs]]]. destruct rest as [|t rest]; [exact Hs|].
change (join c (s :: t :: rest)) with (s ++ String c (join c (t :: rest)))%string.
now apply nonEmpty_app.
Qed.

Lemma decodeRow_rowText (y : Z) (runs : list (Z * Z)) (out : list string) :
  0 <= y <= MAX_SAFE_INTEGER -> runs <> [] ->
  Forall (fun ab => 0 <= fst ab <= snd ab /\ snd ab <= MAX_SAFE_INTEGER) runs ->
  lengthOf out + lengthOf (keysOfRuns y runs) <= MAX_ARRAY_LENGTH ->
  decodeRow true out (rowText y runs) = Ok (out ++ keysOfRuns y runs)%list.
Proof.
intros Hy Hne Hall Hlen. unfold decodeRow, rowText, numStr.
rewrite nonEmpty_app by apply nonEmpty_toB36. cbn [negb].
change (toB36 (Int y) ++ ":" ++ join "," (map (runStr true) runs))%string
  with (toB36 (Int y) ++ String ":"%char (join "," (map (runStr true) runs)))%string.
assert (Hfree : forall c, is_digit36 c = false -> c <> "-"%char ->
          Forall (fun s => includes c s = false) (map (runStr true) runs)).
{ intros c Hc Hm. apply Forall_map. eapply Forall_impl; [|exact Hall].
  intros [a b] Hab. cbn [fst snd] in Hab. apply runStr_free; try lia; assumption. }
rewrite split_app_sep by (apply toB36_free; [lia | reflexivity]).
rewrite split_free
  by (apply join_includes; [discriminate | apply Hfree; [reflexivity | discriminate]]).
unfold at_. cbn [nth_error].
rewrite join_nonEmpty.
2:{ destruct runs as [|ab runs]; [congruence|].
    eexists; eexists; split; [reflexivity | apply runStr_nonEmpty]. }
cbn [negb]. rewrite parseNum_toB36 by (apply safe_range; lia).
rewrite split_join.
- unfold keysOfRuns in *.
  apply (each_fits (decodeRun true y) (runStr true)
           (fun ab => runKeys (fst ab) (snd ab) y)); [|assumption].
  intros out' [a b] Hin Hfit. cbn [fst snd] in *.
  pose proof (proj1 (Forall_forall _ _) Hall (a, b) Hin) as Hab.
  cbn [fst snd] in Hab. apply decodeRun_runStr; (lia || assumption).
- destruct runs; [congruence | discriminate].
- apply Hfree; [reflexivity | discriminate].
Qed.

Lemma rowText_shape (y : Z) (runs : list (Z * Z)) :
  0 <= y -> Forall (fun ab => 0 <= fst ab <= snd ab) runs ->
  includes ";" (rowText y runs) = false
  /\ includes ":" (rowText y runs) = true
  /\ nonEmpty (Some (rowText y runs)) = true.
Proof.
intros Hy Hall. unfold rowText, numStr. repeat split.
- change (toB36 (Int y) ++ ":" ++ join "," (map (runStr true) runs))%string
    with (toB36 (Int y) ++ String ":"%char (join "," (map (runStr true) runs)))%string.
  rewrite includes_sep, toB36_free by (try lia; reflexivity).
  rewrite eqb_ne by discriminate. cbn [orb].
  apply join_includes; [discriminate|].
  apply Forall_map. eapply Forall_impl; [|exact Hall].
  intros [a b] Hab. simpl in Hab. apply runStr_free; try lia; try reflexivity.
  discriminate.
- change (toB36 (Int y) ++ ":" ++ join "," (map (runStr true) runs))%string
    with (toB36 (Int y) ++ String ":"%char (join "," (map (runStr true) runs)))%string.
  rewrite includes_sep, Ascii.eqb_refl, orb_true_r. reflexivity.
- apply nonEmpty_app, nonEmpty_toB36.
Qed.

(** Rows are decoded one by one. *)
Lemma decodeRed_rows (useBase36 : bool) (rows : list string) :
  Forall (fun r => includes ";" r = false) rows ->
  (exists r rest, rows = r :: rest /\ includes ":" r = true) ->
  decodeRed (join ";" rows) useBase36 = each (decodeRow useBase36) [] rows.
Proof.
intros Hall [r [rest [-> Hr]]]. unfold decodeRed.
assert (Hinc : includes ":" (join ";" (r :: rest)) = true).
{ destruct rest as [|t rest]; [exact Hr|].
  change (join ";" (r :: t :: rest))
    with (r ++ String ";"%char (join ";" (t :: rest)))%string.
  now rewrite includes_app, Hr. }
destruct (join ";" (r :: rest)) as [|ch s] eqn:Ej; [discriminate|].
rewrite Hinc, <- Ej. rewrite split_join; [reflexivity | discriminate | assumption].
Qed.

(** *** Counting the cells of the runs *)

Lemma cellsOfRuns_app (r1 r2 : list (Z * Z)) :
  cellsOfRuns (r1 ++ r2) = (cellsOfRuns r1 + cellsOfRuns r2)%nat.
Proof. unfold cellsOfRuns. now rewrite map_app, list_sum_app. Qed.

Lemma runStep_cells (xs : list Z) (st : list (Z * Z) * option (Z * Z)) :
  runsOk (finish st) ->
  cellsOfRuns (finish (fold_left runStep xs st))
  = (cellsOfRuns (finish st) + List.length xs)%nat.
Proof.
revert st. induction xs as [|x0 xs IH]; intros st Hok; cbn [fold_left List.length].
- lia.
- assert (Hstep : runsOk (finish (runStep st x0))
                  /\ cellsOfRuns (finish (runStep st x0))
                     = (cellsOfRuns (finish st) + 1)%nat).
  { destruct st as [runs [[s p]|]]; cbn [runStep finish] in *.
    - unfold runsOk in Hok. apply Forall_app in Hok. destruct Hok as [Hr Hsp].
      inversion Hsp as [|? ? Hle _]; subst. cbn [fst snd] in Hle.
      destruct (x0 =? p + 1) eqn:E; cbn [finish].
      + apply Z.eqb_eq in E. split.
        * apply Forall_app. split; [assumption|]. repeat constructor.
          cbn [fst snd]. lia.
        * rewrite !cellsOfRuns_app. unfold cellsOfRuns.
          cbn [map list_sum fold_right fst snd]. lia.
      + split.
        * apply Forall_app. split; [|repeat constructor; cbn [fst snd]; lia].
          apply Forall_app. split; [assumption | repeat constructor; assumption].
        * rewrite !cellsOfRuns_app. unfold cellsOfRuns.
          cbn [map list_sum fold_right fst snd]. lia.
    - split.
      + apply Forall_app. split; [assumption | repeat constructor; cbn [fst snd]; lia].
      + rewrite cellsOfRuns_app. unfold cellsOfRuns.
        cbn [map list_sum fold_right fst snd]. lia. }
  destruct Hstep as [Hok' Hc]. rewrite (IH _ Hok'), Hc. lia.
Qed.

Lemma runsOf_cells (xs : list Z) : cellsOfRuns (runsOf xs) = List.length xs.
Proof.
assert (H0 : runsOk (finish ([], None))) by constructor.
assert (E : runsOf xs = finish (fold_left runStep xs ([], None))).
{ unfold runsOf, finish. destruct (fold_left runStep xs ([], None)) as [r [sp|]];
    reflexivity. }
rewrite E, (runStep_cells xs ([], None) H0). reflexivity.
Qed.

Lemma keysOfRuns_length (y : Z) (runs : list (Z * Z)) :
  List.length (keysOfRuns y runs) = cellsOfRuns runs.
Proof.
unfold keysOfRuns, cellsOfRuns. rewrite length_flat_map. f_equal.
apply map_ext. intros [a b]. cbn [fst snd].
unfold runKeys, Painter.range. now rewrite !length_map, length_seq.
Qed.

Lemma insertSorted_length (a : Z) (l : list Z) :
  List.length (insertSorted a l) = S (List.length l).
Proof.
induction l as [|b l IH]; cbn [insertSorted List.length]; [reflexivity|].
destruct (a <=? b); cbn [List.length]; [reflexivity | now rewrite IH].
Qed.

Lemma sortNum_length (l : list Z) : List.length (sortNum l) = List.length l.
Proof.
induction l as [|a l IH]; [reflexivity|].
change (sortNum (a :: l)) with (insertSorted a (sortNum l)).
rewrite insertSorted_length, IH. reflexivity.
Qed.

Lemma list_sum_cons (x : nat) (l : list nat) :
  list_sum (x :: l) = (x + list_sum l)%nat.
Proof. reflexivity. Qed.

Lemma insertSorted_sum (f : Z -> nat) (a : Z) (l : list Z) :
  list_sum (map f (insertSorted a l)) = (f a + list_sum (map f l))%nat.
Proof.
induction l as [|b l IH]; cbn [insertSorted]; [reflexivity|].
destruct (a <=? b); cbn [map]; [reflexivity|].
rewrite !list_sum_cons, IH. lia.
Qed.

Lemma sortNum_sum (f : Z -> nat) (l : list Z) :
  list_sum (map f (sortNum l)) = list_sum (map f l).
Proof.
induction l as [|a l IH]; [reflexivity|].
change (sortNum (a :: l)) with (insertSorted a (sortNum l)).
rewrite insertSorted_sum, IH. reflexivity.
Qed.

Lemma keys_pushAt_NoDup (byY : list (Z * list Z)) (y x : Z) :
  NoDup (map fst byY) -> NoDup (map fst (pushAt byY y x)).
Proof.
induction byY as [|[y0 xs] byY IH]; intros H; cbn [pushAt map fst].
- repeat constructor. intros [].
- destruct (y0 =? y) eqn:E; [exact H|].
  cbn [map fst]. inversion H as [|? ? Hn Hr]; subst. constructor; [|auto].
  rewrite keys_pushAt. intros [Hin | ->]; [auto|].
  rewrite Z.eqb_refl in E. discriminate.
Qed.

Lemma keys_groupCells_NoDup (cells : list (Z * Z)) (byY : list (Z * list Z)) :
  NoDup (map fst byY) -> NoDup (map fst (groupCells cells byY)).
Proof.
revert byY. induction cells as [|[x y] cells IH]; intros byY H; [exact H|].
unfold groupCells in *. cbn [fold_left]. apply IH. now apply keys_pushAt_NoDup.
Qed.

Lemma entries_pushAt (byY : list (Z * list Z)) (y x : Z) :
  list_sum (map (fun e => List.length (snd e)) (pushAt byY y x))
  = S (list_sum (map (fun e => List.length (snd e)) byY)).
Proof.
induction byY as [|[y0 xs] byY IH]; cbn [pushAt].
- reflexivity.
- destruct (y0 =? y); cbn [map snd]; rewrite !list_sum_cons.
  + rewrite length_app. cbn [List.length]. lia.
  + rewrite IH. lia.
Qed.

Lemma entries_groupCells (cells : list (Z * Z)) (byY : list (Z * list Z)) :
  list_sum (map (fun e => List.length (snd e)) (groupCells cells byY))
  = (list_sum (map (fun e => List.length (snd e)) byY) + List.length cells)%nat.
Proof.
revert byY. induction cells as [|[x y] cells IH]; intros byY.
- unfold groupCells. cbn [fold_left List.length]. lia.
- unfold groupCells in *. cbn [fold_left List.length fst snd].
  rewrite IH, entries_pushAt. lia.
Qed.

Lemma entries_by_key (byY : list (Z * list Z)) :
  NoDup (map fst byY) ->
  list_sum (map (fun y => List.length (getRow byY y)) (map fst byY))
  = list_sum (map (fun e => List.length (snd e)) byY).
Proof.
induction byY as [|[y0 xs] byY IH]; intros Hnd; [reflexivity|].
cbn [map fst snd]. rewrite !list_sum_cons. cbn [getRow]. rewrite Z.eqb_refl.
inversion Hnd as [|? ? Hn Hr]; subst. rewrite <- (IH Hr). f_equal. f_equal.
apply map_ext_in. intros y Hy.
destruct (Z.eqb_spec y0 y) as [->|_]; [contradiction | reflexivity].
Qed.

(** *** The round trip of a paint set *)

Lemma rowStr_rowText (byY : list (Z * list Z)) (y : Z) :
  rowStr true byY y = rowText y (runsOf (sortNum (getRow byY y))).
Proof. reflexivity. Qed.

Lemma cellKey_In (cells : list (Z * Z)) (k : string) :
  In k (map cellKey cells) <-> exists x y, In (x, y) cells /\ k = cellKey (x, y).
Proof.
rewrite in_map_iff. split.
- intros [[x y] [E H]]. eauto.
- intros [x [y [H E]]]. exists (x, y). auto.
Qed.

Section Rows.
Variable cells : list (Z * Z).
Hypothesis cells_safe : Forall safeCell cells.

Let byY := groupCells cells [].
Let ys := sortNum (map fst byY).

Lemma row_key (y : Z) : In y ys <-> exists x, In (x, y) cells.
Proof.
unfold ys, byY. rewrite sortNum_In, groupCells_keys. simpl.
split; [intros [[] | H]; exact H | auto].
Qed.

Lemma row_cell (x y : Z) :
  In x (sortNum (getRow byY y)) <-> In (x, y) cells.
Proof.
unfold byY. rewrite sortNum_In, groupCells_row. simpl.
split; [intros [[] | H]; exact H | auto].
Qed.

Lemma cell_safe (x y : Z) :
  In (x, y) cells ->
  0 <= x <= MAX_SAFE_INTEGER /\ 0 <= y <= MAX_SAFE_INTEGER.
Proof.
intros H. exact (proj1 (Forall_forall _ _) cells_safe (x, y) H).
Qed.

Lemma row_runs (y : Z) :
  In y ys ->
  0 <= y <= MAX_SAFE_INTEGER
  /\ runsOf (sortNum (getRow byY y)) <> []
  /\ Forall (fun ab => 0 <= fst ab <= snd ab /\ snd ab <= MAX_SAFE_INTEGER)
        (runsOf (sortNum (getRow byY y))).
Proof.
intros Hy. apply row_key in Hy. destruct Hy as [x Hx].
destruct (runsOf_spec (sortNum (getRow byY y))) as [Hok Hcov].
split; [apply (cell_safe x y Hx)|]. split.
- apply runsOf_nonempty. apply row_cell in Hx. intros E. now rewrite E in Hx.
- unfold runsOk in Hok. apply Forall_forall. intros [a b] Hab.
  pose proof (proj1 (Forall_forall _ _) Hok (a, b) Hab) as Hle.
  cbn [fst snd] in *.
  assert (Ha : covered (runsOf (sortNum (getRow byY y))) a)
    by (exists a, b; split; [assumption | lia]).
  assert (Hb : covered (runsOf (sortNum (getRow byY y))) b)
    by (exists a, b; split; [assumption | lia]).
  apply Hcov, row_cell in Ha. apply Hcov, row_cell in Hb.
  pose proof (cell_safe a y Ha). pose proof (cell_safe b y Hb). lia.
Qed.

(** The keys the rows decode to, row after row. *)
Lemma rowKeys_In (y : Z) (k : string) :
  In k (keysOfRuns y (runsOf (sortNum (getRow byY y))))
  <-> exists x, In (x, y) cells /\ k = cellKey (x, y).
Proof.
destruct (runsOf_spec (sortNum (getRow byY y))) as [_ Hcov].
unfold keysOfRuns. rewrite in_flat_map. split.
- intros [[a b] [Hab Hk]]. apply in_map_iff in Hk. destruct Hk as [x [<- Hx]].
  apply range_In in Hx. cbn [fst snd] in Hx. exists x. split; [|reflexivity].
  apply row_cell, Hcov. exists a, b. auto.
- intros [x [Hx ->]]. apply row_cell, Hcov in Hx. destruct Hx as [a [b [Hab Hx]]].
  exists (a, b). split; [assumption|]. apply in_map_iff. exists x.
  split; [reflexivity | apply range_In; assumption].
Qed.

Lemma decodeRow_rowStr (y : Z) (out : list string) :
  In y ys ->
  lengthOf out + lengthOf (keysOfRuns y (runsOf (sortNum (getRow byY y))))
  <= MAX_ARRAY_LENGTH ->
  decodeRow true out (rowStr true byY y)
  = Ok (out ++ keysOfRuns y (runsOf (sortNum (getRow byY y))))%list.
Proof.
intros Hy Hlen. destruct (row_runs y Hy) as [Hy0 [Hne Hall]].
rewrite rowStr_rowText. now apply decodeRow_rowText.
Qed.

Lemma rows_shape :
  Forall (fun r => includes ";" r = false) (map (rowStr true byY) ys)
  /\ Forall (fun r => includes ":" r = true) (map (rowStr true byY) ys).
Proof.
split; apply Forall_map, Forall_forall; intros y Hy;
  destruct (row_runs y Hy) as [[Hy0 Hy1] [_ Hall]];
  rewrite rowStr_rowText; apply rowText_shape; try assumption;
  (eapply Forall_impl; [|exact Hall]); intros ab Hab; cbv beta in *; lia.
Qed.

(** As many keys as the set has. *)
Lemma rows_length :
  List.length
    (flat_map (fun y => keysOfRuns y (runsOf (sortNum (getRow byY y)))) ys)
  = List.length cells.
Proof.
rewrite length_flat_map.
rewrite (map_ext _ (fun y => List.length (getRow byY y))).
2:{ intros y. now rewrite keysOfRuns_length, runsOf_cells, sortNum_length. }
unfold ys. rewrite sortNum_sum, entries_by_key.
- unfold byY. rewrite entries_groupCells. reflexivity.
- unfold byY. apply keys_groupCells_NoDup. constructor.
Qed.

End Rows.

(** Decoding the encoding of a paint set gives its cells back. *)
Lemma paint_roundtrip (cells : list (Z * Z)) :
  Forall safeCell cells ->
  Z.of_nat (List.length cells) <= MAX_ARRAY_LENGTH ->
  exists l,
    decodeRed (encodeRedRLE (map cellKey cells) true) true = Ok l
    /\ forall k, In k l <-> In k (map cellKey cells).
Proof.
intros Hall Hlen. destruct cells as [|c cells].
{ exists []. split; [reflexivity | reflexivity]. }
remember (c :: cells) as cs eqn:Ecs.
assert (E : encodeRedRLE (map cellKey cs) true
            = join ";" (map (rowStr true (groupCells cs []))
                          (sortNum (map fst (groupCells cs []))))).
{ unfold encodeRedRLE. rewrite groupStep_fold by assumption.
  subst cs. reflexivity. }
rewrite E. clear E.
destruct (rows_shape cs Hall) as [Hsemi Hcolon].
assert (Hys : exists y, In y (sortNum (map fst (groupCells cs [])))).
{ subst cs. destruct c as [x y]. exists y. apply (row_key _ y).
  exists x. now left. }
rewrite decodeRed_rows.
- rewrite (each_fits (decodeRow true) (rowStr true (groupCells cs []))
             (fun y => keysOfRuns y
                         (runsOf (sortNum (getRow (groupCells cs []) y))))).
  + eexists. split; [reflexivity|]. intros k. cbn [app].
    rewrite in_flat_map, cellKey_In. split.
    * intros [y [Hy Hk]]. apply (rowKeys_In cs) in Hk.
      destruct Hk as [x [Hx ->]]. eauto.
    * intros [x [y [Hxy ->]]].
      exists y. split; [apply (row_key cs); eauto|].
      apply (rowKeys_In cs). eauto.
  + intros out y Hy Hfit. now apply (decodeRow_rowStr cs Hall).
  + unfold lengthOf. rewrite (rows_length cs). cbn [List.length]. lia.
- assumption.
- destruct Hys as [y Hy].
  destruct (sortNum (map fst (groupCells cs []))) as [|y0 ys0]; [destruct Hy|].
  cbn [map] in *. inversion Hcolon; subst. eauto.
Qed.

(** The encoding of a non-empty paint set is not empty. *)
Lemma encodeRedRLE_notEmpty (cells : list (Z * Z)) :
  Forall safeCell cells -> cells <> [] ->
  notEmpty (encodeRedRLE (map cellKey cells) true) = true.
Proof.
intros Hall Hne. destruct cells as [|c cells]; [congruence|].
remember (c :: cells) as cs eqn:Ecs.
assert (E : encodeRedRLE (map cellKey cs) true
            = join ";" (map (rowStr true (groupCells cs []))
                          (sortNum (map fst (groupCells cs []))))).
{ unfold encodeRedRLE. rewrite groupStep_fold by assumption.
  subst cs. reflexivity. }
rewrite E.
destruct (rows_shape cs Hall) as [_ Hcolon].
assert (Hys : exists y, In y (sortNum (map fst (groupCells cs [])))).
{ subst cs. destruct c as [x y]. exists y. apply (row_key _ y).
  exists x. now left. }
destruct Hys as [y Hy].
destruct (sortNum (map fst (groupCells cs []))) as [|y0 ys0]; [destruct Hy|].
simpl map in *. inversion Hcolon as [|? ? H0 _]; subst.
unfold notEmpty. apply negb_true_iff, String.eqb_neq. intros Ej.
assert (Hn : nonEmpty (Some (join ";" (rowStr true (groupCells (c :: cells) []) y0
                                         :: map (rowStr true (groupCells (c :: cells) [])) ys0)))
             = true).
{ apply join_nonEmpty. eexists; eexists; split; [reflexivity|].
  destruct (rowStr true (groupCells (c :: cells) []) y0); [discriminate | reflexivity]. }
rewrite Ej in Hn. discriminate.
Qed.

End PaintCodec.

(** ** Object tokens *)

Section TokenCodec.
Import JS State Transform Url UrlState.

(** A number in base 36 is made of digits and possibly a sign. *)
Lemma toB36_free_any (c : ascii) (n : Z) :
  is_digit36 c = false -> c <> "-"%char -> includes c (toB36 (Int n)) = false.
Proof.
intros Hc Hm. destruct (Z.lt_ge_cases n 0) as [Hneg | Hpos];
  [|now apply toB36_free].
unfold toB36, toString, toStringZ. rewrite (proj2 (Z.ltb_lt n 0)) by assumption.
rewrite includes_cons, eqb_ne by congruence. cbn [orb].
eapply allb_includes; [|exact Hc].
apply digits_allb; try lia. reflexivity.
Qed.

Lemma toB36_small_free_x (w : Z) :
  1 <= w <= 30 -> includes "x" (toB36 (Int w)) = false.
Proof.
intros H.
assert (E : forallb (fun w => negb (includes "x" (toB36 (Int w))))
              (Painter.range 1 30) = true) by (vm_compute; reflexivity).
rewrite forallb_forall in E. apply negb_true_iff, E, range_In. lia.
Qed.

Lemma labelSuffix_persisted (b : Block) :
  labelSuffix b
  = match persistedLabel b with
    | Some l => String "~"%char (encodeURIComponent l)
    | None => EmptyString
    end.
Proof.
unfold labelSuffix, persistedLabel.
destruct (kind b); try reflexivity.
- destruct (notEmpty (labelOf b) && negb (labelOf b =? "도시")%string
            && negb (labelOf b =? "City")%string); reflexivity.
- match goal with |- context [if ?c then _ else _] => destruct c end; reflexivity.
Qed.

Lemma CODE_TO_KIND_codeOf (k : Kind) :
  paletteKind k = true -> CODE_TO_KIND (Some (codeOf k)) = Some k.
Proof. destruct k; try discriminate; reflexivity. Qed.

Lemma tokenOf_shape (d : Dom) (b : Block) :
  tokenOf d b
  = (String (codeOf (kind b)) (sizeText b)
       ++ String "@"%char (posText d b ++ labelSuffix b))%string.
Proof.
unfold tokenOf, sizeText, posText, posToCell. cbv zeta. cbn [fst snd].
destruct (Kind_eqb (kind b) custom);
  repeat (progress (rewrite ?append_assoc; cbn [append])); reflexivity.
Qed.

Lemma codeOf_plain (k : Kind) :
  Ascii.eqb (codeOf k) "@" = false /\ Ascii.eqb (codeOf k) ";" = false.
Proof. destruct k; split; reflexivity. Qed.

Lemma sizeText_free (c : ascii) (b : Block) :
  is_digit36 c = false -> c <> "-"%char ->
  includes c (sizeText b) = false.
Proof.
intros Hc Hm. unfold sizeText. destruct (Kind_eqb (kind b) custom).
- change (toB36 (Int (orSize (width b) (size b))) ++ "x"
            ++ toB36 (Int (orSize (height b) (size b))))%string
    with (toB36 (Int (orSize (width b) (size b)))
            ++ String "x"%char (toB36 (Int (orSize (height b) (size b)))))%string.
  rewrite includes_sep, !toB36_free_any by assumption.
  destruct (Ascii.eqb_spec "x"%char c) as [<-|]; [discriminate Hc | reflexivity].
- now apply toB36_free_any.
Qed.

Lemma posText_free (c : ascii) (d : Dom) (b : Block) :
  is_digit36 c = false -> c <> "-"%char -> c <> ","%char ->
  includes c (posText d b) = false.
Proof.
intros Hc Hm Hcomma. unfold posText.
match goal with
| |- includes c (?a ++ "," ++ ?b)%string = false =>
    change (a ++ "," ++ b)%string with (a ++ String ","%char b)%string
end.
rewrite includes_sep, !toB36_free_any by assumption.
rewrite eqb_ne by congruence. reflexivity.
Qed.

Lemma labelSuffix_free (c : ascii) (b : Block) :
  uri_out c = false -> c <> "~"%char -> includes c (labelSuffix b) = false.
Proof.
intros Hc Ht. rewrite labelSuffix_persisted.
destruct (persistedLabel b); [|reflexivity].
rewrite includes_cons, eqb_ne by congruence.
now apply encodeURIComponent_free.
Qed.

Lemma tokenOf_free_semicolon (d : Dom) (b : Block) :
  includes ";" (tokenOf d b) = false.
Proof.
rewrite tokenOf_shape, includes_sep, includes_cons, includes_app.
rewrite (proj2 (codeOf_plain (kind b))).
rewrite sizeText_free, posText_free, labelSuffix_free;
  try reflexivity; discriminate.
Qed.

Lemma split_posText (d : Dom) (b : Block) :
  split "," (posText d b)
  = [toB36 (Int (fst (posToCell d (left b) (top b))));
     toB36 (Int (snd (posToCell d (left b) (top b))))].
Proof.
unfold posText.
match goal with
| |- split _ (?a ++ "," ++ ?b)%string = _ =>
    change (a ++ "," ++ b)%string with (a ++ String ","%char b)%string
end.
rewrite split_app_sep by (apply toB36_free_any; [reflexivity | discriminate]).
rewrite split_free by (apply toB36_free_any; [reflexivity | discriminate]).
reflexivity.
Qed.

Lemma parseInt_toB36 (n : Z) :
  safe n = true -> parseInt (Some (toB36 (Int n))) 36 = Int n.
Proof. intros H. apply parseInt_toStringZ; [lia | assumption]. Qed.

Lemma persistedLabel_wellFormed (b : Block) (l : string) :
  isWellFormed (labelText b) = true ->
  persistedLabel b = Some l -> isWellFormed l = true.
Proof.
intros Hw. unfold persistedLabel.
destruct (kind b); try discriminate;
  match goal with |- context [if ?c then _ else _] => destruct c end;
  intros E; inversion E; subst; now apply trim_wellFormed.
Qed.

(** The label part of the tail, and the tail without it. *)
Lemma tail_label (d : Dom) (b : Block) :
  isWellFormed (labelText b) = true ->
  match indexOf "~" (posText d b ++ labelSuffix b) with
  | Some tildeIdx =>
      l <- decodeURIComponent
             (sliceFrom (S tildeIdx) (posText d b ++ labelSuffix b)) ;;
      Ok (Some l, sliceTo tildeIdx (posText d b ++ labelSuffix b))
  | None => Ok (None, (posText d b ++ labelSuffix b)%string)
  end = Ok (persistedLabel b, posText d b).
Proof.
intros Hw.
assert (Hfree : includes "~" (posText d b) = false)
  by (apply posText_free; [reflexivity | discriminate | discriminate]).
rewrite labelSuffix_persisted.
destruct (persistedLabel b) as [l|] eqn:El.
- rewrite indexOf_app_sep by assumption.
  rewrite sliceFrom_app_sep, decode_encode_URIComponent
    by (now apply (persistedLabel_wellFormed b)).
  cbn [bind]. now rewrite sliceTo_app.
- rewrite append_nil_r, indexOf_free by assumption. reflexivity.
Qed.

Lemma codeOf_low (k : Kind) : (code (codeOf k) <? 128) = true.
Proof. destruct k; reflexivity. Qed.

Lemma safe_small (w : Z) : 1 <= w <= 30 -> safe w = true.
Proof. intros H. unfold safe, MAX_SAFE_INTEGER. apply Z.leb_le. lia. Qed.

Lemma safe_max (a b : Z) : safe a = true -> safe b = true -> safe (Z.max a b) = true.
Proof. unfold safe. rewrite !Z.leb_le. lia. Qed.

(** Decoding the token of a block recovers the block. *)
Lemma decodeToken_tokenOf (d : Dom) (b : Block) (acc : list Item) :
  validBlock b -> safeBlock d b ->
  decodeToken true acc (tokenOf d b) = Ok (acc ++ [itemOf d b])%list.
Proof.
intros [Hk Hwh] [Hs [Hcx [Hcy Hw]]]. rewrite tokenOf_shape. unfold decodeToken.
set (H := String (codeOf (kind b)) (sizeText b)).
set (T := (posText d b ++ labelSuffix b)%string).
assert (HH : includes "@" H = false).
{ unfold H. rewrite includes_cons, (proj1 (codeOf_plain (kind b))).
  apply sizeText_free; [reflexivity | discriminate]. }
assert (Hne : notEmpty (H ++ String "@"%char T) = true) by reflexivity.
rewrite Hne. cbn [negb].
rewrite indexOf_app_sep by exact HH.
rewrite sliceTo_app, sliceFrom_app_sep.
unfold T. rewrite tail_label by assumption. cbn [bind]. cbv beta iota.
unfold H. cbn [firstChar]. rewrite dropUnit_low by apply codeOf_low.
rewrite split_posText. cbn [at_ nth_error].
unfold parseField. rewrite !parseInt_toB36 by assumption.
rewrite CODE_TO_KIND_codeOf by assumption.
unfold itemOf, sizeText.
destruct (kind b) eqn:Ek; try discriminate Hk; cbn [Kind_eqb andb];
  try (rewrite parseInt_toB36 by assumption; reflexivity).
destruct (Hwh eq_refl) as [Hw' Hh].
match goal with
| |- context [includes "x" (?a ++ "x" ++ ?b)%string] =>
    change (a ++ "x" ++ b)%string with (a ++ String "x"%char b)%string
end.
rewrite includes_sep, Ascii.eqb_refl, orb_true_r. cbn [orb].
rewrite split_app_sep by (now apply toB36_small_free_x).
rewrite split_free by (now apply toB36_small_free_x).
cbn [nth_error]. rewrite !parseInt_toB36 by (now apply safe_small). reflexivity.
Qed.

Lemma decodeTokens_tokenOf (d : Dom) (bs : list Block) (acc : list Item) :
  Forall validBlock bs -> Forall (safeBlock d) bs ->
  decodeTokens true acc (map (tokenOf d) bs) = Ok (acc ++ map (itemOf d) bs)%list.
Proof.
revert acc. induction bs as [|b bs IH]; intros acc Hall Hsafe; simpl.
- now rewrite app_nil_r.
- inversion Hall as [|? ? Hb Hbs]; subst.
  inversion Hsafe as [|? ? Hb' Hbs']; subst.
  rewrite decodeToken_tokenOf by assumption. cbn [bind].
  rewrite IH by assumption. now rewrite <- app_assoc.
Qed.

(** The [b] parameter decodes to the blocks, also when there are none. *)
Lemma decodeTokens_joined (d : Dom) (bs : list Block) :
  Forall validBlock bs -> Forall (safeBlock d) bs ->
  decodeTokens true [] (split ";" (join ";" (map (tokenOf d) bs)))
  = Ok (map (itemOf d) bs).
Proof.
intros Hall Hsafe. destruct bs as [|b bs]; [reflexivity|].
rewrite split_join.
- now rewrite decodeTokens_tokenOf.
- discriminate.
- apply Forall_map, Forall_forall. intros b' _. apply tokenOf_free_semicolon.
Qed.

End TokenCodec.

(** ** Round trip of the board state *)

Section StateCodec.
Import JS State Transform Url UrlState.

Lemma serializeState_params (d : Dom) (st : state) :
  serializeState d st
  = paramsToString
      (("v", "2")
         :: ("b", join ";" (map (tokenOf d) (mutableBlocks st)))
         :: (if notEmpty (encodeRedRLE (userPaint st) true)
             then [("r", encodeRedRLE (userPaint st) true)]
             else [])).
Proof.
unfold serializeState, mutableBlocks.
destruct (notEmpty (encodeRedRLE (userPaint st) true)); reflexivity.
Qed.

Lemma getOr_empty (p : URLSearchParams) (name : string) :
  getOr p name "" = match get p name with Some v => v | None => "" end.
Proof. unfold getOr. destruct (get p name) as [[|]|]; reflexivity. Qed.

Lemma canonicalPaint_cells (s : JS.set) :
  canonicalPaint s ->
  exists cells, s = map cellKey cells /\ Forall safeCell cells.
Proof.
induction 1 as [|k s [p [Hp ->]] _ [cells [-> Hall]]].
- exists []. split; [reflexivity | constructor].
- exists (p :: cells). split; [reflexivity|].
  constructor; assumption.
Qed.

(** Decoding the [r] parameter of a serialized state. *)
Lemma red_roundtrip (s : JS.set) :
  canonicalPaint s -> lengthOf s <= MAX_ARRAY_LENGTH ->
  let R := encodeRedRLE s true in
  exists l,
    decodeRed (if notEmpty R then R else "") true = Ok l
    /\ forall k, In k l <-> In k s.
Proof.
intros Hs Hlen R. destruct (canonicalPaint_cells s Hs) as [cells [-> Hall]].
destruct cells as [|c cells].
{ exists []. split; reflexivity. }
unfold R. rewrite encodeRedRLE_notEmpty by (auto; discriminate).
apply paint_roundtrip; [assumption|].
unfold lengthOf in Hlen. now rewrite length_map in Hlen.
Qed.

Lemma deserialize_serialize (d : Dom) (st : state) :
  Forall validBlock (mutableBlocks st) ->
  Forall (safeBlock d) (mutableBlocks st) ->
  canonicalPaint (userPaint st) ->
  lengthOf (userPaint st) <= MAX_ARRAY_LENGTH ->
  exists l,
    deserializeState (serializeState d st)
    = Ok {| pblocks := map (itemOf d) (mutableBlocks st);
            red := l;
            ver := "2" |}
    /\ forall k, In k l <-> In k (userPaint st).
Proof.
intros Hall Hsafe Hp Hlen.
destruct (red_roundtrip (userPaint st) Hp Hlen) as [l [El Hl]].
exists l. split; [|exact Hl].
rewrite serializeState_params. unfold deserializeState.
rewrite parse_paramsToString.
- cbv zeta.
  change (getOr _ "v" "1") with "2".
  change ("2" =? "2")%string with true.
  rewrite !getOr_empty.
  replace (get _ "b") with (Some (join ";" (map (tokenOf d) (mutableBlocks st))))
    by reflexivity.
  rewrite decodeTokens_joined by assumption. cbn [bind].
  replace (match get _ "r" with Some v => v | None => "" end)
    with (if notEmpty (encodeRedRLE (userPaint st) true)
          then encodeRedRLE (userPaint st) true else "")
    by (destruct (notEmpty (encodeRedRLE (userPaint st) true)); reflexivity).
  cbv zeta in El. rewrite El. reflexivity.
- discriminate.
- intros r. unfold paramsToString. cbn [map fst snd].
  destruct (notEmpty (encodeRedRLE (userPaint st) true)); discriminate.
Qed.

End StateCodec.

(** ** Tolerant decoding *)

Section Tolerance.
Import JS State Transform Url UrlState.


(** *** Loops that skip a piece *)







(** *** What is dropped *)




(** *** What is decoded is finite *)











(** *** Legacy object tokens fall back to defaults *)

Lemma orElse_NaN (dflt : Z) : orElse NaN dflt = Int dflt.
Proof. reflexivity. Qed.







(** *** Tokens without a label *)

Lemma includes_sliceFrom (c : ascii) (n : nat) (s : string) :
  includes c s = false -> includes c (sliceFrom n s) = false.
Proof.
revert s. induction n as [|n IH]; intros s H; [exact H|].
destruct s as [|ch r]; [reflexivity|]. cbn [sliceFrom]. apply IH.
rewrite includes_cons in H. now apply orb_false_iff in H.
Qed.




(** Decoding is not guarded everywhere: a version-2 token keeps a NaN
    coordinate, a malformed escape in a label makes the whole decode
    throw, and a legacy coordinate written with 310 digits comes out
    infinite. *)
Remark deserializeState_not_guarded :
  deserializeState "v=2&b=T3@,5"
  = Ok {| pblocks := [{| ikind := trap; iwidth := None; iheight := None;
                         isize := Int 3; cx := NaN; cy := Int 5;
                         label := None |}];
          red := []; ver := "2" |}
  /\ deserializeState "b=T3@1,1~%" = Throw URIError
  /\ decodeToken false [] ("T3@" ++ nines 310 ++ ",5")
     = Ok [{| ikind := trap; iwidth := None; iheight := None;
              isize := Int 3; cx := Inf false; cy := Int 5;
              label := None |}].
Proof. repeat split; vm_compute; reflexivity. Qed.



End Tolerance.

(** ** The round trip *)

Section RoundTrip.
Import JS State Transform Url UrlState.

Lemma has_newSet_acc (l : list string) (acc : JS.set) (k : string) :
  has (fold_left add l acc) k = true <-> has acc k = true \/ In k l.
Proof.
revert acc. induction l as [|a l IH]; intros acc; simpl.
- intuition.
- rewrite IH, has_add. intuition.
Qed.

Lemma has_newSet (l : list string) (k : string) :
  has (newSet l) k = true <-> In k l.
Proof.
unfold newSet. rewrite has_newSet_acc. simpl. intuition discriminate.
Qed.

(** C1 (as stated it fails): a trap whose label the user changed to
    "Gate" comes back from a round trip without any label. *)
Lemma label_of_trap_not_persisted :
  customLabel (blockAt trap 3 5 10 "Gate" true) = true
  /\ serializeState sampleDom
       {| blocks := [blockAt trap 3 5 10 "Gate" true];
          paintedSet := []; userPaint := [] |}
     = "v=2&b=T3%405%2Ca"
  /\ deserializeState
       (serializeState sampleDom
          {| blocks := [blockAt trap 3 5 10 "Gate" true];
             paintedSet := []; userPaint := [] |})
     = Ok {| pblocks := [{| ikind := trap; iwidth := None; iheight := None;
                            isize := Int 3; cx := Int 5; cy := Int 10;
                            label := None |}];
             red := []; ver := "2" |}.
Proof. repeat split; vm_compute; reflexivity. Qed.

(** C1 (amended): for a board whose non-immutable blocks are of palette
    kinds, custom ones with width and height between 1 and 30, whose
    sizes and cell positions are safe integers and whose label texts are
    well-formed, and whose user paint set holds at most 2^32 - 1 keys of
    cells with non-negative safe coordinates, deserializeState applied to
    serializeState succeeds and yields, in order, one object per
    non-immutable block with the same kind, the same size (width and
    height for a custom block) and the same cell position; the decoded
    label is the block's trimmed label text when the block is a city whose
    trimmed text is neither empty nor a stock default, or a custom block
    whose trimmed text is neither empty nor its "WxH" default, and is
    absent for every other block; and the decoded paint cells have exactly
    the membership of the user paint set. *)
Theorem state_roundtrip (d : Dom) (st : state) :
  Forall validBlock (mutableBlocks st) ->
  Forall (safeBlock d) (mutableBlocks st) ->
  canonicalPaint (userPaint st) ->
  lengthOf (userPaint st) <= MAX_ARRAY_LENGTH ->
  exists p,
    deserializeState (serializeState d st) = Ok p
    /\ ver p = "2"
    /\ pblocks p = map (itemOf d) (mutableBlocks st)
    /\ (forall k, In k (red p) <-> In k (userPaint st))
    /\ (forall k, has (newSet (red p)) k = has (userPaint st) k).
Proof.
intros Hblocks Hsafe Hpaint Hlen.
destruct (deserialize_serialize d st Hblocks Hsafe Hpaint Hlen) as [l [E Hred]].
eexists. split; [exact E|].
cbn [ver pblocks red]. split; [reflexivity|]. split; [reflexivity|].
split; [exact Hred|].
intros k.
destruct (has (userPaint st) k) eqn:Ek.
- apply has_newSet, Hred, has_true. exact Ek.
- apply not_true_is_false. intros H.
  apply has_newSet, Hred, has_true in H. congruence.
Qed.

Lemma state_roundtrip_witness :
  exists p,
    deserializeState
      (serializeState sampleDom
         {| blocks := [blockAt trap 3 5 10 "" false;
                       customAt 4 7 2 3 "Outpost";
                       blockAt city 2 1 1 (nbsp ++ "Harbour" ++ nbsp) true;
                       blockAt city 2 4 4 (nbsp ++ "City") true];
            paintedSet := [];
            userPaint := ["0,0"; "1,0"; "2,0"; "5,1"] |}) = Ok p
    /\ map label (pblocks p) = [None; Some "Outpost"; Some "Harbour"; None]
    /\ has (newSet (red p)) "5,1" = true.
Proof.
destruct (state_roundtrip sampleDom
            {| blocks := [blockAt trap 3 5 10 "" false;
                          customAt 4 7 2 3 "Outpost";
                          blockAt city 2 1 1 (nbsp ++ "Harbour" ++ nbsp) true;
                          blockAt city 2 4 4 (nbsp ++ "City") true];
               paintedSet := [];
               userPaint := ["0,0"; "1,0"; "2,0"; "5,1"] |})
  as [p [Hp [_ [Hb [_ Hs]]]]].
- repeat constructor; try discriminate; vm_compute; congruence.
- repeat constructor; vm_compute; reflexivity.
- repeat constructor.
  + exists (0, 0). split; [unfold safeCell; cbn; lia | reflexivity].
  + exists (1, 0). split; [unfold safeCell; cbn; lia | reflexivity].
  + exists (2, 0). split; [unfold safeCell; cbn; lia | reflexivity].
  + exists (5, 1). split; [unfold safeCell; cbn; lia | reflexivity].
- vm_compute. discriminate.
- exists p. split; [exact Hp|]. split.
  + rewrite Hb. vm_compute. reflexivity.
  + rewrite Hs. reflexivity.
Defined.

End RoundTrip.

(* ================================================================== *)
(** * Further properties                                               *)
(* ================================================================== *)

(** ** More on transforms *)

Section TransformMore.
Import Vocab Vocab2.
Import JS State Transform.

Lemma inject_cell_pos (c : Z) : 0 < c -> (0 < inject_Z c)%Q.
Proof. intros H. change 0%Q with (inject_Z 0). rewrite <- Zlt_Qlt. exact H. Qed.

Lemma div_cell_mul (q : Q) (c : Z) :
  0 < c -> (q / inject_Z c * inject_Z c == q)%Q.
Proof.
intros H. field. intros E.
apply inject_cell_pos in H. rewrite E in H. discriminate.
Qed.

(** [floor (q / c) = k] says that [q] lies in the [k]-th interval of
    length [c]. *)
Lemma floor_div_cell (q : Q) (c : Z) :
  0 < c ->
  (inject_Z (floor (q / inject_Z c) * c) <= q
   < inject_Z ((floor (q / inject_Z c) + 1) * c))%Q.
Proof.
intros Hc. pose proof (inject_cell_pos c Hc) as Hq.
rewrite !inject_Z_mult. split.
- rewrite <- (div_cell_mul q c Hc) at 2.
  apply Qmult_le_r; [assumption | apply Qfloor_le].
- rewrite <- (div_cell_mul q c Hc) at 1.
  apply Qmult_lt_r; [assumption | apply Qlt_floor].
Qed.

Lemma floor_below_ceil (q w : Q) : (q < w)%Q -> floor q <= ceil w - 1.
Proof.
intros H. unfold floor, ceil.
assert (L : (inject_Z (Qfloor q) < inject_Z (Qceiling w))%Q).
{ eapply Qle_lt_trans; [apply Qfloor_le|].
  eapply Qlt_le_trans; [exact H | apply Qle_ceiling]. }
rewrite <- Zlt_Qlt in L. lia.
Qed.

(** X1: a point inside the world is mapped to the cell that contains it,
    and that cell is inside the world's cell bounds. *)
Theorem pointToCell_contains_point (d : Dom) (px py : Q) :
  (0 <= px < inject_Z (clientWidth d))%Q ->
  (0 <= py < inject_Z (clientHeight d))%Q ->
  let c := cellPx d in
  let cx := fst (pointToCell d px py) in
  let cy := snd (pointToCell d px py) in
  (inject_Z (cx * c) <= px < inject_Z ((cx + 1) * c))%Q
  /\ (inject_Z (cy * c) <= py < inject_Z ((cy + 1) * c))%Q
  /\ 0 <= cx < worldCols d
  /\ 0 <= cy < worldRows d.
Proof.
intros [Hx0 Hx1] [Hy0 Hy1] c cx cy.
pose proof (cellPx_pos d) as Hc. fold c in Hc.
pose proof (inject_cell_pos c Hc) as Hq.
assert (Ax : forall (p : Q) (w : Z), (0 <= p < inject_Z w)%Q ->
          0 <= floor (p / inject_Z c)
               <= ceil (inject_Z w / inject_Z c) - 1).
{ intros p w [Hp0 Hp1]. split.
  - unfold floor. change 0 with (Qfloor (inject_Z 0)) at 1.
    apply Qfloor_resp_le. apply Qle_shift_div_l; [assumption|].
    rewrite Qmult_0_l. exact Hp0.
  - apply floor_below_ceil.
    apply Qlt_shift_div_l; [assumption|].
    rewrite div_cell_mul by assumption. exact Hp1. }
pose proof (Ax px (clientWidth d) (conj Hx0 Hx1)) as Bx.
pose proof (Ax py (clientHeight d) (conj Hy0 Hy1)) as By_.
assert (Ex : cx = floor (px / inject_Z c)).
{ unfold cx, pointToCell. cbv zeta. cbn [fst]. fold c. lia. }
assert (Ey : cy = floor (py / inject_Z c)).
{ unfold cy, pointToCell. cbv zeta. cbn [snd]. fold c. lia. }
rewrite Ex, Ey. unfold worldCols, worldRows. fold c.
split; [apply floor_div_cell; assumption|].
split; [apply floor_div_cell; assumption|].
split; lia.
Qed.

Lemma pointToCell_contains_point_witness :
  0 <= fst (pointToCell sampleDom (100 # 1) (50 # 1)) < worldCols sampleDom
  /\ 0 <= snd (pointToCell sampleDom (100 # 1) (50 # 1)) < worldRows sampleDom.
Proof.
assert (Hx : (0 <= 100 # 1 < inject_Z (clientWidth sampleDom))%Q)
  by (split; vm_compute; congruence).
assert (Hy : (0 <= 50 # 1 < inject_Z (clientHeight sampleDom))%Q)
  by (split; vm_compute; congruence).
destruct (pointToCell_contains_point sampleDom (100 # 1) (50 # 1) Hx Hy)
  as [_ [_ [Hcx Hcy]]].
split; assumption.
Defined.

Lemma posToCell_grid (d : Dom) (cx cy : Z) :
  posToCell d (inject_Z (cx * cellPx d)) (inject_Z (cy * cellPx d)) = (cx, cy).
Proof.
unfold posToCell. pose proof (cellPx_pos d) as Hc.
now rewrite !round_on_grid.
Qed.

(** X2: the pixel position of a cell converts back to that cell, which is
    how a decoded block (placed at [cx * cellPx], [cy * cellPx]) keeps its
    cell position; and on such a position the two conversions agree. *)
Theorem posToCell_of_cell (d : Dom) (cx cy : Z) :
  posToCell d (inject_Z (cx * cellPx d)) (inject_Z (cy * cellPx d)) = (cx, cy)
  /\ (0 <= cx < worldCols d -> 0 <= cy < worldRows d ->
      pointToCell d (inject_Z (cx * cellPx d)) (inject_Z (cy * cellPx d))
      = (cx, cy)).
Proof.
split; [apply posToCell_grid|].
intros Hx Hy. unfold pointToCell. pose proof (cellPx_pos d) as Hc.
assert (F : forall k, floor (inject_Z (k * cellPx d) / inject_Z (cellPx d)) = k).
{ intros k. unfold floor.
  assert (E : (inject_Z (k * cellPx d) / inject_Z (cellPx d) == inject_Z k)%Q).
  { rewrite inject_Z_mult. field. intros E.
    apply inject_cell_pos in Hc. rewrite E in Hc. discriminate. }
  rewrite E. apply Qfloor_Z. }
cbv zeta. rewrite !F. unfold worldCols, worldRows in *. f_equal; lia.
Qed.

Lemma posToCell_of_cell_witness :
  pointToCell sampleDom (inject_Z (5 * cellPx sampleDom))
    (inject_Z (10 * cellPx sampleDom)) = (5, 10).
Proof.
apply (posToCell_of_cell sampleDom 5 10); vm_compute; split; congruence.
Defined.

End TransformMore.

(** ** More on snapping *)

Section SnapMore.
Import Vocab Vocab2.
Import JS State Transform.

Lemma round_nearest (q : Q) :
  (inject_Z (round q) - (1 # 2) <= q < inject_Z (round q) + (1 # 2))%Q.
Proof.
unfold round. pose proof (Qfloor_le (q + (1 # 2))) as L.
pose proof (Qlt_floor (q + (1 # 2))) as U.
rewrite inject_Z_plus in U. split.
- apply Qplus_le_l with (z := (1 # 2)%Q).
  ring_simplify. ring_simplify in L. exact L.
- apply Qplus_lt_l with (z := (1 # 2)%Q).
  eapply Qlt_le_trans; [exact U|]. ring_simplify. apply Qle_refl.
Qed.

(** X3: in a world of [cols] x [rows] whole cells, snapping for a footprint
    of [size] cells that fits in the world gives a position on the grid
    whose whole footprint lies inside the world. *)
Theorem snapLocal_inside_world
    (d : Dom) (cols rows : Z) (left top : Q) (size : Z) :
  0 <= size <= cols -> size <= rows ->
  let w := setWorldSizeCells d cols rows in
  let c := cellPx d in
  exists kx ky,
    snapLocal w left top size = (kx * c, ky * c)
    /\ 0 <= kx /\ kx + size <= cols
    /\ 0 <= ky /\ ky + size <= rows
    /\ posToCell w (inject_Z (kx * c)) (inject_Z (ky * c)) = (kx, ky).
Proof.
intros Hs Hr w c. pose proof (cellPx_pos d) as Hc. fold c in Hc.
exists (Z.max 0 (Z.min (round (left / inject_Z c)) (cols - size))),
       (Z.max 0 (Z.min (round (top / inject_Z c)) (rows - size))).
split.
- unfold snapLocal, w. rewrite cellPx_setWorldSizeCells. fold c.
  cbn [clientWidth clientHeight setWorldSizeCells]. fold c.
  replace (cols * c - size * c) with ((cols - size) * c) by ring.
  replace (rows * c - size * c) with ((rows - size) * c) by ring.
  now rewrite !clamp_on_grid.
- repeat split; try lia.
  unfold w. unfold c. rewrite <- (cellPx_setWorldSizeCells d cols rows).
  apply posToCell_grid.
Qed.

Lemma snapLocal_inside_world_witness :
  exists kx ky,
    snapLocal sampleDom (70000 # 1) (-(5 # 1)) 3 = (kx * 48, ky * 48)
    /\ 0 <= kx /\ kx + 3 <= 1200 /\ 0 <= ky /\ ky + 3 <= 1200.
Proof.
destruct (snapLocal_inside_world
            {| cellVar := "48px"; clientWidth := 0; clientHeight := 0 |}
            1200 1200 (70000 # 1) (-(5 # 1)) 3)
  as [kx [ky [E [H1 [H2 [H3 [H4 _]]]]]]]; [lia | lia |].
exists kx, ky. repeat split; assumption.
Defined.

(** X4: unless the clamp to the world applies, snapping moves a position
    by at most half a cell on each axis: it rounds to the nearest grid
    line. *)
Theorem snapLocal_nearest (d : Dom) (left top : Q) (size : Z) :
  let c := cellPx d in
  let gx := round (left / inject_Z c) * c in
  let gy := round (top / inject_Z c) * c in
  0 <= gx <= clientWidth d - size * c ->
  0 <= gy <= clientHeight d - size * c ->
  snapLocal d left top size = (gx, gy)
  /\ (inject_Z gx - inject_Z c * (1 # 2) <= left
      < inject_Z gx + inject_Z c * (1 # 2))%Q
  /\ (inject_Z gy - inject_Z c * (1 # 2) <= top
      < inject_Z gy + inject_Z c * (1 # 2))%Q.
Proof.
intros c gx gy Hx Hy. pose proof (cellPx_pos d) as Hc. fold c in Hc.
pose proof (inject_cell_pos c Hc) as Hq.
split.
- unfold snapLocal. fold c. fold gx. fold gy. f_equal; lia.
- assert (A : forall q : Q,
            (inject_Z (round (q / inject_Z c) * c) - inject_Z c * (1 # 2) <= q
             < inject_Z (round (q / inject_Z c) * c) + inject_Z c * (1 # 2))%Q).
  { intros q. destruct (round_nearest (q / inject_Z c)) as [L U].
    rewrite inject_Z_mult. split.
    - rewrite <- (div_cell_mul q c Hc) at 2.
      setoid_replace (inject_Z (round (q / inject_Z c)) * inject_Z c
                      - inject_Z c * (1 # 2))%Q
        with ((inject_Z (round (q / inject_Z c)) - (1 # 2)) * inject_Z c)%Q
        by ring.
      apply Qmult_le_r; assumption.
    - rewrite <- (div_cell_mul q c Hc) at 1.
      setoid_replace (inject_Z (round (q / inject_Z c)) * inject_Z c
                      + inject_Z c * (1 # 2))%Q
        with ((inject_Z (round (q / inject_Z c)) + (1 # 2)) * inject_Z c)%Q
        by ring.
      apply Qmult_lt_r; assumption. }
  split; apply A.
Qed.

Lemma snapLocal_nearest_witness :
  snapLocal sampleDom (100 # 1) (50 # 1) 2 = (96, 48).
Proof.
apply (snapLocal_nearest sampleDom (100 # 1) (50 # 1) 2);
  vm_compute; split; congruence.
Defined.

End SnapMore.

(** ** Cell keys and numbers as text *)

Section KeyFacts.
Import Vocab Vocab2.
Import JS State Transform UrlState.

Lemma toStringZ_free_any (radix : Z) (c : ascii) (n : Z) :
  2 <= radix <= 36 -> is_digit36 c = false -> c <> "-"%char ->
  includes c (toStringZ radix n) = false.
Proof.
intros Hr Hc Hm. unfold toStringZ. destruct (n <? 0) eqn:E.
- apply Z.ltb_lt in E. rewrite includes_cons, eqb_ne by congruence. cbn [orb].
  eapply allb_includes; [|exact Hc]. apply digits_allb; try lia. reflexivity.
- apply Z.ltb_ge in E. eapply allb_includes; [|exact Hc].
  apply digits_allb; try lia. reflexivity.
Qed.

Lemma parse_digits_toStringZ (radix n : Z) :
  2 <= radix <= 36 -> 0 <= n ->
  parse_digits radix None (digits (Z.to_nat (Z.log2 n)) radix n "") = Some n.
Proof.
intros Hr Hn. rewrite parse_digits_digits; [reflexivity | assumption |].
split; [assumption | now apply log2_fuel].
Qed.

Lemma toStringZ_inj (radix n m : Z) :
  2 <= radix <= 36 -> toStringZ radix n = toStringZ radix m -> n = m.
Proof.
intros Hr. unfold toStringZ.
destruct (n <? 0) eqn:En, (m <? 0) eqn:Em;
  try apply Z.ltb_lt in En; try apply Z.ltb_lt in Em;
  try apply Z.ltb_ge in En; try apply Z.ltb_ge in Em; intros E.
- inversion E as [E'].
  apply (f_equal (parse_digits radix None)) in E'.
  rewrite !parse_digits_toStringZ in E' by lia. inversion E'. lia.
- destruct (digits_first (Z.to_nat (Z.log2 m)) radix m "" Hr Em)
    as [ch [r [Ed Hd]]].
  rewrite Ed in E. inversion E; subst.
  destruct (digit36_plain _ Hd) as [_ [H _]]. now contradiction H.
- destruct (digits_first (Z.to_nat (Z.log2 n)) radix n "" Hr En)
    as [ch [r [Ed Hd]]].
  rewrite Ed in E. inversion E; subst.
  destruct (digit36_plain _ Hd) as [_ [H _]]. now contradiction H.
- apply (f_equal (parse_digits radix None)) in E.
  rewrite !parse_digits_toStringZ in E by lia. now inversion E.
Qed.

Lemma keyOf_inj (x y x' y' : Z) :
  keyOf (Int x) (Int y) = keyOf (Int x') (Int y') -> x = x' /\ y = y'.
Proof.
unfold keyOf, String_, toString. intros E.
assert (S : forall a b,
          split "," (toStringZ 10 a ++ "," ++ toStringZ 10 b)
          = [toStringZ 10 a; toStringZ 10 b]).
{ intros a b.
  change (toStringZ 10 a ++ "," ++ toStringZ 10 b)%string
    with (toStringZ 10 a ++ String ","%char (toStringZ 10 b))%string.
  rewrite split_app_sep
    by (apply toStringZ_free_any; [lia | reflexivity | discriminate]).
  rewrite split_free
    by (apply toStringZ_free_any; [lia | reflexivity | discriminate]).
  reflexivity. }
assert (E' : split "," (toStringZ 10 x ++ "," ++ toStringZ 10 y)
             = split "," (toStringZ 10 x' ++ "," ++ toStringZ 10 y'))
  by now rewrite E.
rewrite !S in E'. inversion E' as [[Ex Ey]].
split; eapply toStringZ_inj; eauto; lia.
Qed.

(** X5: distinct cells have distinct keys, whatever the sign of their
    coordinates, so a set of keys is a set of cells. *)
Theorem keyOf_injective (x y x' y' : Z) :
  keyOf (Int x) (Int y) = keyOf (Int x') (Int y') <-> x = x' /\ y = y'.
Proof.
split; [apply keyOf_inj | intros [-> ->]; reflexivity].
Qed.

Lemma digits_allb_gen (P : ascii -> bool) (fuel : nat) (radix n : Z)
    (acc : string) :
  (forall d, 0 <= d < 36 -> P (digit_char d) = true) ->
  2 <= radix <= 36 -> 0 <= n ->
  allb P acc = true ->
  allb P (digits fuel radix n acc) = true.
Proof.
intros HP Hr. revert n acc. induction fuel as [|f IH]; intros n acc Hn Hacc; simpl.
- destruct (n <? radix) eqn:E; simpl; rewrite Hacc, andb_true_r; apply HP.
  + apply Z.ltb_lt in E. lia.
  + pose proof (Z.mod_pos_bound n radix). lia.
- destruct (n <? radix) eqn:E.
  + simpl. rewrite Hacc, andb_true_r. apply HP. apply Z.ltb_lt in E. lia.
  + apply IH.
    * apply Z.div_pos; lia.
    * simpl. rewrite Hacc, andb_true_r. apply HP.
      pose proof (Z.mod_pos_bound n radix). lia.
Qed.

Lemma digit_char_lower (d : Z) : 0 <= d < 36 -> is_lower36 (digit_char d) = true.
Proof.
intros H.
assert (E : forallb (fun d => is_lower36 (digit_char d)) (Painter.range 0 35) = true)
  by (vm_compute; reflexivity).
rewrite forallb_forall in E. apply E, range_In. lia.
Qed.

(** X6: [fromB36] undoes [toB36] on every safe integer, negative ones
    included (and so does decimal [parseInt] for [String]); [toB36] writes
    only the digits 0-9 and a-z, after a minus sign for a negative
    number. *)
Theorem fromB36_toB36 (n : Z) :
  (safe n = true ->
   fromB36 (Some (toB36 (Int n))) = Int n
   /\ parseInt (Some (String_ (Int n))) 10 = Int n)
  /\ (0 <= n -> allb is_lower36 (toB36 (Int n)) = true)
  /\ (n < 0 -> exists ds, toB36 (Int n) = String "-"%char ds
                          /\ ds = toB36 (Int (- n))
                          /\ allb is_lower36 ds = true).
Proof.
split; [intros Hs; split; apply parseInt_toStringZ; (lia || assumption)|].
assert (P : forall m, 0 <= m -> allb is_lower36 (toB36 (Int m)) = true).
{ intros m Hm. unfold toB36, toString, toStringZ.
  rewrite (proj2 (Z.ltb_ge m 0)) by lia.
  apply digits_allb_gen; try lia; [apply digit_char_lower | reflexivity]. }
split; [exact (P n)|].
intros Hn. exists (toB36 (Int (- n))). split; [|split; [reflexivity | apply P; lia]].
unfold toB36, toString, toStringZ.
rewrite (proj2 (Z.ltb_lt n 0)) by lia.
rewrite (proj2 (Z.ltb_ge (- n) 0)) by lia. reflexivity.
Qed.

Lemma fromB36_toB36_witness :
  fromB36 (Some (toB36 (Int 1295))) = Int 1295
  /\ allb is_lower36 (toB36 (Int 1295)) = true
  /\ exists ds, toB36 (Int (-37)) = String "-"%char ds.
Proof.
destruct (fromB36_toB36 1295) as [Hback [Hpos _]].
destruct (fromB36_toB36 (-37)) as [_ [_ Hneg]].
split; [apply Hback; reflexivity|].
split; [apply Hpos; lia|].
destruct Hneg as [ds [E _]]; [lia|]. exists ds. exact E.
Defined.

End KeyFacts.

(** ** More on the area painter *)

Section PainterMore.
Import Vocab Vocab2.
Import JS State Transform Painter Render.

Lemma radiusOf_nonneg (k : Kind) : 0 <= radiusOf k.
Proof. destruct k; unfold radiusOf; simpl; lia. Qed.

Lemma range_length (lo hi : Z) :
  Z.of_nat (List.length (range lo hi)) = Z.max 0 (hi - lo + 1).
Proof. unfold range. rewrite length_map, length_seq. lia. Qed.

Lemma grid_length (x0 x1 y0 y1 : Z) :
  Z.of_nat (List.length
              (flat_map (fun y => map (fun x => (x, y)) (range x0 x1)) (range y0 y1)))
  = Z.max 0 (x1 - x0 + 1) * Z.max 0 (y1 - y0 + 1).
Proof.
rewrite <- !range_length.
induction (range y0 y1) as [|y ys IH]; simpl; [lia|].
rewrite length_app, length_map, Nat2Z.inj_add, IH. lia.
Qed.

Lemma box_bounds_cells (d : Dom) (k : Kind) (cx cy x y : Z) :
  In (x, y) (cellsForKindAt d k cx cy)
  <-> minx (areaBoundingBox d k cx cy) <= x <= maxx (areaBoundingBox d k cx cy)
      /\ miny (areaBoundingBox d k cx cy) <= y <= maxy (areaBoundingBox d k cx cy).
Proof. unfold cellsForKindAt. rewrite grid_In. reflexivity. Qed.

(** X7: the coverage of a kind contains its centre cell exactly when the
    centre is inside the world; away from the world's edges it has
    (2R+1)^2 cells (49 for a flag, 225 for an HQ), and never more. *)
Theorem coverage_centre_and_count (d : Dom) (k : Kind) (cx cy : Z) :
  let r := radiusOf k in
  let n := Z.of_nat (List.length (cellsForKindAt d k cx cy)) in
  (In (cx, cy) (cellsForKindAt d k cx cy)
   <-> 0 <= cx < worldCols d /\ 0 <= cy < worldRows d)
  /\ n <= (2 * r + 1) * (2 * r + 1)
  /\ (r <= cx -> cx + r < worldCols d -> r <= cy -> cy + r < worldRows d ->
      n = (2 * r + 1) * (2 * r + 1)).
Proof.
intros r n. pose proof (radiusOf_nonneg k) as Hr. fold r in Hr.
split; [rewrite cellsForKindAt_In; fold r; lia|].
assert (En : n = Z.max 0 (Z.min (worldCols d - 1) (cx + r) - Z.max 0 (cx - r) + 1)
                 * Z.max 0 (Z.min (worldRows d - 1) (cy + r) - Z.max 0 (cy - r) + 1)).
{ unfold n, cellsForKindAt. rewrite grid_length. reflexivity. }
split.
- rewrite En. apply Z.mul_le_mono_nonneg; lia.
- intros H1 H2 H3 H4. rewrite En. f_equal; lia.
Qed.

Lemma coverage_centre_and_count_witness :
  Z.of_nat (List.length (cellsForKindAt sampleDom flag 600 600)) = 49
  /\ Z.of_nat (List.length (cellsForKindAt sampleDom hq 600 600)) = 225.
Proof.
split.
- apply (coverage_centre_and_count sampleDom flag 600 600);
    vm_compute; congruence.
- apply (coverage_centre_and_count sampleDom hq 600 600);
    vm_compute; congruence.
Defined.

End PainterMore.

(** ** The painted set *)

Section PaintedSet.
Import Vocab Vocab2.
Import JS State Transform Painter Blocks Render.

Lemma add_NoDup (s : JS.set) (k : string) : NoDup s -> NoDup (add s k).
Proof.
intros H. unfold add. destruct (has s k) eqn:E; [assumption|].
apply NoDup_app; [assumption | repeat constructor; intros [] |].
intros a Ha [<- | []]. apply has_true in Ha. congruence.
Qed.

Lemma fold_add_NoDup {A : Type} (f : A -> string) (l : list A) (s : JS.set) :
  NoDup s -> NoDup (fold_left (fun s c => add s (f c)) l s).
Proof.
revert s. induction l as [|c l IH]; intros s H; simpl; [assumption|].
apply IH. now apply add_NoDup.
Qed.

Lemma fold_add_has {A : Type} (f : A -> string) (l : list A) (s : JS.set)
    (k : string) :
  has (fold_left (fun s c => add s (f c)) l s) k = true
  <-> has s k = true \/ exists c, In c l /\ k = f c.
Proof.
revert s. induction l as [|c l IH]; intros s; simpl.
- split; [auto | intros [H | [c [[] _]]]; exact H].
- rewrite IH, has_add. split.
  + intros [[H | ->] | [c' [H1 H2]]]; eauto.
  + intros [H | [c' [[<- | H1] H2]]]; eauto.
Qed.

Lemma paintBlock_has (d : Dom) (s : JS.set) (b : Block) (k : string) :
  has (paintBlock d s b) k = true
  <-> has s k = true \/ exists x y, paints d b x y /\ k = keyOf (Int x) (Int y).
Proof.
unfold paintBlock, paints. destruct (PAINTER_KINDS (kind b)); cbn [negb].
- destruct (centerOf d b) as [ccx ccy]. cbn [fst snd].
  rewrite fold_add_has. split.
  + intros [H | [[x y] [H1 H2]]]; [auto|]. right. exists x, y. auto.
  + intros [H | [x [y [[_ H1] H2]]]]; [auto|]. right. exists (x, y). auto.
- split; [auto | intros [H | [x [y [[H _] _]]]]; [exact H | discriminate]].
Qed.

Lemma paintBlock_NoDup (d : Dom) (s : JS.set) (b : Block) :
  NoDup s -> NoDup (paintBlock d s b).
Proof.
intros H. unfold paintBlock. destruct (negb (PAINTER_KINDS (kind b))); [assumption|].
destruct (centerOf d b). now apply fold_add_NoDup.
Qed.

Lemma paintBlocks_has (d : Dom) (bs : list Block) (s : JS.set) (k : string) :
  has (fold_left (paintBlock d) bs s) k = true
  <-> has s k = true
      \/ exists b x y, In b bs /\ paints d b x y /\ k = keyOf (Int x) (Int y).
Proof.
revert s. induction bs as [|b bs IH]; intros s; simpl.
- split; [auto | intros [H | [b [x [y [[] _]]]]]; exact H].
- rewrite IH, paintBlock_has. split.
  + intros [[H | [x [y [H1 H2]]]] | [b' [x [y [H1 [H2 H3]]]]]]; eauto 10.
  + intros [H | [b' [x [y [[<- | H1] [H2 H3]]]]]]; eauto 10.
Qed.

Lemma paintBlocks_NoDup (d : Dom) (bs : list Block) (s : JS.set) :
  NoDup s -> NoDup (fold_left (paintBlock d) bs s).
Proof.
revert s. induction bs as [|b bs IH]; intros s H; simpl; [assumption|].
apply IH. now apply paintBlock_NoDup.
Qed.

Lemma painted_has (d : Dom) (bs : list Block) (x y : Z) :
  has (fold_left (paintBlock d) bs []) (keyOf (Int x) (Int y)) = true
  <-> exists b, In b bs /\ paints d b x y.
Proof.
rewrite paintBlocks_has. split.
- intros [H | [b [x' [y' [H1 [H2 H3]]]]]]; [discriminate|].
  apply keyOf_inj in H3. destruct H3; subst. eauto.
- intros [b [H1 H2]]. right. exists b, x, y. auto.
Qed.

(** X8: after [recomputePaint] the painted set is, without repetition,
    exactly the union of the coverage of the flags and HQs on the board:
    a cell's key is in it if and only if some flag or HQ covers the cell,
    and every key in it is the key of a cell of the world. *)
Theorem recomputePaint_is_union (d : Dom) (st : state) :
  NoDup (paintedSet (recomputePaint d st))
  /\ (forall x y,
        has (paintedSet (recomputePaint d st)) (keyOf (Int x) (Int y)) = true
        <-> exists b, In b (blocks st) /\ paints d b x y)
  /\ (forall k, In k (paintedSet (recomputePaint d st)) ->
        exists x y, k = keyOf (Int x) (Int y)
                    /\ 0 <= x < worldCols d /\ 0 <= y < worldRows d).
Proof.
cbn [recomputePaint paintedSet]. split; [apply paintBlocks_NoDup; constructor|].
split; [intros x y; apply painted_has|].
intros k Hk. apply has_true in Hk. apply paintBlocks_has in Hk.
destruct Hk as [H | [b [x [y [H1 [[_ H2] H3]]]]]]; [discriminate|].
exists x, y. split; [assumption|].
apply cellsForKindAt_In in H2. lia.
Qed.

Lemma recomputePaint_is_union_witness :
  exists x y, "600,600" = keyOf (Int x) (Int y)
              /\ 0 <= x < worldCols sampleDom /\ 0 <= y < worldRows sampleDom.
Proof.
apply (recomputePaint_is_union sampleDom
         {| blocks := [blockAt flag 1 600 600 "" false];
            paintedSet := []; userPaint := [] |}).
vm_compute. tauto.
Defined.

(** X9: after [recomputePaint], a city or trap is valid exactly when every
    cell of its footprint is covered by some flag or HQ of the board. *)
Theorem valid_iff_footprint_covered (d : Dom) (st : state) (b : Block) :
  needsValidation b = true ->
  let cx := fst (posToCell d (left b) (top b)) in
  let cy := snd (posToCell d (left b) (top b)) in
  isInvalid d (paintedSet (recomputePaint d st)) b = false
  <-> forall x y, cx <= x < cx + size b -> cy <= y < cy + size b ->
                  exists p, In p (blocks st) /\ paints d p x y.
Proof.
intros Hn cx cy.
assert (Hw : widthOf b = size b /\ heightOf b = size b).
{ unfold widthOf, heightOf, needsValidation in *.
  destruct (kind b); try discriminate; auto. }
destruct Hw as [Hw Hh]. cbn [recomputePaint paintedSet].
split.
- intros Hv x y Hx Hy. apply painted_has.
  destruct (has (fold_left (paintBlock d) (blocks st) []) (keyOf (Int x) (Int y)))
    eqn:E; [reflexivity|].
  assert (Hi : isInvalid d (fold_left (paintBlock d) (blocks st) []) b = true).
  { apply isInvalid_true. split; [assumption|]. exists x, y.
    rewrite Hw, Hh. auto. }
  congruence.
- intros Hall.
  destruct (isInvalid d (fold_left (paintBlock d) (blocks st) []) b) eqn:E;
    [|reflexivity].
  apply isInvalid_true in E. destruct E as [_ [x [y [Hx [Hy Hmiss]]]]].
  rewrite Hw in Hx. rewrite Hh in Hy.
  specialize (Hall x y Hx Hy). apply painted_has in Hall. congruence.
Qed.

Lemma valid_iff_footprint_covered_witness :
  exists p,
    In p [blockAt flag 1 600 600 "" false; blockAt city 2 601 601 "" false]
    /\ paints sampleDom p 602 601.
Proof.
apply (proj1 (valid_iff_footprint_covered sampleDom
                {| blocks := [blockAt flag 1 600 600 "" false;
                              blockAt city 2 601 601 "" false];
                   paintedSet := []; userPaint := [] |}
                (blockAt city 2 601 601 "" false) eq_refl)).
- vm_compute. reflexivity.
- vm_compute. split; congruence.
- vm_compute. split; congruence.
Defined.

(** X10: a block that is not a flag or an HQ paints nothing: adding it to
    the board leaves the painted set as it is; and adding any block keeps
    every valid block valid. *)
Theorem adding_blocks_keeps_paint (d : Dom) (st : state) (b' : Block) :
  let st' := {| blocks := blocks st ++ [b'];
                paintedSet := paintedSet st; userPaint := userPaint st |} in
  (PAINTER_KINDS (kind b') = false ->
   paintedSet (recomputePaint d st') = paintedSet (recomputePaint d st))
  /\ (forall b, isInvalid d (paintedSet (recomputePaint d st)) b = false ->
                isInvalid d (paintedSet (recomputePaint d st')) b = false).
Proof.
intros st'. cbn [recomputePaint paintedSet st' blocks]. rewrite fold_left_app.
cbn [fold_left]. split.
- intros Hk. unfold paintBlock at 1. now rewrite Hk.
- intros b Hv.
  destruct (isInvalid d (paintBlock d (fold_left (paintBlock d) (blocks st) []) b') b)
    eqn:E; [|reflexivity].
  apply isInvalid_antitone with (s := fold_left (paintBlock d) (blocks st) []) in E;
    [congruence|].
  intros k Hk. apply paintBlock_has. now left.
Qed.

Lemma adding_blocks_keeps_paint_witness :
  paintedSet
    (recomputePaint sampleDom
       {| blocks := [blockAt flag 1 600 600 "" false] ++ [blockAt trap 2 1 1 "" false];
          paintedSet := []; userPaint := [] |})
  = paintedSet
      (recomputePaint sampleDom
         {| blocks := [blockAt flag 1 600 600 "" false];
            paintedSet := []; userPaint := [] |}).
Proof.
apply (adding_blocks_keeps_paint sampleDom
         {| blocks := [blockAt flag 1 600 600 "" false];
            paintedSet := []; userPaint := [] |}
         (blockAt trap 2 1 1 "" false)).
reflexivity.
Defined.

End PaintedSet.

(** ** Outlines *)

Section Outlines.
Import Vocab Vocab2.
Import JS State Transform Painter Render.

Lemma worldCols_whole (d : Dom) (cols rows : Z) :
  worldCols (setWorldSizeCells d cols rows) = cols
  /\ worldRows (setWorldSizeCells d cols rows) = rows.
Proof.
unfold worldCols, worldRows. rewrite cellPx_setWorldSizeCells.
cbn [clientWidth clientHeight setWorldSizeCells].
pose proof (cellPx_pos d). now rewrite !ceil_on_grid.
Qed.

(** X11: the dashed outline drawn for a flag or HQ encloses exactly the
    cells the block paints, and in a world of whole cells it never leaves
    the world. *)
Theorem outline_encloses_coverage (d : Dom) (b : Block) :
  let o := outlineOf d b in
  let c := cellPx d in
  (forall x y,
      In (x, y) (cellsForKindAt d (kind b) (fst (centerOf d b)) (snd (centerOf d b)))
      <-> (rleft o <= x * c /\ (x + 1) * c <= rleft o + rwidth o)
          /\ (rtop o <= y * c /\ (y + 1) * c <= rtop o + rheight o))
  /\ (forall cols rows,
        d = setWorldSizeCells d cols rows ->
        0 <= rleft o /\ rleft o + rwidth o <= clientWidth d
        /\ 0 <= rtop o /\ rtop o + rheight o <= clientHeight d).
Proof.
intros o c. pose proof (cellPx_pos d) as Hc. fold c in Hc.
unfold o, outlineOf. destruct (centerOf d b) as [ccx ccy]. cbn [fst snd].
fold c. cbn [rleft rtop rwidth rheight].
set (bx := areaBoundingBox d (kind b) ccx ccy).
split.
- intros x y.
  destruct (box_bounds_cells d (kind b) ccx ccy x y) as [F B].
  fold bx in F, B. split.
  + intros H. apply F in H. nia.
  + intros H. apply B. nia.
- intros cols rows E.
  assert (Hx : 0 <= minx bx /\ maxx bx <= worldCols d - 1
               /\ 0 <= miny bx /\ maxy bx <= worldRows d - 1).
  { unfold bx, areaBoundingBox, worldCols, worldRows.
    cbn [minx miny maxx maxy]. lia. }
  destruct (worldCols_whole d cols rows) as [Wc Wr].
  rewrite <- E in Wc, Wr.
  assert (Ew : clientWidth d = cols * c /\ clientHeight d = rows * c).
  { rewrite E. cbn [clientWidth clientHeight setWorldSizeCells]. auto. }
  destruct Ew as [Ew Eh]. rewrite Ew, Eh. nia.
Qed.

Lemma outline_encloses_coverage_witness :
  0 <= rleft (outlineOf sampleDom (blockAt hq 3 1 1 "" false))
  /\ rleft (outlineOf sampleDom (blockAt hq 3 1 1 "" false))
     + rwidth (outlineOf sampleDom (blockAt hq 3 1 1 "" false))
     <= clientWidth sampleDom.
Proof.
destruct (outline_encloses_coverage sampleDom (blockAt hq 3 1 1 "" false))
  as [_ H].
destruct (H 1200 1200 eq_refl) as [H1 [H2 _]].
split; assumption.
Defined.

End Outlines.

(** ** More on the history *)

Section HistoryMore.
Import Vocab Vocab2.
Import History.

Lemma nth_error_last (l : list string) (q : string) :
  nth_error (l ++ [q]) (List.length l) = Some q.
Proof. rewrite nth_error_app2 by lia. now rewrite Nat.sub_diag. Qed.

Lemma lastn_last (n : nat) (l : list string) (q : string) :
  (1 <= n)%nat ->
  nthZ (lastn n (l ++ [q])) (len (lastn n (l ++ [q])) - 1) = Some q.
Proof.
intros Hn. unfold lastn, nthZ, len.
rewrite length_skipn, length_app. simpl List.length.
set (k := (List.length l + 1 - n)%nat).
assert (Hk : (k <= List.length l)%nat) by (unfold k; lia).
destruct (Z.of_nat (List.length l + 1 - k) - 1 <? 0) eqn:E;
  [apply Z.ltb_lt in E; lia|].
rewrite nth_error_skipn.
replace (k + Z.to_nat (Z.of_nat (List.length l + 1 - k) - 1))%nat
  with (List.length l) by lia.
apply nth_error_last.
Qed.

(** After a checkpoint that was not a no-op, the stack is the kept prefix
    with the new snapshot, cut to the last 100, and the index is on the
    new snapshot. *)
Lemma saveCheckpoint_pushed (qs : string) (h : HistoryState) :
  sameAs qs (nthZ (stack h) (index h)) = false ->
  stack (saveCheckpoint qs h) = lastn 100 (slice0 (stack h) (index h + 1) ++ [qs])
  /\ index (saveCheckpoint qs h) = len (stack (saveCheckpoint qs h)) - 1.
Proof.
intros Hs. unfold saveCheckpoint. rewrite Hs. cbv zeta. cbn [stack index].
split; [|reflexivity].
rewrite <- lastn_limit.
destruct (HISTORY_LIMIT <? len (slice0 (stack h) (index h + 1) ++ [qs]));
  reflexivity.
Qed.

Lemma sameAs_refl (qs : string) : sameAs qs (Some qs) = true.
Proof. apply String.eqb_refl. Qed.

(** X12: [saveCheckpoint] is idempotent: right after a checkpoint, whatever
    the history was, a second checkpoint of the same serialized state
    changes nothing. *)
Theorem saveCheckpoint_idempotent (qs : string) (h : HistoryState) :
  saveCheckpoint qs (saveCheckpoint qs h) = saveCheckpoint qs h
  /\ (sameAs qs (current h) = false -> current (saveCheckpoint qs h) = Some qs).
Proof.
assert (C : sameAs qs (current h) = false -> current (saveCheckpoint qs h) = Some qs).
{ intros Hs. destruct (saveCheckpoint_pushed qs h Hs) as [Hst Hi].
  unfold current. rewrite Hi, Hst. apply lastn_last. lia. }
split; [|exact C].
destruct (sameAs qs (current h)) eqn:Hs.
- unfold saveCheckpoint at 2 3. unfold current in Hs. rewrite Hs.
  unfold saveCheckpoint. now rewrite Hs.
- specialize (C eq_refl). unfold saveCheckpoint at 1.
  unfold current in C. now rewrite C, sameAs_refl.
Qed.

Lemma saveCheckpoint_idempotent_witness :
  current (saveCheckpoint "b" (initHistoryWithCurrent "a")) = Some "b".
Proof.
apply (saveCheckpoint_idempotent "b" (initHistoryWithCurrent "a")).
reflexivity.
Defined.

Lemma redoN_steps (n : nat) (h : HistoryState) :
  (1 <= n)%nat -> index h + Z.of_nat n <= len (stack h) - 1 ->
  redoN n h
  = ({| stack := stack h; index := index h + Z.of_nat n |},
     ApplySerialized (nthZ (stack h) (index h + Z.of_nat n))).
Proof.
revert h. induction n as [|n IH]; intros h Hn Hi; [lia|].
assert (Hu : redo h = ({| stack := stack h; index := index h + 1 |},
                       ApplySerialized (nthZ (stack h) (index h + 1)))).
{ unfold redo, canRedo.
  destruct (index h <? len (stack h) - 1) eqn:E; [reflexivity|].
  apply Z.ltb_ge in E. lia. }
destruct n as [|n].
- simpl. exact Hu.
- change (redoN (S (S n)) h) with (redoN (S n) (fst (redo h))).
  rewrite Hu. simpl fst. rewrite IH by (simpl index; simpl stack; lia).
  simpl stack. simpl index.
  replace (index h + 1 + Z.of_nat (S n)) with (index h + Z.of_nat (S (S n)))
    by lia.
  reflexivity.
Qed.

(** X13: undo and redo are inverse: from a history whose index points into
    the stack, [n] undos followed by [n] redos (and [n] redos followed by
    [n] undos), when that many steps are available, give the history back
    and finally re-apply the snapshot that was current. *)
Theorem undo_redo_inverse (n : nat) (h : HistoryState) :
  (1 <= n)%nat -> 0 <= index h <= len (stack h) - 1 ->
  (Z.of_nat n <= index h ->
   redoN n (fst (undoN n h)) = (h, ApplySerialized (current h)))
  /\ (index h + Z.of_nat n <= len (stack h) - 1 ->
      undoN n (fst (redoN n h)) = (h, ApplySerialized (current h))).
Proof.
intros Hn Hi. destruct h as [st i]. cbn [index stack] in *. unfold current.
cbn [index stack]. split; intros Hr.
- rewrite undoN_steps by (cbn [index stack]; lia). cbn [fst].
  rewrite redoN_steps by (cbn [index stack]; lia). cbn [index stack].
  replace (i - Z.of_nat n + Z.of_nat n) with i by lia. reflexivity.
- rewrite redoN_steps by (cbn [index stack]; lia). cbn [fst].
  rewrite undoN_steps by (cbn [index stack]; lia). cbn [index stack].
  replace (i + Z.of_nat n - Z.of_nat n) with i by lia. reflexivity.
Qed.

Lemma undo_redo_inverse_witness :
  redoN 2 (fst (undoN 2 {| stack := ["a"; "b"; "c"]; index := 2 |}))
  = ({| stack := ["a"; "b"; "c"]; index := 2 |}, ApplySerialized (Some "c")).
Proof.
apply (undo_redo_inverse 2 {| stack := ["a"; "b"; "c"]; index := 2 |});
  cbn; lia.
Defined.

Lemma lastn_before_last (n : nat) (l : list string) (q : string) :
  (2 <= n)%nat -> l <> [] ->
  nthZ (lastn n (l ++ [q])) (len (lastn n (l ++ [q])) - 1 - 1)
  = nth_error l (List.length l - 1).
Proof.
intros Hn Hl. unfold lastn, nthZ, len.
assert (Hlen : (1 <= List.length l)%nat) by (destruct l; [congruence | simpl; lia]).
rewrite length_skipn, length_app. simpl List.length.
set (k := (List.length l + 1 - n)%nat).
assert (Hk : (k <= List.length l - 1)%nat) by (unfold k; lia).
destruct (Z.of_nat (List.length l + 1 - k) - 1 - 1 <? 0) eqn:E;
  [apply Z.ltb_lt in E; lia|].
rewrite nth_error_skipn.
replace (k + Z.to_nat (Z.of_nat (List.length l + 1 - k) - 1 - 1))%nat
  with (List.length l - 1)%nat by lia.
apply nth_error_app1. lia.
Qed.

(** X14: a checkpoint that records a change discards the redo branch:
    afterwards redo does nothing, the new snapshot is current, and one
    undo re-applies the snapshot that was current before the change.
    Below the limit the stack is the snapshots up to the old index
    followed by the new one. *)
Theorem checkpoint_discards_redo (qs : string) (h : HistoryState) :
  wellFormed h -> sameAs qs (current h) = false ->
  let h' := saveCheckpoint qs h in
  current h' = Some qs
  /\ canRedo h' = false /\ redo h' = (h', NoOp)
  /\ canUndo h' = true /\ snd (undo h') = ApplySerialized (current h)
  /\ (index h + 2 <= HISTORY_LIMIT ->
      stack h' = (firstn (Z.to_nat (index h + 1)) (stack h) ++ [qs])%list).
Proof.
intros [Hne [Hb Hi]] Hs h'.
destruct (saveCheckpoint_pushed qs h Hs) as [Hst Hidx]. fold h' in Hst, Hidx.
assert (Hsl : slice0 (stack h) (index h + 1)
              = firstn (Z.to_nat (index h + 1)) (stack h)).
{ unfold slice0. destruct (index h + 1 <? 0) eqn:E; [apply Z.ltb_lt in E; lia|].
  reflexivity. }
rewrite Hsl in Hst.
set (sl := firstn (Z.to_nat (index h + 1)) (stack h)) in *.
assert (Hsll : List.length sl = Z.to_nat (index h + 1)).
{ unfold sl. rewrite length_firstn. unfold len in *. lia. }
assert (Hlen : 2 <= len (stack h')).
{ rewrite Hst. unfold lastn, len. rewrite length_skipn, length_app.
  simpl List.length. lia. }
assert (Hcur : current h' = Some qs).
{ unfold current. rewrite Hidx, Hst. apply lastn_last. lia. }
assert (Hr : canRedo h' = false).
{ unfold canRedo. apply Z.ltb_ge. lia. }
assert (Hu : canUndo h' = true).
{ unfold canUndo. apply Z.ltb_lt. lia. }
split; [exact Hcur|]. split; [exact Hr|].
split; [unfold redo; now rewrite Hr|].
split; [exact Hu|]. split.
- unfold undo. rewrite Hu. cbn [negb snd stack index]. f_equal.
  rewrite Hidx, Hst. rewrite lastn_before_last.
  + unfold current, nthZ.
    destruct (index h <? 0) eqn:E; [apply Z.ltb_lt in E; lia|].
    rewrite Hsll. unfold sl. rewrite nth_error_firstn.
    replace (Z.to_nat (index h + 1) - 1)%nat with (Z.to_nat (index h)) by lia.
    destruct (Z.to_nat (index h) <? Z.to_nat (index h + 1))%nat eqn:E2;
      [reflexivity|].
    apply Nat.ltb_ge in E2. lia.
  + lia.
  + intros E. rewrite E in Hsll. simpl in Hsll. lia.
- intros Hlim. rewrite Hst. unfold lastn. rewrite length_app. simpl List.length.
  unfold HISTORY_LIMIT in Hlim.
  replace (List.length sl + 1 - 100)%nat with 0%nat by lia. reflexivity.
Qed.

Lemma checkpoint_discards_redo_witness :
  stack (saveCheckpoint "x" {| stack := ["a"; "b"; "c"]; index := 1 |})
  = ["a"; "b"; "x"].
Proof.
apply (checkpoint_discards_redo "x" {| stack := ["a"; "b"; "c"]; index := 1 |}).
- unfold wellFormed, len, HISTORY_LIMIT. cbn. repeat split; try lia. discriminate.
- reflexivity.
- cbn. unfold HISTORY_LIMIT. lia.
Defined.

(** X15: after initialisation and any number of checkpoints of pairwise
    distinct states, the stack holds the last 100 of all the snapshots: its
    length is the number of snapshots capped at 100, the last checkpointed
    state is current, and redo is not available. *)
Theorem checkpoints_keep_last_100 (s0 : string) (l : list string) :
  NoDup (s0 :: l) ->
  let h := checkpoints l (initHistoryWithCurrent s0) in
  stack h = lastn 100 (s0 :: l)
  /\ len (stack h) = Z.min (len l + 1) 100
  /\ current h = Some (last l s0)
  /\ canRedo h = false.
Proof.
intros Hnd h.
destruct (checkpoints_distinct l [s0] (initHistoryWithCurrent s0))
  as [Hs Hi]; [exact Hnd | reflexivity | reflexivity |].
fold h in Hs, Hi. cbn [app] in Hs.
split; [exact Hs|].
assert (Hl : len (stack h) = Z.min (len l + 1) 100).
{ rewrite Hs. unfold lastn, len. rewrite length_skipn. simpl List.length. lia. }
split; [exact Hl|]. split.
- unfold current. rewrite Hi, Hs.
  destruct (exists_last (l := s0 :: l)) as [pre [q E]]; [discriminate|].
  assert (Eq : last l s0 = q).
  { change (last l s0) with (last (s0 :: l) s0) || idtac.
    assert (L : last (s0 :: l) s0 = q) by (rewrite E; apply last_last).
    destruct l; [exact L | exact L]. }
  rewrite Eq, E. apply lastn_last. lia.
- unfold canRedo. apply Z.ltb_ge. lia.
Qed.

Lemma checkpoints_keep_last_100_witness :
  len (stack (checkpoints snapshots105 (initHistoryWithCurrent "s0")))
  = Z.min (len snapshots105 + 1) 100.
Proof.
apply (checkpoints_keep_last_100 "s0" snapshots105).
apply nodupb_sound. vm_compute. reflexivity.
Defined.

End HistoryMore.

(** ** The paint encoding is canonical *)

Section PaintCanonical.
Import Vocab Vocab2.
Import JS State Transform UrlState.

Lemma groupStep_cellOf (byY : list (Z * list Z)) (k : string) :
  groupStep byY k
  = match cellOf k with Some (x, y) => pushAt byY y x | None => byY end.
Proof.
unfold groupStep, cellOf.
destruct (parseInt (at_ 0 (split "," k)) 10);
  destruct (parseInt (at_ 1 (split "," k)) 10); reflexivity.
Qed.

Lemma groupStep_cellsOf (s : JS.set) (byY : list (Z * list Z)) :
  fold_left groupStep s byY = groupCells (cellsOf s) byY.
Proof.
revert byY. induction s as [|k s IH]; intros byY; [reflexivity|].
cbn [fold_left]. rewrite IH, groupStep_cellOf. unfold cellsOf. cbn [flat_map].
destruct (cellOf k) as [[x y]|]; reflexivity.
Qed.

Lemma getRow_groupCells (cells : list (Z * Z)) (byY : list (Z * list Z)) (y : Z) :
  getRow (groupCells cells byY) y = (getRow byY y ++ rowOf y cells)%list.
Proof.
revert byY. induction cells as [|[x0 y0] cells IH]; intros byY.
- cbn. now rewrite app_nil_r.
- unfold groupCells in *. cbn [fold_left fst snd]. rewrite IH, getRow_pushAt.
  unfold rowOf. cbn [flat_map fst snd].
  rewrite (Z.eqb_sym y0 y). destruct (y =? y0) eqn:E.
  + apply Z.eqb_eq in E. subst y0. now rewrite <- app_assoc.
  + reflexivity.
Qed.

Lemma insertSorted_comm (a b : Z) (l : list Z) :
  insertSorted a (insertSorted b l) = insertSorted b (insertSorted a l).
Proof.
induction l as [|c l IH]; cbn.
- destruct (a <=? b) eqn:E1, (b <=? a) eqn:E2; try reflexivity.
  + apply Z.leb_le in E1, E2. now replace b with a by lia.
  + apply Z.leb_gt in E1, E2. lia.
- destruct (b <=? c) eqn:Eb, (a <=? c) eqn:Ea; cbn;
    rewrite ?Eb, ?Ea;
    destruct (a <=? b) eqn:E1, (b <=? a) eqn:E2; cbn; rewrite ?Eb, ?Ea;
    try reflexivity;
    try (apply Z.leb_le in E1); try (apply Z.leb_gt in E1);
    try (apply Z.leb_le in E2); try (apply Z.leb_gt in E2);
    try (apply Z.leb_le in Ea); try (apply Z.leb_gt in Ea);
    try (apply Z.leb_le in Eb); try (apply Z.leb_gt in Eb);
    try lia; try (now replace b with a by lia); try (now rewrite IH).
Qed.

Lemma sortNum_perm (l l' : list Z) :
  Permutation l l' -> sortNum l = sortNum l'.
Proof.
induction 1 as [| x l l' _ IH | x y l | l l' l'' _ IH1 _ IH2].
- reflexivity.
- change (insertSorted x (sortNum l) = insertSorted x (sortNum l')).
  now rewrite IH.
- change (insertSorted y (insertSorted x (sortNum l))
          = insertSorted x (insertSorted y (sortNum l))).
  apply insertSorted_comm.
- congruence.
Qed.

Lemma encodeRedRLE_perm (s s' : JS.set) (useBase36 : bool) :
  Permutation s s' -> encodeRedRLE s useBase36 = encodeRedRLE s' useBase36.
Proof.
intros P.
destruct s as [|k s].
{ apply Permutation_nil in P. now subst. }
destruct s' as [|k' s'].
{ apply Permutation_sym, Permutation_nil in P. discriminate. }
unfold encodeRedRLE. rewrite !groupStep_cellsOf.
assert (PC : Permutation (cellsOf (k :: s)) (cellsOf (k' :: s')))
  by (unfold cellsOf; now apply Permutation_flat_map).
set (cs := cellsOf (k :: s)) in *. set (cs' := cellsOf (k' :: s')) in *.
assert (Hrow : forall y, sortNum (getRow (groupCells cs []) y)
                         = sortNum (getRow (groupCells cs' []) y)).
{ intros y. apply sortNum_perm. rewrite !getRow_groupCells. cbn [getRow app].
  unfold rowOf. now apply Permutation_flat_map. }
assert (Hkeys : sortNum (map fst (groupCells cs []))
                = sortNum (map fst (groupCells cs' []))).
{ apply sortNum_perm. apply NoDup_Permutation.
  - apply keys_groupCells_NoDup. constructor.
  - apply keys_groupCells_NoDup. constructor.
  - intros y. rewrite !groupCells_keys. cbn [map In].
    split; (intros [[] | [x Hx]]; right; exists x).
    + eapply Permutation_in; eauto.
    + eapply Permutation_in; [apply Permutation_sym|]; eauto. }
rewrite Hkeys. f_equal. apply map_ext. intros y. unfold rowStr.
now rewrite Hrow.
Qed.

(** X16: the text of a paint set does not depend on the order in which its
    cells were painted: two sets with the same keys are encoded by the
    same string. *)
Theorem encodeRedRLE_order_independent (s s' : JS.set) (useBase36 : bool) :
  NoDup s -> NoDup s' -> (forall k, has s k = has s' k) ->
  encodeRedRLE s useBase36 = encodeRedRLE s' useBase36.
Proof.
intros Hs Hs' Hsame. apply encodeRedRLE_perm.
apply NoDup_Permutation; try assumption.
intros k. rewrite <- !has_true, Hsame. reflexivity.
Qed.

Lemma encodeRedRLE_order_independent_witness :
  encodeRedRLE ["3,1"; "0,0"; "2,1"; "1,0"] true
  = encodeRedRLE ["0,0"; "1,0"; "2,1"; "3,1"] true.
Proof.
apply encodeRedRLE_order_independent.
- apply nodupb_sound. vm_compute. reflexivity.
- apply nodupb_sound. vm_compute. reflexivity.
- intros k. cbn [has existsb].
  destruct (String.eqb k "3,1"), (String.eqb k "0,0"),
           (String.eqb k "2,1"), (String.eqb k "1,0"); reflexivity.
Defined.

(** *** Runs *)

Lemma runStep_prefix (xs : list Z) (runs : list (Z * Z)) (sp : Z * Z) :
  finish (fold_left runStep xs (runs, Some sp))
  = (runs ++ runsFrom (fst sp) (snd sp) xs)%list.
Proof.
unfold runsFrom. revert runs sp.
induction xs as [|x xs IH]; intros runs [s p]; cbn [fold_left fst snd].
- reflexivity.
- cbn [runStep]. destruct (x =? p + 1).
  + rewrite (IH runs (s, x)), (IH [] (s, x)). reflexivity.
  + rewrite (IH (runs ++ [(s, p)])%list (x, x)).
    cbn [app]. rewrite (IH [(s, p)] (x, x)). cbn [fst snd].
    now rewrite <- app_assoc.
Qed.

Lemma runsFrom_cons (s p x : Z) (xs : list Z) :
  runsFrom s p (x :: xs)
  = if x =? p + 1 then runsFrom s x xs else (s, p) :: runsFrom x x xs.
Proof.
unfold runsFrom at 1. cbn [fold_left runStep].
destruct (x =? p + 1).
- reflexivity.
- cbn [app]. now rewrite (runStep_prefix xs [(s, p)] (x, x)).
Qed.

Lemma runsOf_runsFrom (x : Z) (xs : list Z) :
  runsOf (x :: xs) = runsFrom x x xs.
Proof.
unfold runsOf, runsFrom, finish. cbn [fold_left runStep].
destruct (fold_left runStep xs ([], Some (x, x))) as [r [sp|]]; reflexivity.
Qed.

Lemma runsFrom_separated (xs : list Z) (s p : Z) :
  s <= p -> Sorted Z.lt (p :: xs) ->
  separated (runsFrom s p xs)
  /\ exists b rest, runsFrom s p xs = (s, b) :: rest.
Proof.
revert s p. induction xs as [|x xs IH]; intros s p Hsp Hs.
- unfold runsFrom. cbn. split; [auto | eauto].
- rewrite runsFrom_cons.
  inversion Hs as [|? ? Hs' Hhd]; subst. inversion Hhd as [|? ? Hpx]; subst.
  destruct (x =? p + 1) eqn:E.
  + apply Z.eqb_eq in E. apply IH; [lia | assumption].
  + apply Z.eqb_neq in E.
    destruct (IH x x (Z.le_refl x) Hs') as [Hsep [b [rest Er]]].
    split; [|eauto].
    rewrite Er in *. cbn [separated]. split; [assumption|]. split; [lia|].
    exact Hsep.
Qed.

Lemma insertSorted_strict (b : Z) (l : list Z) :
  ~ In b l -> Sorted Z.lt l -> Sorted Z.lt (insertSorted b l).
Proof.
induction l as [|c l IH]; intros Hn Hs; cbn; [repeat constructor|].
destruct (b <=? c) eqn:E.
- apply Z.leb_le in E. constructor; [assumption|]. constructor.
  assert (b <> c) by (intros ->; apply Hn; now left). lia.
- apply Z.leb_gt in E. inversion Hs as [|? ? Hs' Hhd]; subst.
  constructor; [apply IH; [intros H; apply Hn; now right | assumption]|].
  destruct l as [|e l]; cbn.
  + constructor. lia.
  + destruct (b <=? e); constructor; [lia|]. now inversion Hhd.
Qed.

Lemma sortNum_strict (l : list Z) : NoDup l -> Sorted Z.lt (sortNum l).
Proof.
induction 1 as [|b l Hn _ IH]; cbn; [constructor|].
apply insertSorted_strict; [|assumption]. now rewrite sortNum_In.
Qed.

Lemma runsOf_separated (xs : list Z) :
  Sorted Z.lt xs -> separated (runsOf xs).
Proof.
intros Hs. destruct xs as [|x xs]; [exact I|].
rewrite runsOf_runsFrom. apply runsFrom_separated; [lia | assumption].
Qed.

Lemma rowOf_In (y x : Z) (cells : list (Z * Z)) :
  In x (rowOf y cells) <-> In (x, y) cells.
Proof.
unfold rowOf. rewrite in_flat_map. split.
- intros [[x0 y0] [Hin H]]. cbn [fst snd] in H.
  destruct (Z.eqb_spec y0 y); [|destruct H].
  destruct H as [<- | []]. now subst.
- intros H. exists (x, y). split; [assumption|]. cbn [fst snd].
  rewrite Z.eqb_refl. now left.
Qed.

Lemma rowOf_NoDup (y : Z) (cells : list (Z * Z)) :
  NoDup cells -> NoDup (rowOf y cells).
Proof.
induction 1 as [|[x0 y0] cells Hn _ IH]; [constructor|].
unfold rowOf in *. cbn [flat_map fst snd].
destruct (Z.eqb_spec y0 y); [|exact IH].
subst y0. cbn [app]. constructor; [|exact IH].
intros H. apply Hn. now apply (rowOf_In y x0 cells).
Qed.

(** X17: the runs [encodeRedRLE] writes for a row of a paint set of cell
    keys are maximal: each is written low end first, they ascend, two
    consecutive runs are separated by at least one unpainted cell, and
    together they cover exactly the painted cells of the row. *)
Theorem encodeRedRLE_runs_maximal (cells : list (Z * Z)) (y : Z) :
  NoDup cells ->
  Forall safeCell cells ->
  let byY := fold_left groupStep (map cellKey cells) [] in
  let runs := runsOf (sortNum (getRow byY y)) in
  separated runs
  /\ (forall x, covered runs x <-> In (x, y) cells)
  /\ rowStr true byY y = rowText y runs.
Proof.
intros Hnd Hall byY runs. unfold runs, byY.
rewrite groupStep_fold by assumption.
rewrite getRow_groupCells. cbn [getRow app].
split; [|split].
- apply runsOf_separated, sortNum_strict. now apply rowOf_NoDup.
- intros x. destruct (runsOf_spec (sortNum (rowOf y cells))) as [_ Hc].
  rewrite Hc, sortNum_In. apply rowOf_In.
- unfold rowStr, rowText. rewrite getRow_groupCells. reflexivity.
Qed.

Lemma encodeRedRLE_runs_maximal_witness :
  separated (runsOf (sortNum (getRow
     (fold_left groupStep (map cellKey [(5, 0); (1, 0); (0, 0); (2, 0); (9, 3)]) [])
     0))).
Proof.
apply (encodeRedRLE_runs_maximal [(5, 0); (1, 0); (0, 0); (2, 0); (9, 3)] 0).
- repeat constructor; cbn; intuition congruence.
- repeat constructor; cbn; unfold MAX_SAFE_INTEGER; lia.
Defined.

End PaintCanonical.

(** ** Click-toggling of user paint *)

Section ToggleFacts.
Import Vocab Vocab2.
Import JS State Transform UrlState History TileToggle.

Lemma delete_NoDup (s : JS.set) (k : string) : NoDup s -> NoDup (delete s k).
Proof. intros H. unfold delete. now apply NoDup_filter. Qed.

Lemma toggle_userPaint (d : Dom) (st : state) (x y : Q) :
  userPaint (toggle d st x y)
  = let k := cellKey (pointToCell d x y) in
    if has (userPaint st) k then delete (userPaint st) k
    else add (userPaint st) k.
Proof.
unfold toggle, cellKey. destruct (pointToCell d x y) as [cx cy]. reflexivity.
Qed.

Lemma toggle_has (d : Dom) (st : state) (x y : Q) (k : string) :
  has (userPaint (toggle d st x y)) k
  = if String.eqb k (cellKey (pointToCell d x y))
    then negb (has (userPaint st) k)
    else has (userPaint st) k.
Proof.
rewrite toggle_userPaint. cbv zeta.
set (k0 := cellKey (pointToCell d x y)).
destruct (String.eqb_spec k k0) as [-> | Hne].
- destruct (has (userPaint st) k0) eqn:E; cbn [negb].
  + apply not_true_is_false. rewrite has_delete. intros [_ H]. now apply H.
  + apply has_add. now right.
- destruct (has (userPaint st) k0) eqn:E.
  + destruct (has (userPaint st) k) eqn:Ek.
    * apply has_delete. auto.
    * apply not_true_is_false. rewrite has_delete. intros [H _]. congruence.
  + destruct (has (userPaint st) k) eqn:Ek.
    * apply has_add. auto.
    * apply not_true_is_false. rewrite has_add. intros [H | H]; congruence.
Qed.

Lemma toggle_NoDup (d : Dom) (st : state) (x y : Q) :
  NoDup (userPaint st) -> NoDup (userPaint (toggle d st x y)).
Proof.
intros H. rewrite toggle_userPaint. cbv zeta.
destruct (has (userPaint st) _).
- now apply delete_NoDup.
- unfold add. destruct (has (userPaint st) _) eqn:E; [assumption|].
  apply NoDup_app; [assumption | repeat constructor; intros [] |].
  intros a Ha [<- | []]. apply has_true in Ha. congruence.
Qed.

Lemma pointToCell_nonneg (d : Dom) (x y : Q) :
  0 <= fst (pointToCell d x y) /\ 0 <= snd (pointToCell d x y).
Proof. unfold pointToCell. cbn [fst snd]. lia. Qed.

Lemma pointToCell_safe (d : Dom) (x y : Q) :
  safeWorld d -> safeCell (pointToCell d x y).
Proof.
intros [Hc Hr]. unfold safeCell, pointToCell, worldCols, worldRows in *.
cbn [fst snd]. unfold MAX_SAFE_INTEGER in *. lia.
Qed.

Lemma toggle_canonical (d : Dom) (st : state) (x y : Q) :
  safeWorld d ->
  canonicalPaint (userPaint st) -> canonicalPaint (userPaint (toggle d st x y)).
Proof.
intros Hd H. rewrite toggle_userPaint. cbv zeta. unfold canonicalPaint in *.
destruct (has (userPaint st) _).
- unfold delete. apply Forall_forall. intros k Hk. apply filter_In in Hk.
  destruct Hk as [Hk _]. revert k Hk. now apply Forall_forall.
- unfold add. destruct (has (userPaint st) _); [assumption|].
  apply Forall_app. split; [assumption|].
  constructor; [|constructor].
  exists (pointToCell d x y). split; [now apply pointToCell_safe | reflexivity].
Qed.

Lemma toggle_length (d : Dom) (st : state) (x y : Q) :
  lengthOf (userPaint (toggle d st x y)) <= lengthOf (userPaint st) + 1.
Proof.
rewrite toggle_userPaint. cbv zeta. unfold lengthOf.
destruct (has (userPaint st) _).
- unfold delete. pose proof (filter_length_le
    (fun k' => negb (cellKey (pointToCell d x y) =? k')%string) (userPaint st)).
  lia.
- unfold add. destruct (has (userPaint st) _); [lia|].
  rewrite length_app. cbn [List.length]. lia.
Qed.

(** X18: a click flips the user paint of the clicked cell and of no other:
    the key of the cell under the click changes membership, every other
    key keeps its own, blocks and painted set are untouched, and the set
    stays a duplicate-free set of keys of cells with non-negative
    coordinates. *)
Theorem toggle_flips_clicked_cell (d : Dom) (st : state) (x y : Q) :
  let k := cellKey (pointToCell d x y) in
  let st' := toggle d st x y in
  has (userPaint st') k = negb (has (userPaint st) k)
  /\ (forall k', k' <> k -> has (userPaint st') k' = has (userPaint st) k')
  /\ blocks st' = blocks st /\ paintedSet st' = paintedSet st
  /\ (NoDup (userPaint st) -> NoDup (userPaint st'))
  /\ (safeWorld d ->
      canonicalPaint (userPaint st) -> canonicalPaint (userPaint st')).
Proof.
intros k st'. unfold st', k. split; [|split; [|split; [|split; [|split]]]].
- rewrite toggle_has, String.eqb_refl. reflexivity.
- intros k' Hne. rewrite toggle_has.
  destruct (String.eqb_spec k' (cellKey (pointToCell d x y))); [contradiction|].
  reflexivity.
- unfold toggle. destruct (pointToCell d x y). reflexivity.
- unfold toggle. destruct (pointToCell d x y). reflexivity.
- apply toggle_NoDup.
- apply toggle_canonical.
Qed.

Lemma toggle_flips_clicked_cell_witness :
  has (userPaint (toggle sampleDom
         {| blocks := []; paintedSet := []; userPaint := ["0,0"; "2,1"] |}
         (100 # 1) (50 # 1))) "0,0" = true
  /\ NoDup (userPaint (toggle sampleDom
         {| blocks := []; paintedSet := []; userPaint := ["0,0"; "2,1"] |}
         (100 # 1) (50 # 1))).
Proof.
destruct (toggle_flips_clicked_cell sampleDom
            {| blocks := []; paintedSet := []; userPaint := ["0,0"; "2,1"] |}
            (100 # 1) (50 # 1)) as [_ [Hother [_ [_ [Hnd _]]]]].
split.
- rewrite (Hother "0,0"); [reflexivity | vm_compute; discriminate].
- apply Hnd. apply nodupb_sound. vm_compute. reflexivity.
Defined.

(** X19: clicking the same cell twice restores the paint set: every key
    has the membership it had, and the board serializes to the same
    string as before the two clicks. *)
Theorem toggle_twice_restores (d : Dom) (st : state) (x y : Q) :
  NoDup (userPaint st) ->
  let st'' := toggle d (toggle d st x y) x y in
  (forall k, has (userPaint st'') k = has (userPaint st) k)
  /\ serializeState d st'' = serializeState d st.
Proof.
intros Hnd st''.
assert (Hhas : forall k, has (userPaint st'') k = has (userPaint st) k).
{ intros k. unfold st''. rewrite !toggle_has.
  destruct (String.eqb k (cellKey (pointToCell d x y))); [|reflexivity].
  apply negb_involutive. }
split; [exact Hhas|].
assert (Hb : blocks st'' = blocks st).
{ unfold st'', toggle. destruct (pointToCell d x y). reflexivity. }
unfold serializeState. rewrite Hb.
rewrite (encodeRedRLE_perm (userPaint st'') (userPaint st) true).
- reflexivity.
- apply NoDup_Permutation.
  + unfold st''. now do 2 apply toggle_NoDup.
  + assumption.
  + intros k. rewrite <- !has_true, Hhas. reflexivity.
Qed.

Lemma toggle_twice_restores_witness :
  serializeState sampleDom
    (toggle sampleDom
       (toggle sampleDom
          {| blocks := []; paintedSet := []; userPaint := ["2,1"; "0,0"] |}
          (100 # 1) (50 # 1))
       (100 # 1) (50 # 1))
  = serializeState sampleDom
      {| blocks := []; paintedSet := []; userPaint := ["2,1"; "0,0"] |}.
Proof.
apply (toggle_twice_restores sampleDom
         {| blocks := []; paintedSet := []; userPaint := ["2,1"; "0,0"] |}).
apply nodupb_sound. vm_compute. reflexivity.
Defined.

(** X20: a click is always recorded: on a board whose blocks are of
    palette kinds and whose user paint holds keys of cells (the numbers
    being safe integers, the label texts well-formed and the paint set
    not full), the board serializes differently after a click, so the
    checkpoint that follows is not a no-op, and one undo from there hands
    back the serialization from before the click. *)
Theorem toggle_is_recorded (d : Dom) (st : state) (x y : Q) (h : HistoryState) :
  Forall validBlock (mutableBlocks st) ->
  Forall (safeBlock d) (mutableBlocks st) ->
  safeWorld d ->
  canonicalPaint (userPaint st) ->
  lengthOf (userPaint st) < MAX_ARRAY_LENGTH ->
  wellFormed h ->
  current h = Some (serializeState d st) ->
  let qs' := serializeState d (toggle d st x y) in
  qs' <> serializeState d st
  /\ current (saveCheckpoint qs' h) = Some qs'
  /\ undo (saveCheckpoint qs' h)
     = ({| stack := stack (saveCheckpoint qs' h);
           index := index (saveCheckpoint qs' h) - 1 |},
        ApplySerialized (Some (serializeState d st))).
Proof.
intros Hb Hsb Hd Hp Hroom Hw Hcur qs'.
set (k := cellKey (pointToCell d x y)).
assert (Hb' : mutableBlocks (toggle d st x y) = mutableBlocks st).
{ unfold mutableBlocks, toggle. destruct (pointToCell d x y). reflexivity. }
assert (Hne : qs' <> serializeState d st).
{ intros E.
  destruct (deserialize_serialize d st Hb Hsb Hp) as [l [El Hl]]; [lia|].
  destruct (deserialize_serialize d (toggle d st x y)) as [l' [El' Hl']].
  - now rewrite Hb'.
  - now rewrite Hb'.
  - now apply toggle_canonical.
  - pose proof (toggle_length d st x y). lia.
  - fold qs' in El'. rewrite E, El in El'.
    assert (Hred : l = l') by (inversion El'; reflexivity).
    subst l'.
    assert (Hin : In k (userPaint (toggle d st x y)) <-> In k (userPaint st))
      by (rewrite <- Hl, <- Hl'; reflexivity).
    rewrite <- !has_true in Hin. unfold k in Hin.
    rewrite toggle_has, String.eqb_refl in Hin.
    destruct (has (userPaint st) (cellKey (pointToCell d x y)));
      cbn [negb] in Hin; destruct Hin as [H1 H2];
      [specialize (H2 eq_refl) | specialize (H1 eq_refl)]; discriminate. }
split; [exact Hne|].
assert (Hs : sameAs qs' (current h) = false).
{ rewrite Hcur. cbn [sameAs]. now apply String.eqb_neq. }
destruct Hw as [Hnil [Hlim Hidx]].
destruct (saveCheckpoint_pushed qs' h Hs) as [Hst Hi].
assert (Hsl : slice0 (stack h) (index h + 1)
              = firstn (Z.to_nat (index h + 1)) (stack h)).
{ unfold slice0. destruct (index h + 1 <? 0) eqn:E; [apply Z.ltb_lt in E; lia|].
  reflexivity. }
rewrite Hsl in Hst.
set (sl := firstn (Z.to_nat (index h + 1)) (stack h)) in *.
assert (Hsll : List.length sl = Z.to_nat (index h + 1)).
{ unfold sl. rewrite length_firstn. unfold len in *. lia. }
assert (Hlen : 2 <= len (stack (saveCheckpoint qs' h))).
{ rewrite Hst. unfold lastn, len. rewrite length_skipn, length_app.
  cbn [List.length]. lia. }
split.
- unfold current. rewrite Hi, Hst. apply lastn_last. lia.
- unfold undo.
  assert (Hu : canUndo (saveCheckpoint qs' h) = true)
    by (unfold canUndo; apply Z.ltb_lt; lia).
  rewrite Hu. cbn [negb stack index]. f_equal. f_equal.
  rewrite Hi, Hst, lastn_before_last.
  + rewrite <- Hcur. unfold current, nthZ.
    destruct (index h <? 0) eqn:E; [apply Z.ltb_lt in E; lia|].
    rewrite Hsll. unfold sl. rewrite nth_error_firstn.
    replace (Z.to_nat (index h + 1) - 1)%nat with (Z.to_nat (index h)) by lia.
    destruct (Z.to_nat (index h) <? Z.to_nat (index h + 1))%nat eqn:E2;
      [reflexivity|].
    apply Nat.ltb_ge in E2. lia.
  + lia.
  + intros E. rewrite E in Hsll. cbn in Hsll. lia.
Qed.

Lemma toggle_is_recorded_witness :
  serializeState sampleDom
    (toggle sampleDom
       {| blocks := []; paintedSet := []; userPaint := ["0,0"] |}
       (100 # 1) (50 # 1))
  <> serializeState sampleDom
       {| blocks := []; paintedSet := []; userPaint := ["0,0"] |}.
Proof.
apply (toggle_is_recorded sampleDom
         {| blocks := []; paintedSet := []; userPaint := ["0,0"] |}
         (100 # 1) (50 # 1)
         (initHistoryWithCurrent
            (serializeState sampleDom
               {| blocks := []; paintedSet := []; userPaint := ["0,0"] |}))).
- constructor.
- constructor.
- split; vm_compute; discriminate.
- constructor; [|constructor].
  exists (0, 0). split; [unfold safeCell; cbn; lia | reflexivity].
- reflexivity.
- apply init_wellFormed.
- reflexivity.
Defined.

End ToggleFacts.

(** ** What [deserializeState] returns on any input *)

Section DecodeShape.
Import Vocab Vocab2.
Import JS State Transform Url UrlState.

Lemma max_idem (a : num) : JS.max a a = a.
Proof. destruct a as [| [|] | z | m]; cbn; now rewrite ?Z.max_id. Qed.

Lemma decodeToken_shape (isV2 : bool) (acc acc' : list Item) (token : string) :
  decodeToken isV2 acc token = Ok acc' ->
  acc' = acc \/ exists it, acc' = (acc ++ [it])%list /\ itemShape it.
Proof.
unfold decodeToken. destruct (negb (notEmpty token)); [left; congruence|].
destruct (indexOf "@" token) as [atIdx|]; [|left; congruence].
match goal with
| |- (x <- ?m ;; _) = _ -> _ => destruct m as [[lbl tl]| |]; try discriminate
end.
cbn [bind].
set (code := firstChar (sliceTo atIdx token)).
destruct (CODE_TO_KIND code) as [k|] eqn:Ek.
- assert (Hk : k = block \/ k = flag \/ k = hq \/ k = city \/ k = resource
               \/ k = trap \/ k = custom).
  { unfold CODE_TO_KIND in Ek.
    repeat match type of Ek with
    | match ?x with _ => _ end = _ => destruct x; try discriminate
    end; inversion Ek; auto 10. }
  intros H. right.
  destruct Hk as [-> | [-> | [-> | [-> | [-> | [-> | ->]]]]]];
    cbn [Kind_eqb andb] in H;
    repeat match type of H with
    | (if ?c then _ else _) = _ => destruct c
    end; inversion H; subst; clear H;
    eexists; (split; [reflexivity|]); unfold itemShape;
    cbn [ikind iwidth iheight isize paletteKind];
    rewrite ?max_idem; repeat split; congruence.
- intros H. right. cbn [Kind_eqb andb] in H.
  repeat match type of H with
  | (if ?c then _ else _) = _ => destruct c
  end; inversion H; subst; clear H;
  eexists; (split; [reflexivity|]); unfold itemShape;
  cbn [ikind iwidth iheight isize paletteKind];
  rewrite ?max_idem; repeat split; congruence.
Qed.

Lemma decodeTokens_shape (isV2 : bool) (tokens : list string)
    (acc acc' : list Item) :
  decodeTokens isV2 acc tokens = Ok acc' ->
  Forall itemShape acc ->
  Forall itemShape acc'
  /\ (List.length acc' <= List.length acc + List.length tokens)%nat.
Proof.
revert acc. induction tokens as [|t tokens IH]; intros acc H Hacc; cbn in H.
- inversion H; subst. split; [assumption | lia].
- destruct (decodeToken isV2 acc t) as [acc1| |] eqn:E; try discriminate.
  cbn [bind] in H. apply decodeToken_shape in E.
  destruct E as [-> | [it [-> Hit]]].
  + destruct (IH acc H Hacc) as [H1 H2]. split; [assumption|]. cbn. lia.
  + destruct (IH _ H) as [H1 H2].
    * apply Forall_app. split; [assumption|]. constructor; [assumption | constructor].
    * split; [assumption|]. rewrite length_app in H2. cbn in *. lia.
Qed.

(** X21: whatever the query string, when [deserializeState] returns, every
    decoded object has a palette kind (the legacy kind [block] and unknown
    codes become [custom]), carries a width and a height exactly when it
    is custom, with its size the larger of the two, and there is at most
    one object per [;]-separated token of the [b] parameter. *)
Theorem deserializeState_shape (qs : string) (p : Parsed) :
  deserializeState qs = Ok p ->
  Forall itemShape (pblocks p)
  /\ (List.length (pblocks p)
      <= List.length (split ";" (getOr (parse qs) "b" "")))%nat
  /\ ver p = getOr (parse qs) "v" "1".
Proof.
unfold deserializeState. cbv zeta.
destruct (decodeTokens _ [] (split ";" (getOr (parse qs) "b" "")))
  as [bs| |] eqn:Eb; try discriminate.
cbn [bind].
destruct (decodeRed _ _) as [l| |]; try discriminate.
cbn [bind]. intros H. inversion H; subst. cbn [pblocks ver].
destruct (decodeTokens_shape _ _ _ _ Eb (Forall_nil _)) as [H1 H2].
split; [assumption|]. split; [exact H2 | reflexivity].
Qed.

Lemma deserializeState_shape_witness :
  Forall itemShape
    [{| ikind := custom; iwidth := Some (Int 2); iheight := Some (Int 2);
        isize := Int 2; cx := Int 1; cy := Int 1; label := None |};
     {| ikind := custom; iwidth := Some (Int 3); iheight := Some (Int 3);
        isize := Int 3; cx := Int 4; cy := Int 5; label := None |};
     {| ikind := trap; iwidth := None; iheight := None;
        isize := Int 3; cx := Int 7; cy := Int 8; label := None |}].
Proof.
apply (deserializeState_shape "b=B2@1,1;?3@4,5;T3@7,8"
         {| pblocks :=
              [{| ikind := custom; iwidth := Some (Int 2); iheight := Some (Int 2);
                  isize := Int 2; cx := Int 1; cy := Int 1; label := None |};
               {| ikind := custom; iwidth := Some (Int 3); iheight := Some (Int 3);
                  isize := Int 3; cx := Int 4; cy := Int 5; label := None |};
               {| ikind := trap; iwidth := None; iheight := None;
                  isize := Int 3; cx := Int 7; cy := Int 8; label := None |}];
            red := []; ver := "1" |}).
vm_compute. reflexivity.
Defined.

(** *** When decoding cannot throw *)

Lemma decodeURIComponent_plain (s : string) :
  includes "%" s = false -> decodeURIComponent s = Ok s.
Proof.
unfold decodeURIComponent.
induction s as [|ch s IH]; [reflexivity|].
rewrite includes_cons. intros H. apply orb_false_iff in H. destruct H as [H1 H2].
cbn [decodeFrom]. rewrite H1, (IH H2). reflexivity.
Qed.

Lemma includes_split (c sep : ascii) (s : string) :
  includes c s = false -> Forall (fun p => includes c p = false) (split sep s).
Proof.
induction s as [|ch s IH]; intros H; [repeat constructor|].
rewrite includes_cons in H. apply orb_false_iff in H. destruct H as [H1 H2].
specialize (IH H2). cbn [split].
destruct (Ascii.eqb ch sep); [constructor; [reflexivity | assumption]|].
destruct (split sep s) as [|piece rest].
- repeat constructor. rewrite includes_cons, H1. reflexivity.
- inversion IH; subst. constructor; [|assumption].
  rewrite includes_cons, H1. assumption.
Qed.

Lemma decodeToken_plain (isV2 : bool) (acc : list Item) (token : string) :
  includes "%" token = false -> exists acc', decodeToken isV2 acc token = Ok acc'.
Proof.
intros Hp. unfold decodeToken. destruct (negb (notEmpty token)); [eauto|].
destruct (indexOf "@" token) as [atIdx|]; [|eauto].
destruct (indexOf "~" (sliceFrom (S atIdx) token)) as [tildeIdx|].
- rewrite decodeURIComponent_plain by (now do 2 apply includes_sliceFrom).
  cbn [bind].
  repeat match goal with
  | |- exists _, (if ?c then _ else _) = _ => destruct c
  end; eauto.
- cbn [bind].
  repeat match goal with
  | |- exists _, (if ?c then _ else _) = _ => destruct c
  end; eauto.
Qed.

Lemma decodeTokens_plain (isV2 : bool) (tokens : list string) (acc : list Item) :
  Forall (fun t => includes "%" t = false) tokens ->
  exists acc', decodeTokens isV2 acc tokens = Ok acc'.
Proof.
revert acc. induction tokens as [|t tokens IH]; intros acc H; cbn; [eauto|].
inversion H; subst.
destruct (decodeToken_plain isV2 acc t) as [acc1 E]; [assumption|].
rewrite E. cbn [bind]. now apply IH.
Qed.

(** X22: the objects of a link can only fail to decode on an escape in a
    label: when the decoded [b] parameter holds no percent sign, its
    tokens are decoded without throwing, and [deserializeState] returns
    with them whenever the paint parameter decodes. *)
Theorem deserializeState_returns (qs : string) :
  includes "%" (getOr (parse qs) "b" "") = false ->
  exists bs,
    decodeTokens (String.eqb (getOr (parse qs) "v" "1") "2") []
      (split ";" (getOr (parse qs) "b" "")) = Ok bs
    /\ forall l,
         decodeRed (getOr (parse qs) "r" "")
           (String.eqb (getOr (parse qs) "v" "1") "2") = Ok l ->
         deserializeState qs
         = Ok {| pblocks := bs; red := l; ver := getOr (parse qs) "v" "1" |}.
Proof.
intros H.
destruct (decodeTokens_plain
            (String.eqb (getOr (parse qs) "v" "1") "2")
            (split ";" (getOr (parse qs) "b" "")) [])
  as [bs E]; [now apply includes_split|].
exists bs. split; [exact E|].
intros l El. unfold deserializeState. cbv zeta.
rewrite E. cbn [bind]. rewrite El. reflexivity.
Qed.

Lemma deserializeState_returns_witness :
  exists p, deserializeState "v=2&b=!!;@;C@~;X1x@z,~~;;H3&r=0:;:1;q" = Ok p.
Proof.
destruct (deserializeState_returns "v=2&b=!!;@;C@~;X1x@z,~~;;H3&r=0:;:1;q")
  as [bs [_ E]]; [vm_compute; reflexivity|].
eexists. apply (E []). vm_compute. reflexivity.
Defined.

End DecodeShape.

(** ** Palette counters *)

Section CounterFacts.
Import Vocab Vocab2.
Import JS State Counters.

Lemma getOr0_mget (m : Counts) (key : string) :
  getOr0 m key = match mget m key with Some n => n | None => 0 end.
Proof.
unfold getOr0. destruct (mget m key) as [n|]; [|reflexivity].
destruct (Z.eqb_spec n 0); congruence.
Qed.

Lemma mget_mset (m : Counts) (key key' : string) (v : Z) :
  mget (mset m key v) key'
  = if String.eqb key key' then Some v else mget m key'.
Proof.
induction m as [|[k v0] m IH]; cbn [mset mget].
- reflexivity.
- destruct (String.eqb_spec k key) as [-> | Hne]; cbn [mget].
  + destruct (String.eqb key key'); reflexivity.
  + rewrite IH. destruct (String.eqb_spec k key') as [-> | Hne'].
    * destruct (String.eqb_spec key key'); [congruence | reflexivity].
    * reflexivity.
Qed.

Lemma getOr0_mset (m : Counts) (key key' : string) (v : Z) :
  getOr0 (mset m key v) key' = if String.eqb key key' then v else getOr0 m key'.
Proof.
rewrite !getOr0_mget, mget_mset. destruct (String.eqb key key'); reflexivity.
Qed.

Lemma count_fold (l : list Block) (m : Counts) (key : string) :
  getOr0
    (fold_left
       (fun m b => mset m (keyFor (kind b) (size b))
                     (getOr0 m (keyFor (kind b) (size b)) + 1)) l m) key
  = getOr0 m key
    + Z.of_nat (List.length
        (filter (fun b => String.eqb (keyFor (kind b) (size b)) key) l)).
Proof.
revert m. induction l as [|b l IH]; intros m; cbn [fold_left filter].
- cbn. lia.
- rewrite IH, getOr0_mset.
  destruct (String.eqb_spec (keyFor (kind b) (size b)) key) as [-> | Hne];
    cbn [List.length]; lia.
Qed.

Lemma kindName_free (k : Kind) : includes ":" (kindName k) = false.
Proof. destruct k; reflexivity. Qed.

Lemma kindName_inj (k k' : Kind) : kindName k = kindName k' -> k = k'.
Proof. destruct k, k'; cbn; intros H; try reflexivity; discriminate. Qed.

Lemma keyFor_eq (k k' : Kind) (s s' : Z) :
  String.eqb (keyFor k s) (keyFor k' s')
  = Kind_eqb k k' && (negb (Kind_eqb k' block) || (s =? s')).
Proof.
assert (S : forall a n,
          split ":" (kindName a ++ ":" ++ String_ (Int n))
          = [kindName a; String_ (Int n)]).
{ intros a n.
  change (kindName a ++ ":" ++ String_ (Int n))%string
    with (kindName a ++ String ":"%char (String_ (Int n)))%string.
  rewrite split_app_sep by apply kindName_free.
  rewrite split_free; [reflexivity|].
  apply toStringZ_free_any; [lia | reflexivity | discriminate]. }
destruct (String.eqb_spec (keyFor k s) (keyFor k' s')) as [E | Hne].
- unfold keyFor in E.
  assert (E' : split ":" (kindName k ++ ":"
                 ++ String_ (Int (if Kind_eqb k block then s else 0)))
               = split ":" (kindName k' ++ ":"
                   ++ String_ (Int (if Kind_eqb k' block then s' else 0))))
    by now rewrite E.
  rewrite !S in E'. injection E' as Ek En. apply kindName_inj in Ek. subst k'.
  apply toStringZ_inj in En; [|lia].
  assert (R : Kind_eqb k k = true) by (destruct k; reflexivity).
  rewrite R. destruct (Kind_eqb k block); cbn [negb orb andb]; [|reflexivity].
  symmetry. now apply Z.eqb_eq.
- symmetry. apply not_true_is_false. intros H. apply Hne.
  apply andb_prop in H. destruct H as [Hk Hs].
  assert (k = k') by (destruct k, k'; try discriminate; reflexivity). subst k'.
  unfold keyFor. destruct (Kind_eqb k block); cbn [negb orb] in Hs.
  + apply Z.eqb_eq in Hs. now subst.
  + reflexivity.
Qed.

Lemma badgeOf_count (st : state) (k : Kind) (s : Z) :
  badgeOf (computeCountsFromState st) k s
  = Z.of_nat (List.length
      (filter (fun b => Kind_eqb (kind b) k
                        && (negb (Kind_eqb k block) || (size b =? s)))
         (blocks st))).
Proof.
unfold badgeOf, computeCountsFromState. rewrite <- getOr0_mget, count_fold.
cbn [getOr0 mget]. rewrite Z.add_0_l. do 2 f_equal.
apply filter_ext. intros b. apply keyFor_eq.
Qed.

(** X23: after a recount, the badge of a palette item shows the number of
    blocks of its kind, whatever their size; only for the legacy kind
    [block] are the blocks counted per size. *)
Theorem counts_are_per_kind (st : state) (k : Kind) (s : Z) :
  badgeOf (computeCountsFromState st) k s
  = Z.of_nat (List.length
      (filter (fun b => Kind_eqb (kind b) k
                        && (negb (Kind_eqb k block) || (size b =? s)))
         (blocks st)))
  /\ (k <> block ->
      forall s', badgeOf (computeCountsFromState st) k s'
                 = badgeOf (computeCountsFromState st) k s).
Proof.
split; [apply badgeOf_count|].
intros Hk s'. rewrite !badgeOf_count. do 2 f_equal.
apply filter_ext. intros b.
destruct k; try congruence; reflexivity.
Qed.

Lemma counts_are_per_kind_witness :
  badgeOf (computeCountsFromState
             {| blocks := [blockAt city 2 0 0 "" false;
                           blockAt trap 3 4 4 "" false;
                           blockAt city 2 9 9 "" false];
                paintedSet := []; userPaint := [] |}) city 7
  = badgeOf (computeCountsFromState
               {| blocks := [blockAt city 2 0 0 "" false;
                             blockAt trap 3 4 4 "" false;
                             blockAt city 2 9 9 "" false];
                  paintedSet := []; userPaint := [] |}) city 2.
Proof.
apply (counts_are_per_kind
         {| blocks := [blockAt city 2 0 0 "" false;
                       blockAt trap 3 4 4 "" false;
                       blockAt city 2 9 9 "" false];
            paintedSet := []; userPaint := [] |} city 2).
discriminate.
Defined.

(** X24: the incremental counters agree with a recount: after a recount,
    [onCreateBlock] for a block appended to the board, and [onDeleteBlock]
    for a block taken out of it, leave on every badge the number a recount
    of the new board gives. *)
Theorem counters_follow_blocks (st : state) (b : Block) (l1 l2 : list Block)
    (k : Kind) (s : Z) :
  let board l :=
    {| blocks := l; paintedSet := paintedSet st; userPaint := userPaint st |} in
  badgeOf (onCreateBlock b (computeCountsFromState (board l1))) k s
  = badgeOf (computeCountsFromState (board (l1 ++ [b])%list)) k s
  /\ badgeOf (onDeleteBlock b (computeCountsFromState (board (l1 ++ b :: l2)%list)))
       k s
     = badgeOf (computeCountsFromState (board (l1 ++ l2)%list)) k s.
Proof.
intros board. split.
- unfold computeCountsFromState, board. cbn [blocks].
  rewrite fold_left_app. reflexivity.
- unfold badgeOf, onDeleteBlock. rewrite <- !getOr0_mget, getOr0_mset.
  unfold computeCountsFromState, board. cbn [blocks].
  rewrite !count_fold. cbn [getOr0 mget]. rewrite !Z.add_0_l.
  rewrite !filter_app, !length_app. cbn [filter].
  rewrite String.eqb_refl. cbn [List.length].
  destruct (String.eqb (keyFor (kind b) (size b)) (keyFor k s)) eqn:E.
  + apply String.eqb_eq in E. rewrite <- E. lia.
  + lia.
Qed.

End CounterFacts.

(** ** Growing the world *)

Section ExpandFacts.
Import Vocab Vocab2.
Import JS State Transform Painter Blocks Render Expand.

Lemma ceil_covers (w c : Z) :
  0 < c -> w <= ceil (inject_Z w / inject_Z c) * c.
Proof.
intros Hc. pose proof (inject_cell_pos c Hc) as Hq.
assert (L : (inject_Z w <= inject_Z (ceil (inject_Z w / inject_Z c) * c))%Q).
{ rewrite inject_Z_mult. rewrite <- (div_cell_mul (inject_Z w) c Hc) at 1.
  apply Qmult_le_r; [assumption | apply Qle_ceiling]. }
now rewrite <- Zle_Qle in L.
Qed.

Lemma expand_cases (a : bool) (v : Viewport) (d : Dom) (st : state) :
  let nc := worldCols d + (if nearRight v then EXPAND_CELLS else 0) in
  let nr := worldRows d + (if nearBottom v then EXPAND_CELLS else 0) in
  (expand a v d st = (d, st)
   /\ (a = true -> nearRight v = false /\ nearBottom v = false))
  \/ (a = true /\ nearRight v || nearBottom v = true
      /\ expand a v d st
         = (setWorldSizeCells d nc nr,
            recomputePaint (setWorldSizeCells d nc nr) st)).
Proof.
intros nc nr. unfold expand. fold (nearRight v) (nearBottom v).
destruct a; cbn [negb]; [|left; split; [reflexivity | discriminate]].
destruct (nearRight v) eqn:ER, (nearBottom v) eqn:EB; cbn [negb andb orb].
- right. split; [reflexivity|]. split; [reflexivity|].
  fold (worldCols d) (worldRows d).
  destruct (Z.eqb_spec (worldCols d + EXPAND_CELLS) (worldCols d));
    [unfold EXPAND_CELLS in *; lia|]. reflexivity.
- right. split; [reflexivity|]. split; [reflexivity|].
  fold (worldCols d) (worldRows d).
  destruct (Z.eqb_spec (worldCols d + EXPAND_CELLS) (worldCols d));
    [unfold EXPAND_CELLS in *; lia|]. reflexivity.
- right. split; [reflexivity|]. split; [reflexivity|].
  fold (worldCols d) (worldRows d).
  destruct (Z.eqb_spec (worldRows d + EXPAND_CELLS) (worldRows d));
    [unfold EXPAND_CELLS in *; lia|].
  rewrite andb_false_r. reflexivity.
- left. split; [reflexivity | auto].
Qed.

(** X25: [expand] never shrinks the world and never touches the blocks or
    the user paint.  With auto-expansion on, the world gains 300 columns
    when the view is near the right edge and 300 rows when it is near the
    bottom edge, both in one call; it is then sized to whole cells and the
    painted set is recomputed for it.  Otherwise nothing changes. *)
Theorem expand_only_grows (a : bool) (v : Viewport) (d : Dom) (st : state) :
  let d' := fst (expand a v d st) in
  let st' := snd (expand a v d st) in
  (cellPx d' = cellPx d
   /\ clientWidth d <= clientWidth d' /\ clientHeight d <= clientHeight d'
   /\ blocks st' = blocks st /\ userPaint st' = userPaint st)
  /\ (a = true ->
      worldCols d' = worldCols d + (if nearRight v then 300 else 0)
      /\ worldRows d' = worldRows d + (if nearBottom v then 300 else 0))
  /\ (a = true -> nearRight v || nearBottom v = true ->
      clientWidth d' = worldCols d' * cellPx d'
      /\ clientHeight d' = worldRows d' * cellPx d'
      /\ st' = recomputePaint d' st)
  /\ (a = false \/ nearRight v || nearBottom v = false ->
      expand a v d st = (d, st)).
Proof.
intros d' st'. unfold d', st'. pose proof (cellPx_pos d) as Hc.
pose proof (ceil_covers (clientWidth d) (cellPx d) Hc) as Hw.
pose proof (ceil_covers (clientHeight d) (cellPx d) Hc) as Hh.
fold (worldCols d) in Hw. fold (worldRows d) in Hh.
destruct (expand_cases a v d st) as [[E Hoff] | [Ha [Hn E]]]; rewrite E;
  cbn [fst snd].
- split; [repeat split; lia|]. split; [|split].
  + intros Ht. destruct (Hoff Ht) as [-> ->]. lia.
  + intros Ht Hn. destruct (Hoff Ht) as [H1 H2]. rewrite H1, H2 in Hn.
    discriminate.
  + reflexivity.
- set (nc := worldCols d + (if nearRight v then EXPAND_CELLS else 0)) in *.
  set (nr := worldRows d + (if nearBottom v then EXPAND_CELLS else 0)) in *.
  destruct (worldCols_whole d nc nr) as [Ec Er].
  assert (Hnc : worldCols d <= nc)
    by (unfold nc, EXPAND_CELLS; destruct (nearRight v); lia).
  assert (Hnr : worldRows d <= nr)
    by (unfold nr, EXPAND_CELLS; destruct (nearBottom v); lia).
  split; [|split; [|split]].
  + rewrite cellPx_setWorldSizeCells.
    cbn [setWorldSizeCells clientWidth clientHeight recomputePaint blocks userPaint].
    repeat split; nia.
  + intros _. rewrite Ec, Er. split; reflexivity.
  + intros _ _. rewrite Ec, Er, cellPx_setWorldSizeCells.
    cbn [setWorldSizeCells clientWidth clientHeight]. auto.
  + intros [Hf | Hf]; congruence.
Qed.

Lemma expand_only_grows_witness :
  worldCols (fst (expand true
                    {| scrollLeft := 57000 # 1; scrollTop := 0;
                       viewWidth := 800; viewHeight := 600;
                       scrollWidth := 57600; scrollHeight := 57600 |}
                    sampleDom
                    {| blocks := []; paintedSet := []; userPaint := [] |}))
  = worldCols sampleDom + 300.
Proof.
pose proof (expand_only_grows true
            {| scrollLeft := 57000 # 1; scrollTop := 0;
               viewWidth := 800; viewHeight := 600;
               scrollWidth := 57600; scrollHeight := 57600 |}
            sampleDom
            {| blocks := []; paintedSet := []; userPaint := [] |}) as H.
cbv zeta in H. destruct H as [_ [H _]].
destruct (H eq_refl) as [Hc _]. exact Hc.
Defined.

Lemma paints_grow (d d' : Dom) (b : Block) (x y : Z) :
  cellPx d' = cellPx d -> worldCols d <= worldCols d' ->
  worldRows d <= worldRows d' ->
  paints d b x y -> paints d' b x y.
Proof.
intros Hc Hw Hh [Hk Hin]. split; [assumption|].
assert (Ec : centerOf d' b = centerOf d b)
  by (unfold centerOf, posToCell; now rewrite Hc).
rewrite Ec. apply cellsForKindAt_In in Hin. apply cellsForKindAt_In. lia.
Qed.

Lemma isInvalid_cell (d d' : Dom) (s : JS.set) (b : Block) :
  cellPx d' = cellPx d -> isInvalid d' s b = isInvalid d s b.
Proof. intros Hc. unfold isInvalid, posToCell. now rewrite Hc. Qed.

(** X26: expanding the world loses no paint and invalidates no block: if
    the painted set is up to date before [expand], every key in it is in
    the painted set afterwards, and every block that was valid is valid
    in the expanded world. *)
Theorem expand_keeps_validity (a : bool) (v : Viewport) (d : Dom) (st : state) :
  paintedSet st = paintedSet (recomputePaint d st) ->
  let d' := fst (expand a v d st) in
  let st' := snd (expand a v d st) in
  (forall k, has (paintedSet st) k = true -> has (paintedSet st') k = true)
  /\ (forall b, isInvalid d (paintedSet st) b = false ->
                isInvalid d' (paintedSet st') b = false).
Proof.
intros Hup d' st'.
assert (Hkeys : forall k, has (paintedSet st) k = true
                          -> has (paintedSet st') k = true).
{ intros k Hk. unfold st'.
  destruct (expand_cases a v d st) as [[E _] | [_ [_ E]]]; rewrite E;
    cbn [snd]; [assumption|].
  set (nc := worldCols d + (if nearRight v then EXPAND_CELLS else 0)) in *.
  set (nr := worldRows d + (if nearBottom v then EXPAND_CELLS else 0)) in *.
  destruct (worldCols_whole d nc nr) as [Ec Er].
  rewrite Hup in Hk. cbn [recomputePaint paintedSet] in *.
  apply paintBlocks_has in Hk. apply paintBlocks_has.
  destruct Hk as [Hk | [b [x [y [Hb [Hp ->]]]]]]; [discriminate|].
  right. exists b, x, y. split; [assumption|]. split; [|reflexivity].
  eapply paints_grow; [apply cellPx_setWorldSizeCells | | | exact Hp].
  - rewrite Ec. unfold nc, EXPAND_CELLS. destruct (nearRight v); lia.
  - rewrite Er. unfold nr, EXPAND_CELLS. destruct (nearBottom v); lia. }
split; [exact Hkeys|].
intros b Hb. apply not_true_is_false. intros Hi.
assert (Hc : cellPx d' = cellPx d).
{ unfold d'. destruct (expand_cases a v d st) as [[E _] | [_ [_ E]]];
    rewrite E; reflexivity. }
rewrite (isInvalid_cell d d' _ b Hc) in Hi.
apply (isInvalid_antitone d (paintedSet st) (paintedSet st') b Hkeys) in Hi.
congruence.
Qed.

Lemma expand_keeps_validity_witness :
  has (paintedSet (snd (expand true
         {| scrollLeft := 57000 # 1; scrollTop := 0;
            viewWidth := 800; viewHeight := 600;
            scrollWidth := 57600; scrollHeight := 57600 |}
         sampleDom
         (recomputePaint sampleDom
            {| blocks := [blockAt flag 1 1199 5 "" false];
               paintedSet := []; userPaint := [] |})))) "1199,5" = true.
Proof.
pose proof (expand_keeps_validity true
         {| scrollLeft := 57000 # 1; scrollTop := 0;
            viewWidth := 800; viewHeight := 600;
            scrollWidth := 57600; scrollHeight := 57600 |}
         sampleDom
         (recomputePaint sampleDom
            {| blocks := [blockAt flag 1 1199 5 "" false];
               paintedSet := []; userPaint := [] |})) as H.
cbv zeta in H. destruct H as [Hk _].
- vm_compute. reflexivity.
- apply Hk. vm_compute. reflexivity.
Defined.

End ExpandFacts.
